(** * smee.potentials: non-bonded energy kernels, broadcasting and dispatch

    A shallow embedding of [smee/potentials/_potentials.py] and
    [smee/potentials/nonbonded.py].

    Conventions of the embedding:
    - a floating point tensor is a list (or list of lists) of reals: rounding
      is not modelled, arithmetic is exact;
    - an integer (index) tensor is a list of [Z]; indexing follows torch:
      a negative index counts from the end, an index outside
      [[-len, len)] raises [IndexError];
    - a Python exception is the [Raise] case of [result]; a function that
      can raise returns a [result];
    - integer arithmetic is exact: the wrap-around of 64 bit integers and
      the rounding of the true division in [compute_pairwise] are not
      modelled, neither is reached before the pair tensors exhaust memory;
    - module level mutable state (the kernel registry) is passed explicitly;
    - what the two files import from outside ([openff.units], [NNPOps]) is a
      parameter, and the classes of [smee] they use are modelled from the
      specification. *)

From Stdlib Require Import ZArith List Reals Lra Lia Psatz String.
From stdpp Require Import base gmap strings list.

(** ** Exceptions *)

Inductive exn : Set :=
| KeyError | ValueError | IndexError | AssertionError | RuntimeError | TypeError.

Inductive result (A : Type) : Type :=
| Ok (a : A)
| Raise (e : exn).
Arguments Ok {A} a.
Arguments Raise {A} e.

#[global] Instance result_ret : MRet result := @Ok.
#[global] Instance result_bind : MBind result :=
  λ A B f m, match m with Ok a => f a | Raise e => Raise e end.

Definition raises {A} (m : result A) : Prop := ∃ e, m = Raise e.

(** ** Tensor primitives *)

Module Tensor.

Definition Rsum (l : list R) : R := foldr Rplus 0%R l.

(** [t[i]] for a Python/torch integer index. *)
Definition wrap_index (len : nat) (i : Z) : result nat :=
  if decide (0 ≤ i < Z.of_nat len)%Z then Ok (Z.to_nat i)
  else if decide (- Z.of_nat len ≤ i < 0)%Z then Ok (Z.to_nat (Z.of_nat len + i))
  else Raise IndexError.

Definition getitem {A} (t : list A) (i : Z) : result A :=
  k ← wrap_index (length t) i;
  match t !! k with Some x => Ok x | None => Raise IndexError end.

(** [m[i, j]] *)
Definition getitem2 {A} (m : list (list A)) (i j : Z) : result A :=
  row ← getitem m i; getitem row j.

(** [t[idxs]] for an index tensor. *)
Definition gather {A} (t : list A) (idxs : list Z) : result (list A) :=
  mapM (getitem t) idxs.

(** [m[idxs, col]] *)
Definition gather_col {A} (m : list (list A)) (idxs : list Z) (col : Z)
  : result (list A) :=
  mapM (λ i, getitem2 m i col) idxs.

(** [m[:, col]] *)
Definition column {A} (m : list (list A)) (col : Z) : result (list A) :=
  mapM (λ row, getitem row col) m.

(** Broadcasting of a one dimensional value tensor to [n] entries. *)
Definition broadcast_to_len {A} (vals : list A) (n : nat) : result (list A) :=
  if decide (length vals = n) then Ok vals
  else match vals with
       | [x] => Ok (replicate n x)
       | _ => Raise RuntimeError
       end.

(** [t[idxs] = vals]: every index is checked, then the writes happen in
    order, so that the last write to a position wins. *)
Definition setitem {A} (t : list A) (idxs : list Z) (vals : list A)
  : result (list A) :=
  vs ← broadcast_to_len vals (length idxs);
  ks ← mapM (wrap_index (length t)) idxs;
  Ok (foldl (λ acc kv, <[kv.1 := kv.2]> acc) t (zip ks vs)).

(** [torch.triu_indices(n, n, 1).T]: the pairs [i < j] in row-major order. *)
Definition triu_indices (n : nat) : list (Z * Z) :=
  flat_map (λ i, map (λ j, (Z.of_nat i, Z.of_nat j)) (seq (S i) (n - S i)))
           (seq 0 n).

(** [pairs.sort(dim=1)] on a tensor of shape [(n, 2)]. *)
Definition sort_dim1 (pairs : list (Z * Z)) : list (Z * Z) :=
  map (λ p, (Z.min p.1 p.2, Z.max p.1 p.2)) pairs.

(** Elementwise binary operation on one dimensional tensors, with torch's
    broadcasting of a length one operand. *)
Definition ewise (f : R → R → R) (a b : list R) : result (list R) :=
  if decide (length a = length b) then Ok (zip_with f a b)
  else match a, b with
       | [x], _ => Ok (map (f x) b)
       | _, [y] => Ok (map (λ x, f x y) a)
       | _, _ => Raise RuntimeError
       end.

Definition dot (u v : list R) : R := Rsum (zip_with Rmult u v).

Fixpoint transpose (ncols : nat) (m : list (list R)) : list (list R) :=
  match m with
  | [] => replicate ncols []
  | row :: m' => zip_with cons row (transpose ncols m')
  end.

(** [a @ b] for a matrix [a] and a matrix [b] with [ncols] columns: the
    inner dimensions have to agree. *)
Definition matmul (a b : list (list R)) (ncols : nat) : result (list (list R)) :=
  mapM (λ row,
          if decide (length row = length b)
          then Ok (map (dot row) (transpose ncols b))
          else Raise RuntimeError) a.

End Tensor.

Import Tensor.

(** ** Data model *)

(** Modelled from the spec: [smee.NonbondedParameterMap] is declared outside
    the two source files. An assignment matrix with one row per particle, the
    exclusion index pairs (local to the topology) and, per exclusion, the
    index of its scale in the attributes of the potential. *)
Module ParameterMap.
Record t := mk {
  assignment_matrix : list (list R);
  exclusions : list (Z * Z);
  exclusion_scale_idxs : list Z }.
End ParameterMap.

(** Modelled from the spec: [smee.TensorTopology] is declared outside the two
    source files. The particles of a topology are its atoms followed by its
    virtual sites ([n_particles = n_atoms + n_v_sites]); [parameters] is the
    dict from handler type to parameter map. *)
Module Topology.
Record t := mk {
  n_atoms : nat;
  n_v_sites : nat;
  parameters : gmap string ParameterMap.t }.
Definition n_particles (topology : t) : nat := n_atoms topology + n_v_sites topology.
End Topology.

(** Modelled from the spec: [smee.TensorSystem] is declared outside the two
    source files: an ordered sequence of topologies with their copy counts. *)
Module System.
Record t := mk {
  topologies : list Topology.t;
  n_copies : list nat;
  is_periodic : bool }.
Definition n_particles (system : t) : nat :=
  sum_list (zip_with (λ topology n, Topology.n_particles topology * n)
                     (topologies system) (n_copies system)).
End System.

(** Modelled from the spec: [smee.TensorPotential] is declared outside the
    two source files. [n_cols] is [parameters.shape[-1]]. *)
Module Potential.
Record t := mk {
  type : string;
  fn : string;
  parameters : list (list R);
  n_cols : nat;
  parameter_keys : list string;
  attribute_cols : list string;
  attributes : list R }.
End Potential.

(** A conformer tensor of shape [(n_particles, 3)] is a [Frame]; a batch has
    shape [(B, n_particles, 3)]. *)
Abbreviation Frame := (list (list R)).

Module Batch.
Record t := mk { n_particles : nat; frames : list Frame }.
Definition wf (b : t) : Prop := Forall (λ f, length f = n_particles b) (frames b).
End Batch.

Inductive Conformer :=
| Unbatched (frame : Frame)
| Batched (batch : Batch.t).

Inductive Energy :=
| Scalar (e : R)
| PerConformer (es : list R).

(** [torch.unsqueeze(conformer, 0)] *)
Definition unsqueeze (frame : Frame) : Batch.t :=
  Batch.mk (length frame) [frame].

(** [d[key]] on a Python dict *)
Definition dict_get `{Countable K} {V} (d : gmap K V) (key : K) : result V :=
  match d !! key with Some v => Ok v | None => Raise KeyError end.

(** [l.index(x)] on a Python list *)
Fixpoint list_index (x : string) (l : list string) : result Z :=
  match l with
  | [] => Raise ValueError
  | y :: l' => if decide (y = x) then Ok 0%Z
               else k ← list_index x l'; Ok (k + 1)%Z
  end.

(** [x in l] on a Python list *)
Definition list_contains (x : string) (l : list string) : bool :=
  bool_decide (x ∈ l).

(** [torch.vstack] and [torch.cat] of a list of tensors: the list may not be
    empty. *)
Definition vstack {A} (blocks : list (list A)) : result (list A) :=
  match blocks with
  | [] => Raise RuntimeError
  | _ => Ok (concat blocks)
  end.

(** Modelled from the spec: [smee.ValenceParameterMap] is declared outside
    the two source files: an assignment matrix with one row per interaction
    and the particle indices of each interaction. *)
Module ValenceMap.
Record t := mk {
  assignment_matrix : list (list R);
  particle_idxs : list (list Z) }.
End ValenceMap.

(** The [parameters] argument of [compute_energy_potential], a
    [smee.ParameterMap]: one of the two maps. The last branch of the
    function, [raise NotImplementedError], is for objects of another
    class. *)
Inductive AppliedParameters :=
| NonbondedParameters (parameter_map : ParameterMap.t)
| ValenceParameters (parameter_map : ValenceMap.t).

(** A registered function. A non-bonded kernel has the positional parameters
    [(conformer, parameters, exclusions, exclusion_scales)], a valence kernel
    [(conformer, particle_idxs, parameters)]; either may have a further
    parameter [attributes]. *)
Inductive EnergyFn :=
| NonbondedFn
    (f : Conformer → list (list R) → list (Z * Z) → list R → result Energy)
| NonbondedAttributesFn
    (f : Conformer → list (list R) → list (Z * Z) → list R → list R
         → result Energy)
| ValenceFn
    (f : Conformer → list (list Z) → list (list R) → result Energy)
| ValenceAttributesFn
    (f : Conformer → list (list Z) → list (list R) → list R → result Energy).

(** ** smee.utils *)

Module Utils.

(** Modelled from the spec: [smee.utils.to_upper_tri_idx] is declared outside
    the two source files; the canonical upper-triangular linear index
    [idx(i,j) = i(2N-i-1)/2 + j-i-1]. *)
Definition to_upper_tri_idx (i j : Z) (n : Z) : Z :=
  ((i * (2 * n - i - 1)) `div` 2 + j - i - 1)%Z.

(** Modelled from the spec: [smee.utils.ones_like] is declared outside the
    two source files; [n] entries, all one. *)
Definition ones_like (n : nat) : list R := replicate n 1%R.

End Utils.

(** ** smee.potentials._potentials *)

Module Potentials.

(** The registry [_POTENTIAL_ENERGY_FUNCTIONS], threaded explicitly.
    [potential_energy_fn handler_type energy_expression func registry] is the
    effect of decorating [func]: the value returned (or the exception) and
    the registry afterwards. *)
Definition potential_energy_fn {F} (handler_type energy_expression : string)
    (func : F) (registry : gmap (string * string) F)
  : result F * gmap (string * string) F :=
  if decide (is_Some (registry !! (handler_type, energy_expression)))
  then (Raise KeyError, registry)
  else (Ok func, <[(handler_type, energy_expression) := func]> registry).

(** [_POTENTIAL_ENERGY_FUNCTIONS[(potential.type, potential.fn)]] in
    [compute_energy_potential]. *)
Definition lookup_energy_fn {F} (registry : gmap (string * string) F)
    (potential : Potential.t) : result F :=
  dict_get registry (Potential.type potential, Potential.fn potential).

(** [torch.broadcast_to(m[None, :, :], (n_copies, n_rows, n_cols))
      .reshape(-1, n_cols)] *)
Definition broadcast_block (m : list (list R)) (n_copies n_rows n_cols : nat)
  : result (list (list R)) :=
  rows ← broadcast_to_len m n_rows;
  if decide (n_cols = 0) then Raise RuntimeError
  else Ok (concat (replicate n_copies rows)).

Definition broadcast_parameters (system : System.t) (potential : Potential.t)
  : result (list (list R)) :=
  blocks ← mapM (λ '(topology, n_copies),
      parameter_map ← dict_get (Topology.parameters topology)
                               (Potential.type potential);
      values ← matmul (ParameterMap.assignment_matrix parameter_map)
                      (Potential.parameters potential)
                      (Potential.n_cols potential);
      broadcast_block values n_copies (Topology.n_atoms topology)
                      (Potential.n_cols potential))
    (zip (System.topologies system) (System.n_copies system));
  vstack blocks.

(** [parameters.assignment_matrix] *)
Definition applied_assignment_matrix (parameters : AppliedParameters)
  : list (list R) :=
  match parameters with
  | NonbondedParameters parameter_map =>
      ParameterMap.assignment_matrix parameter_map
  | ValenceParameters parameter_map =>
      ValenceMap.assignment_matrix parameter_map
  end.

(** [energy_fn(conformer, parameter_values, exclusions, exclusion_scales,
    **energy_fn_kwargs)], where the keyword [attributes] is passed exactly
    when the function has a parameter of that name. A function whose
    positional parameters do not fit raises [TypeError]. *)
Definition call_nonbonded (energy_fn : EnergyFn) (attributes : list R)
    (conformer : Conformer) (parameter_values : list (list R))
    (exclusions : list (Z * Z)) (exclusion_scales : list R) : result Energy :=
  match energy_fn with
  | NonbondedFn f => f conformer parameter_values exclusions exclusion_scales
  | NonbondedAttributesFn f =>
      f conformer parameter_values exclusions exclusion_scales attributes
  | ValenceFn _ | ValenceAttributesFn _ => Raise TypeError
  end.

(** [energy_fn(conformer, particle_idxs, parameter_values,
    **energy_fn_kwargs)] *)
Definition call_valence (energy_fn : EnergyFn) (attributes : list R)
    (conformer : Conformer) (particle_idxs : list (list Z))
    (parameter_values : list (list R)) : result Energy :=
  match energy_fn with
  | ValenceFn f => f conformer particle_idxs parameter_values
  | ValenceAttributesFn f =>
      f conformer particle_idxs parameter_values attributes
  | NonbondedFn _ | NonbondedAttributesFn _ => Raise TypeError
  end.

(** The registry is the one left by the imports of
    [smee.potentials.nonbonded] and [smee.potentials.valence]. *)
Definition compute_energy_potential (registry : gmap (string * string) EnergyFn)
    (parameters : AppliedParameters) (conformer : Conformer)
    (potential : Potential.t) : result Energy :=
  let conformer :=
    match conformer with
    | Unbatched frame => Batched (unsqueeze frame)
    | Batched batch => Batched batch
    end in
  parameter_values ← matmul (applied_assignment_matrix parameters)
                            (Potential.parameters potential)
                            (Potential.n_cols potential);
  energy_fn ← lookup_energy_fn registry potential;
  match parameters with
  | NonbondedParameters parameter_map =>
      exclusion_scales ←
        gather (Potential.attributes potential)
               (ParameterMap.exclusion_scale_idxs parameter_map);
      call_nonbonded energy_fn (Potential.attributes potential) conformer
        parameter_values (ParameterMap.exclusions parameter_map)
        exclusion_scales
  | ValenceParameters parameter_map =>
      call_valence energy_fn (Potential.attributes potential) conformer
        (ValenceMap.particle_idxs parameter_map) parameter_values
  end.

(** [energy += e] on a tensor of shape [(B,)]: the added tensor is broadcast
    to that shape. *)
Definition iadd (energy : list R) (e : Energy) : result (list R) :=
  match e with
  | Scalar x => Ok (map (λ a, a + x)%R energy)
  | PerConformer es =>
      if decide (length es = length energy) then Ok (zip_with Rplus energy es)
      else match es with
           | [x] => Ok (map (λ a, a + x)%R energy)
           | _ => Raise RuntimeError
           end
  end.

Fixpoint compute_energy_loop (registry : gmap (string * string) EnergyFn)
    (parameters : gmap string AppliedParameters) (conformer : Batch.t)
    (energy : list R) (potentials : list Potential.t) : result (list R) :=
  match potentials with
  | [] => Ok energy
  | potential :: potentials' =>
      parameter_map ← dict_get parameters (Potential.type potential);
      e ← compute_energy_potential registry parameter_map (Batched conformer)
            potential;
      energy ← iadd energy e;
      compute_energy_loop registry parameters conformer energy potentials'
  end.

(** Modelled from the spec: [smee.TensorForceField] is declared outside the
    two source files; [force_field] is its ordered list [potentials]. *)
Definition compute_energy (registry : gmap (string * string) EnergyFn)
    (parameters : gmap string AppliedParameters) (conformer : Conformer)
    (force_field : list Potential.t) : result (list R) :=
  let conformer :=
    match conformer with
    | Unbatched frame => unsqueeze frame
    | Batched batch => batch
    end in
  let energy := replicate (length (Batch.frames conformer)) 0%R in
  compute_energy_loop registry parameters conformer energy force_field.

End Potentials.

(** ** smee.potentials.nonbonded *)

Module Nonbonded.

Import Potentials.

Definition _PME_MIN_NODES : Z := 6.
Definition _PME_ORDER : Z := 5.
Definition _COULOMB_POTENTIAL : string := "coul".
Definition _LJ_POTENTIAL : string := "4*epsilon*((sigma/r)**12-(sigma/r)**6)".

(** The combination rules, elementwise on the tensors of the pairs. *)
Definition lorentz_berthelot (epsilon_a epsilon_b sigma_a sigma_b : list R)
  : list R * list R :=
  (map sqrt (zip_with Rmult epsilon_a epsilon_b),
   map (Rmult 0.5) (zip_with Rplus sigma_a sigma_b)).

Fixpoint broadcast_exclusions_loop (potential : Potential.t) (idx_offset : Z)
    (items : list (Topology.t * nat))
  : result (list (list (Z * Z)) * list (list R)) :=
  match items with
  | [] => Ok ([], [])
  | (topology, n_copies) :: items' =>
      let n_particles := Z.of_nat (Topology.n_particles topology) in
      let exclusion_offset :=
        map (λ c, idx_offset + Z.of_nat c * n_particles)%Z (seq 0 n_copies) in
      parameter_map ← dict_get (Topology.parameters topology)
                               (Potential.type potential);
      let exclusion_idxs :=
        map (λ offset,
               map (λ p, (offset + p.1, offset + p.2)%Z)
                   (ParameterMap.exclusions parameter_map))
            exclusion_offset in
      exclusion_scales ← gather (Potential.attributes potential)
                                (ParameterMap.exclusion_scale_idxs parameter_map);
      let exclusion_scales := replicate n_copies exclusion_scales in
      rest ← broadcast_exclusions_loop potential
               (idx_offset + Z.of_nat n_copies * n_particles)%Z items';
      Ok (concat exclusion_idxs :: rest.1, concat exclusion_scales :: rest.2)
  end.

Definition broadcast_exclusions (system : System.t) (potential : Potential.t)
  : result (list (Z * Z) * list R) :=
  per_topology ← broadcast_exclusions_loop potential 0
                   (zip (System.topologies system) (System.n_copies system));
  exclusion_idxs ← vstack per_topology.1;
  exclusion_scales ← vstack per_topology.2;
  Ok (exclusion_idxs, exclusion_scales).

Definition _compute_pair_scales (system : System.t) (potential : Potential.t)
  : result (list R) :=
  let n_particles := System.n_particles system in
  let n_pairs := (n_particles * (n_particles - 1)) `div` 2 in
  '(exclusion_idxs, exclusion_scales) ← broadcast_exclusions system potential;
  let pair_scales := Utils.ones_like n_pairs in
  if decide (0 < length exclusion_idxs) then
    let exclusion_idxs := sort_dim1 exclusion_idxs in
    let pair_idxs :=
      map (λ p, Utils.to_upper_tri_idx p.1 p.2 (Z.of_nat n_particles))
          exclusion_idxs in
    setitem pair_scales pair_idxs exclusion_scales
  else Ok pair_scales.

(** The squared distance of one pair in one frame:
    [directions = conformer[:, j, :] - conformer[:, i, :]] and
    [(directions * directions).sum(dim=-1)]. *)
Definition pair_distance_sqr (frame : Frame) (pair : Z * Z) : result R :=
  x_i ← getitem frame pair.1;
  x_j ← getitem frame pair.2;
  let directions := zip_with Rminus x_j x_i in
  Ok (Rsum (zip_with Rmult directions directions)).

(** The linear index of an exclusion in [compute_pairwise]: a true division
    followed by [.long()], which truncates. *)
Definition exclusion_1d (n_particles : Z) (p : Z * Z) : Z :=
  let '(i, j) := p in
  ((i * (2 * n_particles - i - 1)) `quot` 2 + j - i - 1)%Z.

Definition compute_pairwise (conformer : Batch.t) (exclusions : list (Z * Z))
    (exclusion_scales : list R)
  : result (list (Z * Z) * list (list R) * list R) :=
  let n_particles := Batch.n_particles conformer in
  let pair_idxs := triu_indices n_particles in
  let pair_scales := Utils.ones_like (length pair_idxs) in
  pair_scales ←
    (if decide (0 < length exclusions) then
       let exclusions := sort_dim1 exclusions in
       let exclusions_1d := map (exclusion_1d (Z.of_nat n_particles)) exclusions in
       setitem pair_scales exclusions_1d exclusion_scales
     else Ok pair_scales);
  distances_sqr ← mapM (λ frame, mapM (pair_distance_sqr frame) pair_idxs)
                       (Batch.frames conformer);
  Ok (pair_idxs, distances_sqr, pair_scales).

(** [torch.squeeze(energy, 0)] when the conformer was not batched. *)
Definition as_batch (conformer : Conformer) : Batch.t :=
  match conformer with
  | Unbatched frame => unsqueeze frame
  | Batched batch => batch
  end.

Definition squeeze_energy (conformer : Conformer) (energy : list R) : Energy :=
  match conformer, energy with
  | Unbatched _, [e] => Scalar e
  | _, _ => PerConformer energy
  end.

(** One entry of [pair_scales * 4.0 * epsilon * (x * (x - 1.0))] with
    [x = sigma**6 / distances_sqr**3]. *)
Definition lj_term (pair_scale epsilon sigma distance_sqr : R) : R :=
  let x := (sigma ^ 6 / distance_sqr ^ 3)%R in
  (pair_scale * 4.0 * epsilon * (x * (x - 1.0)))%R.

Definition zip_with4 {A B C D E} (f : A → B → C → D → E)
    (a : list A) (b : list B) (c : list C) (d : list D) : list E :=
  zip_with (λ ab cd, f ab.1 ab.2 cd.1 cd.2) (zip a b) (zip c d).

Definition compute_lj_energy (conformer : Conformer) (parameters : list (list R))
    (exclusions : list (Z * Z)) (exclusion_scales : list R) : result Energy :=
  let batch := as_batch conformer in
  '(pair_idxs, distances_sqr, pair_scales) ←
     compute_pairwise batch exclusions exclusion_scales;
  epsilon_a ← gather_col parameters pair_idxs.*1 0;
  epsilon_b ← gather_col parameters pair_idxs.*2 0;
  sigma_a ← gather_col parameters pair_idxs.*1 1;
  sigma_b ← gather_col parameters pair_idxs.*2 1;
  let '(epsilon, sigma) := lorentz_berthelot epsilon_a epsilon_b sigma_a sigma_b in
  let energy :=
    map (λ d2, Rsum (zip_with4 lj_term pair_scales epsilon sigma d2))
        distances_sqr in
  Ok (squeeze_energy conformer energy).

(** *** The exclusion table of the PME functions *)

(** [lists[i].append(j)] on a Python list of lists. *)
Definition append_at (lists : list (list Z)) (i j : Z) : result (list (list Z)) :=
  k ← wrap_index (length lists) i;
  match lists !! k with
  | Some l => Ok (<[k := l ++ [j]]> lists)
  | None => Raise IndexError
  end.

(** [len(lists[i])] *)
Definition len_at (lists : list (list Z)) (i : Z) : result nat :=
  l ← getitem lists i; Ok (length l).

(** The inner loop of the first pass over one topology. *)
Fixpoint pme_template_loop (exclusions : list (list Z)) (max_exclusions : nat)
    (pairs : list (Z * Z)) : result (list (list Z) * nat) :=
  match pairs with
  | [] => Ok (exclusions, max_exclusions)
  | (i, j) :: pairs' =>
      exclusions ← append_at exclusions i j;
      exclusions ← append_at exclusions j i;
      len_i ← len_at exclusions i;
      let max_exclusions := Nat.max len_i max_exclusions in
      len_j ← len_at exclusions j;
      let max_exclusions := Nat.max len_j max_exclusions in
      pme_template_loop exclusions max_exclusions pairs'
  end.

(** The first pass: the template of each topology, one list per particle,
    and the running [max_exclusions]. *)
Fixpoint pme_templates (potential : Potential.t) (max_exclusions : nat)
    (items : list (Topology.t * nat))
  : result (list (list (list Z)) * nat) :=
  match items with
  | [] => Ok ([], max_exclusions)
  | (topology, n_copies) :: items' =>
      let exclusions := replicate (Topology.n_particles topology) [] in
      parameter_map ← dict_get (Topology.parameters topology)
                               (Potential.type potential);
      filled ← pme_template_loop exclusions max_exclusions
                 (ParameterMap.exclusions parameter_map);
      rest ← pme_templates potential filled.2 items';
      Ok (filled.1 :: rest.1, rest.2)
  end.

(** The second pass. [torch.tensor] of an empty list has shape [(0,)], which
    broadcasts to [max_exclusions] columns only when there are none, and
    [reshape(-1, 0)] raises. *)
Fixpoint pme_blocks (max_exclusions : nat) (idx_offset : Z)
    (items : list (list (list Z) * (Topology.t * nat)))
  : result (list (list (list Z))) :=
  match items with
  | [] => Ok []
  | (exclusions, (topology, n_copies)) :: items' =>
      let n_particles := Z.of_nat (Topology.n_particles topology) in
      let exclusions :=
        map (λ atom_exclusions,
               atom_exclusions
               ++ replicate (max_exclusions - length atom_exclusions) (-1)%Z)
            exclusions in
      let exclusion_offset :=
        map (λ c, idx_offset + Z.of_nat c * n_particles)%Z (seq 0 n_copies) in
      tensor ← (if decide (length exclusions = 0 ∧ max_exclusions ≠ 0)
                then Raise RuntimeError else Ok exclusions);
      let exclusions :=
        map (λ offset,
               map (map (λ e, if decide (0 ≤ e)%Z then (e + offset)%Z else e))
                   tensor)
            exclusion_offset in
      block ← (if decide (max_exclusions = 0) then Raise RuntimeError
               else Ok (concat exclusions));
      rest ← pme_blocks max_exclusions
               (idx_offset + Z.of_nat n_copies * n_particles)%Z items';
      Ok (block :: rest)
  end.

Definition _compute_pme_exclusions (system : System.t) (potential : Potential.t)
  : result (list (list Z)) :=
  let items := zip (System.topologies system) (System.n_copies system) in
  templates ← pme_templates potential 0 items;
  exclusions_per_type ← pme_blocks templates.2 0 (zip templates.1 items);
  vstack exclusions_per_type.

(** *** The long range dispersion correction *)

Local Open Scope R_scope.

Definition _compute_dispersion_integral (r rs rc sigma : R) : R :=
  let A := 1 / (rc - rs) in
  let A2 := A * A in
  let A3 := A2 * A in
  let sig2 := sigma * sigma in
  let sig6 := sig2 * sig2 * sig2 in
  let rs2 := rs * rs in
  let rs3 := rs * rs2 in
  let r2 := r * r in
  let r3 := r * r2 in
  let r4 := r * r3 in
  let r5 := r * r4 in
  let r6 := r * r5 in
  let r9 := r3 * r6 in
  sig6 * A3 * ((
      sig6 * (
        rs3 * 28 * (6 * rs2 * A2 + 15 * rs * A + 10)
        - r * rs2 * 945 * (rs2 * A2 + 2 * rs * A + 1)
        + r2 * rs * 1080 * (2 * rs2 * A2 + 3 * rs * A + 1)
        - r3 * 420 * (6 * rs2 * A2 + 6 * rs * A + 1)
        + r4 * 756 * (2 * rs * A2 + A)
        - r5 * 378 * A2)
      - r6 * (
        rs3 * 84 * (6 * rs2 * A2 + 15 * rs * A + 10)
        - r * rs2 * 3780 * (rs2 * A2 + 2 * rs * A + 1)
        + r2 * rs * 7560 * (2 * rs2 * A2 + 3 * rs * A + 1)))
      / (252 * r9)
      - ln r * 10 * (6 * rs2 * A2 + 6 * rs * A + 1)
      + r * 15 * (2 * rs * A2 + A)
      - r2 * 3 * A2).

Definition _compute_dispersion_term (count epsilon sigma : list R)
    (cutoff switch_width : option R) : result (list R) :=
  let sigma6 := map (λ s, s ^ 6) sigma in
  let terms := [zip_with Rmult sigma6 sigma6; sigma6] in
  terms ←
    match switch_width with
    | Some switch_width =>
        match cutoff with
        | Some cutoff =>
            Ok (terms ++
                [map (λ s,
                        _compute_dispersion_integral cutoff switch_width cutoff s
                        - _compute_dispersion_integral switch_width switch_width
                            cutoff s) sigma])
        | None => Raise AssertionError
        end
    | None => Ok terms
    end;
  weights ← ewise Rmult count epsilon;
  rows ← mapM (ewise Rmult weights) terms;
  Ok (map Rsum rows).

(** [assignment_matrix.abs().sum(dim=0)] *)
Fixpoint abs_sum_dim0 (m : list (list R)) : list R :=
  match m with
  | [] => []
  | [row] => map Rabs row
  | row :: m' => zip_with Rplus (map Rabs row) (abs_sum_dim0 m')
  end.

(** [n_by_type[key] += count.item() * n_copies] for the zipped keys and
    counts; a missing key of the [defaultdict(int)] reads as zero. *)
Definition add_counts (n_copies : nat) (n_by_type : gmap string R)
    (items : list (string * R)) : gmap string R :=
  foldl (λ acc kc, <[kc.1 := default 0 (acc !! kc.1) + kc.2 * INR n_copies]> acc)
        n_by_type items.

Fixpoint count_by_type (potential : Potential.t) (n_by_type : gmap string R)
    (items : list (Topology.t * nat)) : result (gmap string R) :=
  match items with
  | [] => Ok n_by_type
  | (topology, n_copies) :: items' =>
      parameter_map ← dict_get (Topology.parameters topology) "vdW"%string;
      let parameter_counts :=
        abs_sum_dim0 (ParameterMap.assignment_matrix parameter_map) in
      count_by_type potential
        (add_counts n_copies n_by_type
           (zip (Potential.parameter_keys potential) parameter_counts))
        items'
  end.

(** [parameters[:, col]] of the parameter table of a potential. *)
Definition parameter_column (potential : Potential.t) (col : Z) : result (list R) :=
  _ ← wrap_index (Potential.n_cols potential) col;
  column (Potential.parameters potential) col.

Definition _compute_dispersion_correction (system : System.t)
    (potential : Potential.t) (cutoff switch_width : option R) (volume : R)
  : result R :=
  n_by_type ← count_by_type potential ∅
                (zip (System.topologies system) (System.n_copies system));
  let counts :=
    map (λ key, default 0 (n_by_type !! key)) (Potential.parameter_keys potential) in
  let n_ii_interactions := map (λ c, c * (c + 1.0) / 2.0) counts in
  eps_ii ← parameter_column potential 0;
  sig_ii ← parameter_column potential 1;
  terms ← _compute_dispersion_term n_ii_interactions eps_ii sig_ii
            cutoff switch_width;
  let idx := triu_indices (length counts) in
  let idx_i := idx.*1 in
  let idx_j := idx.*2 in
  counts_i ← gather counts idx_i;
  counts_j ← gather counts idx_j;
  n_ij_interactions ← ewise Rmult counts_i counts_j;
  eps_a ← gather eps_ii idx_i;
  eps_b ← gather eps_ii idx_j;
  sig_a ← gather sig_ii idx_i;
  sig_b ← gather sig_ii idx_j;
  let '(eps_ij, sig_ij) := lorentz_berthelot eps_a eps_b sig_a sig_b in
  terms_ij ← _compute_dispersion_term n_ij_interactions eps_ij sig_ij
               cutoff switch_width;
  let terms := zip_with Rplus terms terms_ij in
  let n_particles := INR (System.n_particles system) in
  let n_interactions := (n_particles * (n_particles + 1)) / 2 in
  let terms := map (λ t, t / n_interactions) terms in
  terms_0 ← getitem terms 0;
  cutoff ← match cutoff with Some c => Ok c | None => Raise TypeError end;
  terms_1 ← getitem terms 1;
  terms_2 ← getitem terms 2;
  Ok (8.0 * n_particles ^ 2 * PI
      * (terms_0 / (9 * cutoff ^ 9) - terms_1 / (3 * cutoff ^ 3) + terms_2)
      / volume).

(** *** The periodic Lennard-Jones path *)

(** One slot of the output of [NNPOps.neighbors.getNeighborPairs]: the pair,
    the displacement and the distance, [None] standing for the NaN of a
    padding slot. *)
Record NeighborSlot := mkSlot {
  slot_pair : Z * Z;
  slot_delta : list R;
  slot_distance : option R }.

(** [torch.det] of the box vectors, of shape [(3, 3)]. *)
Definition det (m : list (list R)) : result R :=
  match m with
  | [[a; b; c]; [d; e; f]; [g; h; i]] =>
      Ok (a * (e * i - f * h) - b * (d * i - f * g) + c * (d * h - e * g))
  | _ => Raise RuntimeError
  end.

(** The switching function as the source computes it, for one distance. *)
Definition switch_value (switch_width cutoff distance : R) : R :=
  let x_switch := (distance - switch_width) / (cutoff - switch_width) in
  let switch_fn := 1.0 - 6.0 * x_switch ^ 5 + 15.0 * x_switch ^ 4
                   - 10.0 * x_switch ^ 3 in
  let switch_fn := if Rlt_dec distance switch_width then 1.0 else switch_fn in
  if Rgt_dec distance cutoff then 0.0 else switch_fn.

(** One entry of
    [switch_fn * pair_scales * 4.0 * epsilon * (x * (x - 1.0))] with
    [x = (sigma / distances) ** 6]. *)
Definition lj_periodic_term (switch_fn pair_scale epsilon sigma distance : R) : R :=
  let x := (sigma / distance) ^ 6 in
  switch_fn * pair_scale * 4.0 * epsilon * (x * (x - 1.0)).

Section External.

(** The Coulomb constant in kcal/mol Å/e², computed by [openff.units]. *)
Variable _COULOMB_PRE_FACTOR : R.

(** [NNPOps.neighbors.getNeighborPairs(conformer, cutoff, -1, box_vectors)] *)
Variable getNeighborPairs : Frame → R → list (list R) → list NeighborSlot.

Definition _compute_pairwise (conformer : Frame) (box_vectors : list (list R))
    (cutoff : R) : list (Z * Z) * list (list R) * list R :=
  let slots := getNeighborPairs conformer cutoff box_vectors in
  let are_interacting := filter (λ s, is_Some (slot_distance s)) slots in
  (sort_dim1 (map slot_pair are_interacting),
   map slot_delta are_interacting,
   omap slot_distance are_interacting).

(** Lines 321 to 363 of [_compute_lj_energy_periodic]: the pairwise sum,
    returned with the values the last step uses
    ([energy], [switch_width], [cutoff], [volume]). *)
Definition _compute_lj_energy_periodic_pairs (system : System.t)
    (conformer : Frame) (box_vectors : list (list R)) (potential : Potential.t)
  : result (R * option R * R * R) :=
  _ ← (if System.is_periodic system then Ok () else Raise AssertionError);
  volume ← det box_vectors;
  parameters ← broadcast_parameters system potential;
  pair_scales ← _compute_pair_scales system potential;
  cutoff_idx ← list_index "cutoff" (Potential.attribute_cols potential);
  cutoff ← getitem (Potential.attributes potential) cutoff_idx;
  let '(pairs, _, distances) := _compute_pairwise conformer box_vectors cutoff in
  let pair_idxs :=
    map (λ p, Utils.to_upper_tri_idx p.1 p.2 (Z.of_nat (length parameters)))
        pairs in
  pair_scales ← gather pair_scales pair_idxs;
  epsilon_a ← gather_col parameters pairs.*1 0;
  epsilon_b ← gather_col parameters pairs.*2 0;
  sigma_a ← gather_col parameters pairs.*1 1;
  sigma_b ← gather_col parameters pairs.*2 1;
  let '(epsilon, sigma) := lorentz_berthelot epsilon_a epsilon_b sigma_a sigma_b in
  let use_switch_fn :=
    list_contains "switch_width" (Potential.attribute_cols potential) in
  switch_width ←
    (if use_switch_fn then
       switch_width_idx ← list_index "switch_width"
                            (Potential.attribute_cols potential);
       width ← getitem (Potential.attributes potential) switch_width_idx;
       Ok (Some (cutoff - width))
     else Ok None);
  let switch_fn :=
    match switch_width with
    | Some switch_width => map (switch_value switch_width cutoff) distances
    | None => map (λ _, 1.0) distances
    end in
  let energy :=
    Rsum (zip_with (λ sw t, lj_periodic_term sw t.1.1 t.1.2 t.2.1 t.2.2)
            switch_fn (zip (zip pair_scales epsilon) (zip sigma distances))) in
  Ok (energy, switch_width, cutoff, volume).

(** The call on lines 364 to 366 passes [switch_width] where
    [_compute_dispersion_correction] expects [cutoff], and [cutoff] where it
    expects [switch_width]. *)
Definition _compute_lj_energy_periodic (system : System.t)
    (conformer : Frame) (box_vectors : list (list R)) (potential : Potential.t)
  : result R :=
  '(energy, switch_width, cutoff, volume) ←
     _compute_lj_energy_periodic_pairs system conformer box_vectors potential;
  correction ← _compute_dispersion_correction system potential
                  switch_width (Some cutoff) volume;
  Ok (energy + correction).

(** *** The direct Coulomb kernel *)

Definition coulomb_term (pair_scale q_a q_b inverse_distance : R) : R :=
  _COULOMB_PRE_FACTOR * pair_scale * q_a * q_b * inverse_distance.

(** [torch.rsqrt] *)
Definition rsqrt (x : R) : R := 1 / sqrt x.

Definition compute_coulomb_energy (conformer : Conformer)
    (parameters : list (list R)) (exclusions : list (Z * Z))
    (exclusion_scales : list R) : result Energy :=
  let batch := as_batch conformer in
  '(pair_idxs, distances_sqr, pair_scales) ←
     compute_pairwise batch exclusions exclusion_scales;
  let inverse_distances := map (map rsqrt) distances_sqr in
  q_a ← gather_col parameters pair_idxs.*1 0;
  q_b ← gather_col parameters pair_idxs.*2 0;
  let energy :=
    map (λ inv, Rsum (zip_with4 coulomb_term pair_scales q_a q_b inv))
        inverse_distances in
  Ok (squeeze_energy conformer energy).

(** *** The PME grid *)

(** [torch.ceil], as an integer. *)
Definition ceil (x : R) : Z := (- Int_part (- x))%Z.

Definition _compute_pme_grid (box_vectors : list (list R))
    (cutoff error_tolerance : R) : result (Z * Z * Z * R) :=
  let alpha := sqrt (- ln (2.0 * error_tolerance)) / cutoff in
  let factor := 2.0 * alpha / (3 * Rpower error_tolerance (1.0 / 5.0)) in
  box_x ← getitem2 box_vectors 0 0;
  let grid_x := Z.max (ceil (factor * box_x)) _PME_MIN_NODES in
  box_y ← getitem2 box_vectors 1 1;
  let grid_y := Z.max (ceil (factor * box_y)) _PME_MIN_NODES in
  box_z ← getitem2 box_vectors 2 2;
  let grid_z := Z.max (ceil (factor * box_z)) _PME_MIN_NODES in
  Ok (grid_x, grid_y, grid_z, alpha).

(** The arguments of [NNPOps.pme.PME] other than the exclusion table. *)
Record PMEArgs := mkPME {
  gridx : Z; gridy : Z; gridz : Z; order : Z; alpha : R; coulomb : R }.

(** The part of [_compute_coulomb_energy_periodic] (lines 561 to 571) that
    fixes the tolerance and builds the arguments of the PME object. *)
Definition _compute_coulomb_energy_periodic_pme (box_vectors : list (list R))
    (potential : Potential.t) : result PMEArgs :=
  cutoff_idx ← list_index "cutoff" (Potential.attribute_cols potential);
  cutoff ← getitem (Potential.attributes potential) cutoff_idx;
  let error_tol := 0.0001 in
  '(grid_x, grid_y, grid_z, alpha) ←
     _compute_pme_grid box_vectors cutoff error_tol;
  Ok (mkPME grid_x grid_y grid_z _PME_ORDER alpha _COULOMB_PRE_FACTOR).

(** [parameters.squeeze(-1)] on a tensor of shape [(n, n_cols)]: the last
    dimension is removed when its size is one, and kept otherwise. *)
Inductive Charges :=
| ChargeVector (charges : list R)
| ChargeMatrix (charges : list (list R)).

Definition squeeze_last (n_cols : nat) (parameters : list (list R)) : Charges :=
  if decide (n_cols = 1%nat) then ChargeVector (concat parameters)
  else ChargeMatrix parameters.

(** Lines 555 to 567 of [_compute_coulomb_energy_periodic]: the values that
    are computed before the PME object is built and the operators of
    [NNPOps] are called (the charges, the cutoff, the neighbour list, the
    exclusion table and the grid). *)
Definition _compute_coulomb_energy_periodic_inputs (system : System.t)
    (conformer : Frame) (box_vectors : list (list R)) (potential : Potential.t)
  : result (Charges * R * (list (Z * Z) * list (list R) * list R)
            * list (list Z) * (Z * Z * Z * R)) :=
  _ ← (if System.is_periodic system then Ok () else Raise AssertionError);
  parameters ← broadcast_parameters system potential;
  let charges := squeeze_last (Potential.n_cols potential) parameters in
  cutoff_idx ← list_index "cutoff" (Potential.attribute_cols potential);
  cutoff ← getitem (Potential.attributes potential) cutoff_idx;
  let error_tol := 0.0001 in
  let neighbours := _compute_pairwise conformer box_vectors cutoff in
  exceptions ← _compute_pme_exclusions system potential;
  grid ← _compute_pme_grid box_vectors cutoff error_tol;
  Ok (charges, cutoff, neighbours, exceptions, grid).

End External.

End Nonbonded.

(** * Specification level definitions

    The quantities the properties below are stated with, and the inputs of
    the worked examples. *)

Import Tensor Potentials Nonbonded.

Definition triu_row (n i : nat) : list (Z * Z) :=
  map (λ j, (Z.of_nat i, Z.of_nat j)) (seq (S i) (n - S i)).

(** The scale stored for the unordered pair [{i, j}]: the last exclusion
    entry that names the pair decides, and a pair that no entry names has
    scale one. *)
Definition stored_scale (exclusions : list (Z * Z)) (scales : list R)
    (i j : Z) : R :=
  foldl (λ acc es, if decide (es.1 = (i, j) ∨ es.1 = (j, i)) then es.2 else acc)
        1%R (zip exclusions scales).

(** Exclusions that name two distinct particles of an [n] particle system. *)
Definition wf_exclusions (n : nat) (exclusions : list (Z * Z)) : Prop :=
  Forall (λ p, (0 ≤ p.1 < Z.of_nat n)%Z ∧ (0 ≤ p.2 < Z.of_nat n)%Z ∧ p.1 ≠ p.2)
         exclusions.

(** The coordinates of particle [i], and the squared distance of a pair. *)
Definition position (frame : Frame) (i : Z) : list R :=
  default [] (frame !! Z.to_nat i).

Definition distance_sqr (frame : Frame) (i j : Z) : R :=
  let d := zip_with Rminus (position frame j) (position frame i) in
  Rsum (zip_with Rmult d d).

(** The sum of [f i j] over the pairs [0 <= i < j < n]. *)
Definition sum_over_pairs (n : nat) (f : Z → Z → R) : R :=
  Rsum (map (λ i, Rsum (map (λ j, f (Z.of_nat i) (Z.of_nat j))
                            (seq (S i) (n - S i))))
            (seq 0 n)).

(** Entry [(i, col)] of a per-particle parameter tensor. *)
Definition parameter (parameters : list (list R)) (i : Z) (col : nat) : R :=
  nth col (nth (Z.to_nat i) parameters []) 0%R.

(** A parameter tensor with one row per particle and at least [cols]
    columns. *)
Definition wf_parameters (n cols : nat) (parameters : list (list R)) : Prop :=
  length parameters = n ∧ Forall (λ row, cols ≤ length row) parameters.

(** The Coulomb energy of the pair [(i, j)] at full strength. *)
Definition coulomb_pair_energy (k_e : R) (parameters : list (list R))
    (frame : Frame) (i j : Z) : R :=
  (k_e * parameter parameters i 0 * parameter parameters j 0
   / sqrt (distance_sqr frame i j))%R.

(** The Lennard-Jones energy of the pair [(i, j)] at full strength, with the
    Lorentz-Berthelot parameters of the pair. *)
Definition lj_pair_energy (parameters : list (list R)) (frame : Frame)
    (i j : Z) : R :=
  let epsilon := sqrt (parameter parameters i 0 * parameter parameters j 0) in
  let sigma := (0.5 * (parameter parameters i 1 + parameter parameters j 1))%R in
  let x := (sigma ^ 6 / distance_sqr frame i j ^ 3)%R in
  (4 * epsilon * (x * (x - 1)))%R.

(** The conformer tensors the kernels accept: any frame, or a batch whose
    frames all have the particle count of the batch. *)
Definition wf_conformer (conformer : Conformer) : Prop :=
  match conformer with Unbatched _ => True | Batched b => Batch.wf b end.

(** An exclusion entry names the unordered pair [{i, j}]. *)
Definition names_pair (p : Z * Z) (i j : Z) : Prop := p = (i, j) ∨ p = (j, i).


(** The matrix product of an assignment matrix and a parameter table with
    [n_cols] columns. *)
Definition matmul_rows (a b : list (list R)) (n_cols : nat) : list (list R) :=
  map (λ row, map (dot row) (transpose n_cols b)) a.

(** The assignment matrix of a topology for the handler of a potential. *)
Definition assignment_of (potential : Potential.t) (topology : Topology.t)
  : list (list R) :=
  match Topology.parameters topology !! Potential.type potential with
  | Some parameter_map => ParameterMap.assignment_matrix parameter_map
  | None => []
  end.

(** A topology whose assignment matrix for the potential has one row per
    atom and one column per parameter row. *)
Definition assigned (potential : Potential.t) (topology : Topology.t) : Prop :=
  is_Some (Topology.parameters topology !! Potential.type potential)
  ∧ length (assignment_of potential topology) = Topology.n_atoms topology
  ∧ Forall (λ row, length row = length (Potential.parameters potential))
           (assignment_of potential topology).

(** A four site water: three atoms and one virtual site, which carries the
    charge of the oxygen. *)
Definition water_charges : Potential.t :=
  Potential.mk "Electrostatics" "coul" [[0]; [0.52]; [-1.04]]%R 1
    ["O"; "H"; "M"]%string ["scale_12"; "scale_13"; "cutoff"]%string
    [0; 0; 9]%R.

Definition four_site_water : Topology.t :=
  Topology.mk 3 1
    {[ "Electrostatics"%string :=
         ParameterMap.mk
           [[1; 0; 0]; [0; 1; 0]; [0; 1; 0]; [0; 0; 1]]%R
           [(0, 1); (0, 2); (1, 2); (0, 3); (1, 3); (2, 3)]%Z
           [0; 0; 1; 0; 1; 1]%Z ]}.

Definition exclusions_of (potential : Potential.t) (topology : Topology.t)
  : list (Z * Z) :=
  match Topology.parameters topology !! Potential.type potential with
  | Some parameter_map => ParameterMap.exclusions parameter_map
  | None => []
  end.

Definition exclusion_scale_idxs_of (potential : Potential.t)
    (topology : Topology.t) : list Z :=
  match Topology.parameters topology !! Potential.type potential with
  | Some parameter_map => ParameterMap.exclusion_scale_idxs parameter_map
  | None => []
  end.

(** The number of particles in all copies of the topologies before the
    [t]-th. *)
Definition particles_before (items : list (Topology.t * nat)) (t : nat) : Z :=
  Z.of_nat (sum_list (map (λ item, item.2 * Topology.n_particles item.1)
                          (take t items))).

(** The exclusions of copy [c] of a topology whose first copy starts at
    particle [base]. *)
Definition copy_exclusions (potential : Potential.t) (base : Z)
    (topology : Topology.t) (c : nat) : list (Z * Z) :=
  let offset := (base + Z.of_nat c * Z.of_nat (Topology.n_particles topology))%Z in
  map (λ p, (offset + p.1, offset + p.2)%Z) (exclusions_of potential topology).

(** One entry per topology, copy and local exclusion, in this order. *)
Definition expected_exclusion_idxs (potential : Potential.t)
    (items : list (Topology.t * nat)) : list (Z * Z) :=
  concat (imap (λ t item,
                  flat_map (copy_exclusions potential (particles_before items t)
                              item.1)
                           (seq 0 item.2))
               items).

(** The scale of a local exclusion: the attribute at its stored index. *)
Definition topology_scales (potential : Potential.t) (topology : Topology.t)
  : list R :=
  map (λ idx, nth (Z.to_nat idx) (Potential.attributes potential) 0%R)
      (exclusion_scale_idxs_of potential topology).

Definition expected_exclusion_scales (potential : Potential.t)
    (items : list (Topology.t * nat)) : list R :=
  flat_map (λ item, concat (replicate item.2 (topology_scales potential item.1)))
           items.

(** The offsets as the specification words them: the copy index times the particle
    count of the topology, and nothing else. *)
Definition claimed_exclusion_idxs (potential : Potential.t)
    (items : list (Topology.t * nat)) : list (Z * Z) :=
  flat_map (λ item, flat_map (copy_exclusions potential 0 item.1) (seq 0 item.2))
           items.

(** A topology with a parameter map for the potential whose scale indices
    point into the attributes. *)
Definition has_exclusions (potential : Potential.t) (topology : Topology.t)
  : Prop :=
  is_Some (Topology.parameters topology !! Potential.type potential)
  ∧ Forall (λ idx, (0 ≤ idx < Z.of_nat (length (Potential.attributes potential)))%Z)
           (exclusion_scale_idxs_of potential topology).

(** Two diatomic molecules of different topologies, each with its bond
    excluded. *)
Definition diatomic (scale_idx : Z) : Topology.t :=
  Topology.mk 2 0
    {[ "vdW"%string := ParameterMap.mk [[1]; [1]]%R [(0, 1)%Z] [scale_idx] ]}.

Definition two_diatomics : System.t :=
  System.mk [diatomic 0; diatomic 1] [1; 2] false.

Definition lj_scaled : Potential.t :=
  Potential.mk "vdW" _LJ_POTENTIAL [[1; 3]]%R 2 ["k0"]%string
    ["scale_12"; "scale_13"; "cutoff"]%string [0; 1; 9]%R.

(** The Ewald damping factor and the node count along one axis, in the words
    of the specification. *)
Definition ewald_alpha (tol cutoff : R) : R :=
  (sqrt (- ln (2 * tol)) / cutoff)%R.

Definition pme_grid_dim (tol cutoff box_length : R) (minimum_grid_nodes : Z) : Z :=
  Z.max (ceil (2 * ewald_alpha tol cutoff / (3 * Rpower tol (1 / 5)) * box_length)%R)
        minimum_grid_nodes.

(** The switching function in the words of the specification: one below the
    switch distance, zero above the cutoff, the quintic in between. *)
Definition quintic_switch (r_s r_c r : R) : R :=
  if Rlt_dec r r_s then 1%R
  else if Rgt_dec r r_c then 0%R
  else
    let x := ((r - r_s) / (r_c - r_s))%R in
    (1 - 6 * x ^ 5 + 15 * x ^ 4 - 10 * x ^ 3)%R.

(** The 12-6 potential [4 epsilon ((sigma/r)^12 - (sigma/r)^6)]. *)
Definition lj_12_6 (epsilon sigma r : R) : R :=
  (4 * epsilon * ((sigma / r) ^ 12 - (sigma / r) ^ 6))%R.

(** The sum over the neighbour pairs of the scaled 12-6 energy, each term
    multiplied by the factor [S r]. *)
Definition switched_pair_sum (S : R → R)
    (pair_scales epsilon sigma distances : list R) : R :=
  Rsum (zip_with4 (λ scale e s r, S r * (scale * lj_12_6 e s r))%R
                  pair_scales epsilon sigma distances).

(** The same sum with no factor. *)
Definition plain_pair_sum (pair_scales epsilon sigma distances : list R) : R :=
  Rsum (zip_with4 (λ scale e s r, scale * lj_12_6 e s r)%R
                  pair_scales epsilon sigma distances).

(** The canonical pairs and the distances that [_compute_pairwise] keeps of
    the neighbour list. *)
Definition neighbor_pairs (getNeighborPairs : Frame → R → list (list R) → list NeighborSlot)
    (conformer : Frame) (box_vectors : list (list R)) (cutoff : R) : list (Z * Z) :=
  (_compute_pairwise getNeighborPairs conformer box_vectors cutoff).1.1.

Definition neighbor_distances (getNeighborPairs : Frame → R → list (list R) → list NeighborSlot)
    (conformer : Frame) (box_vectors : list (list R)) (cutoff : R) : list R :=
  (_compute_pairwise getNeighborPairs conformer box_vectors cutoff).2.

(** Two copies of a diatomic molecule in a cubic box, with a switched
    Lennard-Jones potential, and a neighbour list of two pairs and one
    padding slot. *)
Definition lj_switched : Potential.t :=
  Potential.mk "vdW" _LJ_POTENTIAL [[1; 3]]%R 2 ["k0"]%string
    ["scale_12"; "cutoff"; "switch_width"]%string [0.5; 9; 1]%R.

Definition periodic_diatomics : System.t :=
  System.mk [diatomic 0] [2] true.

Definition cubic_box : list (list R) :=
  [[30; 0; 0]; [0; 30; 0]; [0; 0; 30]]%R.

Definition four_particles : Frame :=
  [[0; 0; 0]; [1; 0; 0]; [0; 8.5; 0]; [1; 8.5; 0]]%R.

Definition two_neighbors (conformer : Frame) (cutoff : R)
    (box_vectors : list (list R)) : list NeighborSlot :=
  [mkSlot (1, 0)%Z [1; 0; 0]%R (Some 1%R);
   mkSlot (2, 0)%Z [0; 8.5; 0]%R (Some 8.5%R);
   mkSlot (-1, -1)%Z [0; 0; 0]%R None].

(** The bracket of the correction for one type of interaction: the two
    moments and the switched integral between [r_s] and [r_c]. *)
Definition tail_bracket (r_s r_c sigma : R) : R :=
  (sigma ^ 6 * sigma ^ 6 / (9 * r_c ^ 9) - sigma ^ 6 / (3 * r_c ^ 3)
   + (_compute_dispersion_integral r_c r_s r_c sigma
      - _compute_dispersion_integral r_s r_s r_c sigma))%R.

(** A functional on the per-type terms that respects pointwise equality and
    the linear combination the bracket is built from. *)
Definition linear_functional (L : (R → R) → R) : Prop :=
  (∀ f g, (∀ x, f x = g x) → L f = L g)
  ∧ (∀ f g h a b,
       L (λ x, a * f x - b * g x + h x)%R = (a * L f - b * L g + L h)%R).

(** The Lennard-Jones potential of [lj_switched] without the switch width. *)
Definition lj_plain : Potential.t :=
  Potential.mk "vdW" _LJ_POTENTIAL [[1; 3]]%R 2 ["k0"]%string
    ["scale_12"; "cutoff"]%string [0.5; 9]%R.

(** The type of the direct kernels. *)
Abbreviation Kernel :=
  (Conformer → list (list R) → list (Z * Z) → list R → result Energy).

(** The slots of a neighbour list that [_compute_pairwise] keeps. *)
Definition interacting_slots (slots : list NeighborSlot) : list NeighborSlot :=
  filter (λ s, is_Some (slot_distance s)) slots.

(** A topology whose local exclusions name two distinct particles of the
    topology and carry one scale index each, inside the attributes. *)
Definition local_exclusions_wf (potential : Potential.t) (topology : Topology.t)
  : Prop :=
  has_exclusions potential topology
  ∧ wf_exclusions (Topology.n_particles topology) (exclusions_of potential topology)
  ∧ length (exclusion_scale_idxs_of potential topology)
    = length (exclusions_of potential topology).

(** The first particle of copy [c] of the [t]-th topology. *)
Definition copy_start (items : list (Topology.t * nat)) (t : nat)
    (topology : Topology.t) (c : nat) : Z :=
  (particles_before items t
   + Z.of_nat c * Z.of_nat (Topology.n_particles topology))%Z.

(** Particle [i] of the full system belongs to copy [c] of the [t]-th
    topology. *)
Definition in_copy (items : list (Topology.t * nat)) (t : nat)
    (item : Topology.t * nat) (c : nat) (i : Z) : Prop :=
  (copy_start items t item.1 c ≤ i
   < copy_start items t item.1 c + Z.of_nat (Topology.n_particles item.1))%Z.

(** Two particles of the full system belong to the same copy of the same
    topology, that is to the same molecule. *)
Definition same_copy (items : list (Topology.t * nat)) (i j : Z) : Prop :=
  ∃ t item c, items !! t = Some item ∧ c < item.2
              ∧ in_copy items t item c i ∧ in_copy items t item c j.

(** The conformer moved rigidly by [shift]: [conformer + shift] with a shift
    of shape [(3,)]. *)
Definition translate_frame (shift : list R) (frame : Frame) : Frame :=
  map (λ row, zip_with Rplus row shift) frame.

Definition translate (shift : list R) (conformer : Conformer) : Conformer :=
  match conformer with
  | Unbatched frame => Unbatched (translate_frame shift frame)
  | Batched batch =>
      Batched (Batch.mk (Batch.n_particles batch)
                 (map (translate_frame shift) (Batch.frames batch)))
  end.

(** Every particle of every frame has [k] coordinates. *)
Definition coordinates (k : nat) (conformer : Conformer) : Prop :=
  Forall (Forall (λ row, length row = k)) (Batch.frames (as_batch conformer)).

(** The registry after the import of [smee.potentials.nonbonded] into an
    empty registry: the two decorated kernels, in the order of the file. *)
Definition nonbonded_registry (k_e : R) : gmap (string * string) EnergyFn :=
  let registry :=
    (potential_energy_fn "vdW" _LJ_POTENTIAL (NonbondedFn compute_lj_energy)
       ∅).2 in
  (potential_energy_fn "Electrostatics" _COULOMB_POTENTIAL
     (NonbondedFn (compute_coulomb_energy k_e)) registry).2.

(** The scales of the exclusions of a parameter map: the attributes of the
    potential at the stored indices. *)
Definition applied_scales (potential : Potential.t)
    (parameter_map : ParameterMap.t) : list R :=
  map (λ idx, nth (Z.to_nat idx) (Potential.attributes potential) 0%R)
      (ParameterMap.exclusion_scale_idxs parameter_map).

(** The parameters of the particles: the assignment matrix times the
    parameter table of the potential. *)
Definition applied_values (potential : Potential.t)
    (parameter_map : ParameterMap.t) : list (list R) :=
  matmul_rows (ParameterMap.assignment_matrix parameter_map)
    (Potential.parameters potential) (Potential.n_cols potential).

(** A parameter map that fits a potential and a molecule of [n] particles:
    a rectangular parameter table, one row of the assignment matrix per
    particle and one column per row of the parameter table, exclusions
    between distinct particles, and one scale index per exclusion, inside
    the attributes. *)
Definition applied_wf (potential : Potential.t) (n : nat)
    (parameter_map : ParameterMap.t) : Prop :=
  Forall (λ row, length row = Potential.n_cols potential)
         (Potential.parameters potential)
  ∧ length (ParameterMap.assignment_matrix parameter_map) = n
  ∧ Forall (λ row, length row = length (Potential.parameters potential))
           (ParameterMap.assignment_matrix parameter_map)
  ∧ wf_exclusions n (ParameterMap.exclusions parameter_map)
  ∧ length (ParameterMap.exclusion_scale_idxs parameter_map)
    = length (ParameterMap.exclusions parameter_map)
  ∧ Forall (λ idx, (0 ≤ idx
                    < Z.of_nat (length (Potential.attributes potential)))%Z)
           (ParameterMap.exclusion_scale_idxs parameter_map).

(** The entry [k] of the sum of the per-conformer energies [energies]. *)
Definition summed_energy (energies : list (list R)) (k : nat) : R :=
  Rsum (map (λ es, nth k es 0%R) energies).

(** The potentials [force_field] are evaluated without exception on the
    conformers of [batch], with the per-conformer energies [energies]. *)
Definition evaluated (registry : gmap (string * string) EnergyFn)
    (parameters : gmap string AppliedParameters) (batch : Batch.t)
    (force_field : list Potential.t) (energies : list (list R)) : Prop :=
  Forall2 (λ potential es,
             ∃ parameter_map,
               parameters !! Potential.type potential = Some parameter_map
               ∧ compute_energy_potential registry parameter_map
                   (Batched batch) potential
                 = Ok (PerConformer es)
               ∧ length es = length (Batch.frames batch))
          force_field energies.

(** The parameters applied to a diatomic molecule: a Lennard-Jones type for
    both atoms, and two opposite charges; the bond is excluded. *)
Definition diatomic_lj : ParameterMap.t :=
  ParameterMap.mk [[1]; [1]]%R [(0, 1)%Z] [0%Z].

Definition diatomic_charges : ParameterMap.t :=
  ParameterMap.mk [[0; 1; 0]; [0; 0; 1]]%R [(0, 1)%Z] [0%Z].

Definition diatomic_applied : gmap string AppliedParameters :=
  {[ "vdW"%string := NonbondedParameters diatomic_lj;
     "Electrostatics"%string := NonbondedParameters diatomic_charges ]}.

Definition diatomic_frame : Frame := [[0; 0; 0]; [3; 4; 0]]%R.

(** The partners of particle [a] in a list of exclusion pairs, in the order
    in which the pairs name them. *)
Definition partners (pairs : list (Z * Z)) (a : Z) : list Z :=
  flat_map (λ p, (if decide (p.1 = a) then [p.2] else [])
                 ++ (if decide (p.2 = a) then [p.1] else []))
           pairs.

(** The partners of every particle of a topology, and the largest number of
    partners that a particle of the topology has. *)
Definition template_of (potential : Potential.t) (topology : Topology.t)
  : list (list Z) :=
  map (λ a, partners (exclusions_of potential topology) (Z.of_nat a))
      (seq 0 (Topology.n_particles topology)).

Definition max_partners (potential : Potential.t)
    (items : list (Topology.t * nat)) : nat :=
  max_list (map (λ item, max_list (length <$> template_of potential item.1))
                items).

(** A row of the exclusion table: the partners moved by the offset of the
    copy, padded with [-1] to [width] entries. *)
Definition pme_row (width : nat) (offset : Z) (l : list Z) : list Z :=
  map (Z.add offset) l ++ replicate (width - length l) (-1)%Z.

(** Exclusion pairs that name particles of an [n] particle topology. *)
Definition pairs_in_range (n : nat) (pairs : list (Z * Z)) : Prop :=
  Forall (λ p, (0 ≤ p.1 < Z.of_nat n)%Z ∧ (0 ≤ p.2 < Z.of_nat n)%Z) pairs.

(** A topology that the exclusion table can be built for: it has parameters
    for the handler of the potential, at least one particle, and exclusions
    that name its particles. *)
Definition pme_topology (potential : Potential.t) (topology : Topology.t)
  : Prop :=
  is_Some (Topology.parameters topology !! Potential.type potential)
  ∧ 0 < Topology.n_particles topology
  ∧ pairs_in_range (Topology.n_particles topology)
      (exclusions_of potential topology).

(** A monatomic topology without exclusions, and a system of three such
    atoms. *)
Definition monatomic : Topology.t :=
  Topology.mk 1 0 {[ "vdW"%string := ParameterMap.mk [[1]]%R [] [] ]}.

Definition three_atoms : System.t := System.mk [monatomic] [3] true.

(** The scale that a topology stores for the pair [{a, b}] of its own
    particles. *)
Definition local_scale (potential : Potential.t) (topology : Topology.t)
    (a b : Z) : R :=
  stored_scale (exclusions_of potential topology)
    (topology_scales potential topology) a b.

(** * Properties *)

(** ** The exception monad and indexing *)

Lemma mapM_ok {A B} (f : A → result B) (g : A → B) (l : list A) :
  (∀ x, x ∈ l → f x = Ok (g x)) → mapM f l = Ok (map g l).
Proof.
  induction l as [|x l IH]; intros Hf; [reflexivity|].
  cbn. rewrite (Hf x) by left. cbn.
  rewrite IH by (intros y Hy; apply Hf; now right). reflexivity.
Qed.

Lemma mapM_ext {A B} (f g : A → result B) (l : list A) :
  (∀ x, x ∈ l → f x = g x) → mapM f l = mapM g l.
Proof.
  induction l as [|x l IH]; intros Hf; [reflexivity|].
  cbn. rewrite (Hf x) by left.
  rewrite IH by (intros y Hy; apply Hf; now right). reflexivity.
Qed.

Lemma mapM_length {A B} (f : A → result B) (l : list A) (k : list B) :
  mapM f l = Ok k → length k = length l.
Proof.
  revert k. induction l as [|x l IH]; intros k; cbn.
  - intros [= <-]. reflexivity.
  - destruct (f x); cbn; [|discriminate].
    destruct (mapM f l) as [k'|]; cbn; [|discriminate].
    intros [= <-]. cbn. f_equal. now apply IH.
Qed.

Lemma wrap_index_nonneg (len : nat) (i : Z) :
  (0 ≤ i < Z.of_nat len)%Z → wrap_index len i = Ok (Z.to_nat i).
Proof. intros H. unfold wrap_index. now rewrite decide_True. Qed.

Lemma getitem_lookup {A} (t : list A) (i : Z) (x : A) :
  (0 ≤ i)%Z → t !! Z.to_nat i = Some x → getitem t i = Ok x.
Proof.
  intros Hi Hx. unfold getitem.
  apply lookup_lt_Some in Hx as Hlt.
  rewrite wrap_index_nonneg by lia. cbn. now rewrite Hx.
Qed.

Lemma getitem_nat {A} (t : list A) (k : nat) (x : A) :
  t !! k = Some x → getitem t (Z.of_nat k) = Ok x.
Proof. intros Hx. apply getitem_lookup; [lia|]. now rewrite Nat2Z.id. Qed.

(** ** The registry *)

(** C9: decorating a function for a pair of tags that is already registered
    raises [KeyError] and leaves the registry as it was; for a fresh pair the
    function is returned, recorded, and found again by the dispatcher, while
    every other entry stays as it was. *)
Theorem potential_energy_fn_registers {F} (handler_type energy_expression : string)
    (func : F) (registry : gmap (string * string) F) :
  (is_Some (registry !! (handler_type, energy_expression)) →
     potential_energy_fn handler_type energy_expression func registry
     = (Raise KeyError, registry))
  ∧ (registry !! (handler_type, energy_expression) = None →
     ∃ registry',
       potential_energy_fn handler_type energy_expression func registry
       = (Ok func, registry')
       ∧ (∀ potential,
            Potential.type potential = handler_type →
            Potential.fn potential = energy_expression →
            lookup_energy_fn registry' potential = Ok func)
       ∧ (∀ key, key ≠ (handler_type, energy_expression) →
            registry' !! key = registry !! key)).
Proof.
  unfold potential_energy_fn. split.
  - intros Hsome. now rewrite decide_True.
  - intros Hnone. rewrite decide_False by (rewrite Hnone; apply is_Some_None).
    eexists. split; [reflexivity|]. split.
    + intros potential <- <-. unfold lookup_energy_fn, dict_get.
      now rewrite lookup_insert_eq.
    + intros key Hkey. now rewrite lookup_insert_ne.
Qed.

(** ** The upper triangle: enumeration and canonical index *)

Section Triangle.

Local Open Scope Z_scope.

Lemma triu_indices_rows (n : nat) :
  triu_indices n = flat_map (triu_row n) (seq 0 n).
Proof. reflexivity. Qed.

Lemma triu_row_length (n i : nat) : length (triu_row n i) = (n - S i)%nat.
Proof. unfold triu_row. now rewrite length_map, length_seq. Qed.

Lemma triu_prefix_length (n m : nat) :
  (m ≤ n)%nat →
  2 * Z.of_nat (length (flat_map (triu_row n) (seq 0 m)))
  = Z.of_nat m * (2 * Z.of_nat n - Z.of_nat m - 1).
Proof.
  induction m as [|m IH]; intros Hm; [reflexivity|].
  rewrite seq_S, flat_map_app, length_app. cbn [flat_map].
  rewrite app_nil_r, triu_row_length.
  rewrite Nat2Z.inj_add, Z.mul_add_distr_l, IH by lia. nia.
Qed.

Lemma upper_tri_even (i n : Z) : (i * (2 * n - i - 1)) `mod` 2 = 0.
Proof.
  destruct (Z.even i) eqn:He.
  - apply Z.even_spec in He as [k ->].
    rewrite <- Z.mul_assoc, Z.mul_comm. apply Z.mod_mul. lia.
  - rewrite <- Z.negb_odd in He. apply negb_false_iff, Z.odd_spec in He as [k ->].
    replace ((2 * k + 1) * (2 * n - (2 * k + 1) - 1))
      with ((2 * k + 1) * (n - k - 1) * 2) by ring.
    apply Z.mod_mul. lia.
Qed.

Lemma upper_tri_half (i n : Z) :
  2 * ((i * (2 * n - i - 1)) `div` 2) = i * (2 * n - i - 1).
Proof.
  pose proof (upper_tri_even i n) as He.
  pose proof (Z.div_mod (i * (2 * n - i - 1)) 2). lia.
Qed.

(** The true division and truncation of [compute_pairwise] agree with the
    integer division of [to_upper_tri_idx]: the product is even. *)
Lemma exclusion_1d_upper_tri (n i j : Z) :
  exclusion_1d n (i, j) = Utils.to_upper_tri_idx i j n.
Proof.
  unfold exclusion_1d, Utils.to_upper_tri_idx.
  pose proof (upper_tri_even i n) as He.
  apply Z.mod_divide in He as [k Hk]; [|lia].
  rewrite Hk, Z.quot_mul, Z.div_mul by lia. reflexivity.
Qed.

Lemma triu_offset (n i : nat) :
  (i ≤ n)%nat →
  Z.of_nat (length (flat_map (triu_row n) (seq 0 i)))
  = (Z.of_nat i * (2 * Z.of_nat n - Z.of_nat i - 1)) `div` 2.
Proof.
  intros Hi. pose proof (triu_prefix_length n i Hi) as Hlen.
  pose proof (upper_tri_half (Z.of_nat i) (Z.of_nat n)). lia.
Qed.

Lemma triu_indices_length (n : nat) :
  length (triu_indices n) = ((n * (n - 1)) `div` 2)%nat.
Proof.
  pose proof (triu_prefix_length n n (le_n n)) as Hlen.
  rewrite <- triu_indices_rows in Hlen.
  assert (H2 : (n * (n - 1) = length (triu_indices n) * 2)%nat) by nia.
  rewrite H2, Nat.div_mul by lia. reflexivity.
Qed.

Lemma upper_tri_idx_nonneg (n : nat) (i j : Z) :
  0 ≤ i < j → j < Z.of_nat n → 0 ≤ Utils.to_upper_tri_idx i j (Z.of_nat n).
Proof.
  intros Hij Hj. unfold Utils.to_upper_tri_idx.
  assert (0 ≤ (i * (2 * Z.of_nat n - i - 1)) `div` 2)
    by (apply Z.div_pos; nia).
  lia.
Qed.

Lemma triu_row_lookup (n i k : nat) :
  (k < n - S i)%nat →
  triu_row n i !! k = Some (Z.of_nat i, Z.of_nat (S i + k)).
Proof.
  intros Hk. unfold triu_row.
  rewrite list_lookup_fmap, lookup_seq_lt by lia. reflexivity.
Qed.

(** The pair [(i, j)] sits at position [idx(i, j)] of the enumeration. *)
Lemma triu_lookup (n i j : nat) :
  (i < j < n)%nat →
  triu_indices n
    !! Z.to_nat (Utils.to_upper_tri_idx (Z.of_nat i) (Z.of_nat j) (Z.of_nat n))
  = Some (Z.of_nat i, Z.of_nat j).
Proof.
  intros Hij. rewrite triu_indices_rows.
  assert (Hseq : seq 0 n = seq 0 i ++ i :: seq (S i) (n - S i)).
  { replace n with (i + S (n - S i))%nat at 1 by lia.
    rewrite seq_app. reflexivity. }
  rewrite Hseq, flat_map_app. cbn [flat_map].
  pose proof (triu_offset n i ltac:(lia)) as Hoff.
  assert (Hk : Z.to_nat
                 (Utils.to_upper_tri_idx (Z.of_nat i) (Z.of_nat j) (Z.of_nat n))
               = (length (flat_map (triu_row n) (seq 0 i)) + (j - S i))%nat).
  { unfold Utils.to_upper_tri_idx. lia. }
  rewrite Hk, lookup_app_r by lia.
  replace (_ + (j - S i) - _)%nat with (j - S i)%nat by lia.
  rewrite lookup_app_l by (rewrite triu_row_length; lia).
  rewrite triu_row_lookup by lia. do 2 f_equal. lia.
Qed.

(** Every position of the enumeration holds a pair [i < j < n], at its
    canonical index. *)
Lemma triu_prefix_lookup_inv (n m k : nat) (p : Z * Z) :
  (m ≤ n)%nat →
  flat_map (triu_row n) (seq 0 m) !! k = Some p →
  ∃ i j : nat, p = (Z.of_nat i, Z.of_nat j) ∧ (i < j < n)%nat ∧ (i < m)%nat ∧
    k = Z.to_nat (Utils.to_upper_tri_idx (Z.of_nat i) (Z.of_nat j) (Z.of_nat n)).
Proof.
  induction m as [|m IH]; intros Hm; [intros [=]|].
  rewrite seq_S, flat_map_app. cbn [flat_map Nat.add]. rewrite app_nil_r.
  intros [Hin | [Hge Hrow]]%lookup_app_Some.
  - destruct (IH ltac:(lia) Hin) as (i & j & -> & Hij & Him & ->).
    exists i, j. repeat split; lia.
  - apply lookup_lt_Some in Hrow as Hlt.
    rewrite triu_row_length in Hlt.
    rewrite triu_row_lookup in Hrow by lia. injection Hrow as <-.
    exists m, (S m + (k - length (flat_map (triu_row n) (seq 0 m))))%nat.
    pose proof (triu_offset n m ltac:(lia)) as Hoff.
    repeat split; try lia.
    unfold Utils.to_upper_tri_idx. lia.
Qed.

Lemma triu_lookup_inv (n k : nat) (p : Z * Z) :
  triu_indices n !! k = Some p →
  ∃ i j : nat, p = (Z.of_nat i, Z.of_nat j) ∧ (i < j < n)%nat ∧
    k = Z.to_nat (Utils.to_upper_tri_idx (Z.of_nat i) (Z.of_nat j) (Z.of_nat n)).
Proof.
  intros Hk. rewrite triu_indices_rows in Hk.
  destruct (triu_prefix_lookup_inv n n k p (le_n n) Hk)
    as (i & j & Hp & Hij & _ & Hidx).
  eauto.
Qed.

Lemma upper_tri_idx_lt (n : nat) (i j : Z) :
  0 ≤ i < j → j < Z.of_nat n →
  Utils.to_upper_tri_idx i j (Z.of_nat n) < Z.of_nat (length (triu_indices n)).
Proof.
  intros Hij Hj.
  pose proof (triu_lookup n (Z.to_nat i) (Z.to_nat j) ltac:(lia)) as Hl.
  rewrite !Z2Nat.id in Hl by lia.
  apply lookup_lt_Some in Hl.
  pose proof (upper_tri_idx_nonneg n i j Hij Hj). lia.
Qed.

Lemma upper_tri_idx_inj (n : nat) (i j i' j' : Z) :
  0 ≤ i < j → j < Z.of_nat n → 0 ≤ i' < j' → j' < Z.of_nat n →
  Utils.to_upper_tri_idx i j (Z.of_nat n)
  = Utils.to_upper_tri_idx i' j' (Z.of_nat n) →
  (i, j) = (i', j').
Proof.
  intros Hij Hj Hij' Hj' Heq.
  pose proof (triu_lookup n (Z.to_nat i) (Z.to_nat j) ltac:(lia)) as Hl.
  pose proof (triu_lookup n (Z.to_nat i') (Z.to_nat j') ltac:(lia)) as Hl'.
  rewrite !Z2Nat.id in Hl, Hl' by lia.
  rewrite Heq, Hl' in Hl. congruence.
Qed.


Lemma elem_of_triu_indices (n : nat) (i j : Z) :
  (i, j) ∈ triu_indices n ↔ 0 ≤ i < j ∧ j < Z.of_nat n.
Proof.
  split.
  - intros [k Hk]%list_elem_of_lookup.
    destruct (triu_lookup_inv n k _ Hk) as (a & b & [= -> ->] & Hab & _). lia.
  - intros [Hij Hj]. apply list_elem_of_lookup.
    pose proof (triu_lookup n (Z.to_nat i) (Z.to_nat j) ltac:(lia)) as Hl.
    rewrite !Z2Nat.id in Hl by lia. eauto.
Qed.


End Triangle.

(** ** Scatter and gather *)

Lemma foldl_insert_length {A} (t : list A) (kvs : list (nat * A)) :
  length (foldl (λ acc kv, <[kv.1 := kv.2]> acc) t kvs) = length t.
Proof.
  revert t. induction kvs as [|kv kvs IH]; intros t; [reflexivity|].
  cbn. now rewrite IH, length_insert.
Qed.

Lemma foldl_insert_lookup {A} (t : list A) (kvs : list (nat * A)) (k : nat) (x : A) :
  t !! k = Some x →
  foldl (λ acc kv, <[kv.1 := kv.2]> acc) t kvs !! k
  = Some (foldl (λ acc kv, if decide (kv.1 = k) then kv.2 else acc) x kvs).
Proof.
  revert t x. induction kvs as [|[k1 v1] kvs IH]; intros t x Hx; [exact Hx|].
  cbn. apply IH. destruct (decide (k1 = k)) as [->|Hne].
  - apply list_lookup_insert_eq. now apply lookup_lt_Some in Hx.
  - now rewrite list_lookup_insert_ne.
Qed.

Lemma mapM_fmap {A B C} (f : B → result C) (g : A → B) (l : list A) :
  mapM f (g <$> l) = mapM (λ x, f (g x)) l.
Proof.
  induction l as [|x l IH]; [reflexivity|]. cbn. now rewrite IH.
Qed.

Lemma zip_with4_map {X A B C D E} (f : A → B → C → D → E)
    (a : X → A) (b : X → B) (c : X → C) (d : X → D) (l : list X) :
  zip_with4 f (map a l) (map b l) (map c l) (map d l)
  = map (λ x, f (a x) (b x) (c x) (d x)) l.
Proof.
  unfold zip_with4. induction l as [|x l IH]; [reflexivity|].
  cbn. now rewrite IH.
Qed.

Lemma zip_with_map_same {X A B C} (f : A → B → C) (a : X → A) (b : X → B)
    (l : list X) :
  zip_with f (map a l) (map b l) = map (λ x, f (a x) (b x)) l.
Proof. induction l as [|x l IH]; [reflexivity|]. cbn. now rewrite IH. Qed.

Lemma float_4 : 4.0%R = 4%R.
Proof. lra. Qed.

Lemma float_1 : 1.0%R = 1%R.
Proof. lra. Qed.

Lemma Rsum_app (l k : list R) : Rsum (l ++ k) = (Rsum l + Rsum k)%R.
Proof.
  unfold Rsum. induction l as [|x l IH]; cbn; [lra|]. rewrite IH. lra.
Qed.

Lemma Rsum_flat_map {A} (f : A → list R) (l : list A) :
  Rsum (flat_map f l) = Rsum (map (λ x, Rsum (f x)) l).
Proof.
  induction l as [|x l IH]; [reflexivity|].
  cbn [flat_map map]. rewrite Rsum_app, IH. reflexivity.
Qed.

Lemma map_flat_map_comm {A B C} (g : B → C) (f : A → list B) (l : list A) :
  map g (flat_map f l) = flat_map (λ x, map g (f x)) l.
Proof.
  induction l as [|x l IH]; [reflexivity|].
  cbn [flat_map]. now rewrite map_app, IH.
Qed.

Lemma Rsum_triu_indices (n : nat) (f : Z → Z → R) :
  Rsum (map (λ p, f p.1 p.2) (triu_indices n)) = sum_over_pairs n f.
Proof.
  unfold triu_indices, sum_over_pairs.
  rewrite map_flat_map_comm, Rsum_flat_map.
  f_equal. apply map_ext. intros i. now rewrite map_map.
Qed.

Lemma broadcast_to_len_same {A} (vals : list A) (n : nat) :
  length vals = n → broadcast_to_len vals n = Ok vals.
Proof. intros H. unfold broadcast_to_len. now rewrite decide_True. Qed.

Lemma setitem_ok {A} (t : list A) (idxs : list Z) (vals : list A) :
  length vals = length idxs →
  Forall (λ i, (0 ≤ i < Z.of_nat (length t))%Z) idxs →
  setitem t idxs vals
  = Ok (foldl (λ acc kv, <[kv.1 := kv.2]> acc) t (zip (map Z.to_nat idxs) vals)).
Proof.
  intros Hlen Hidx. unfold setitem.
  rewrite broadcast_to_len_same by exact Hlen. cbn.
  rewrite (mapM_ok _ Z.to_nat); [reflexivity|].
  intros i Hi. apply wrap_index_nonneg.
  now apply (proj1 (Forall_forall _ _) Hidx).
Qed.

Lemma sorted_exclusion_matches (n : nat) (p : Z * Z) (i j : Z) :
  ((0 ≤ p.1 < Z.of_nat n)%Z ∧ (0 ≤ p.2 < Z.of_nat n)%Z ∧ p.1 ≠ p.2) →
  (0 ≤ i < j)%Z → (j < Z.of_nat n)%Z →
  Z.to_nat (exclusion_1d (Z.of_nat n) (Z.min p.1 p.2, Z.max p.1 p.2))
  = Z.to_nat (Utils.to_upper_tri_idx i j (Z.of_nat n))
  ↔ p = (i, j) ∨ p = (j, i).
Proof.
  destruct p as [a b]. cbn [fst snd]. intros (Ha & Hb & Hab) Hij Hj.
  rewrite exclusion_1d_upper_tri.
  pose proof (upper_tri_idx_nonneg n (Z.min a b) (Z.max a b)
                ltac:(lia) ltac:(lia)) as Hm.
  pose proof (upper_tri_idx_nonneg n i j Hij Hj) as Hn.
  split.
  - intros Heq. apply Z2Nat.inj in Heq; [|exact Hm|exact Hn].
    apply (upper_tri_idx_inj n) in Heq; [|lia..].
    injection Heq as Hmin Hmax.
    assert (Hcases : a = i ∧ b = j ∨ a = j ∧ b = i) by lia.
    destruct Hcases as [[-> ->]|[-> ->]]; auto.
  - intros [[= -> ->]|[= -> ->]].
    + now rewrite Z.min_l, Z.max_r by lia.
    + now rewrite Z.min_r, Z.max_l by lia.
Qed.

Lemma stored_scale_fold (n : nat) (exclusions : list (Z * Z)) (scales : list R)
    (i j : Z) (acc : R) :
  wf_exclusions n exclusions →
  (0 ≤ i < j)%Z → (j < Z.of_nat n)%Z →
  foldl (λ acc kv,
           if decide (kv.1 = Z.to_nat (Utils.to_upper_tri_idx i j (Z.of_nat n)))
           then kv.2 else acc)
        acc
        (zip (map Z.to_nat
                (map (exclusion_1d (Z.of_nat n)) (sort_dim1 exclusions)))
             scales)
  = foldl (λ acc es, if decide (es.1 = (i, j) ∨ es.1 = (j, i)) then es.2 else acc)
          acc (zip exclusions scales).
Proof.
  intros Hwf Hij Hj. revert scales acc.
  induction Hwf as [|p exclusions Hp Hwf IH]; intros scales acc; [reflexivity|].
  destruct scales as [|s scales]; [reflexivity|].
  cbn [sort_dim1 map zip zip_with foldl fst snd].
  pose proof (sorted_exclusion_matches n p i j Hp Hij Hj) as Hiff.
  destruct (decide (p = (i, j) ∨ p = (j, i))) as [Hyes|Hno].
  - rewrite decide_True by (now apply Hiff). apply IH.
  - rewrite decide_False by (now rewrite Hiff). apply IH.
Qed.

Lemma exclusion_1d_in_range (n : nat) (exclusions : list (Z * Z)) :
  wf_exclusions n exclusions →
  Forall (λ i, (0 ≤ i < Z.of_nat (length (Utils.ones_like (length (triu_indices n)))))%Z)
         (map (exclusion_1d (Z.of_nat n)) (sort_dim1 exclusions)).
Proof.
  intros Hwf. unfold sort_dim1. rewrite map_map.
  apply Forall_map. eapply Forall_impl; [exact Hwf|].
  intros [a b] (Ha & Hb & Hab). cbn [fst snd] in *.
  rewrite exclusion_1d_upper_tri. unfold Utils.ones_like.
  rewrite length_replicate.
  split.
  - apply upper_tri_idx_nonneg; lia.
  - apply upper_tri_idx_lt; lia.
Qed.

(** The dense scale vector: entry [idx(i, j)] is the stored scale of the
    pair. *)
Lemma dense_pair_scales (n : nat) (exclusions : list (Z * Z)) (scales : list R) :
  wf_exclusions n exclusions →
  foldl (λ acc kv, <[kv.1 := kv.2]> acc)
        (Utils.ones_like (length (triu_indices n)))
        (zip (map Z.to_nat
                (map (exclusion_1d (Z.of_nat n)) (sort_dim1 exclusions)))
             scales)
  = map (λ p, stored_scale exclusions scales p.1 p.2) (triu_indices n).
Proof.
  intros Hwf. apply list_eq. intros k.
  destruct (triu_indices n !! k) as [p|] eqn:Hk.
  - destruct (triu_lookup_inv n k p Hk) as (i & j & -> & Hij & ->).
    rewrite list_lookup_fmap, Hk. cbn [fmap option_fmap option_map fst snd].
    erewrite foldl_insert_lookup.
    2:{ unfold Utils.ones_like. apply lookup_replicate_2.
        now apply lookup_lt_Some in Hk. }
    f_equal. unfold stored_scale.
    apply stored_scale_fold; [exact Hwf|lia|lia].
  - rewrite list_lookup_fmap, Hk. cbn.
    apply lookup_ge_None. apply lookup_ge_None in Hk.
    rewrite foldl_insert_length. unfold Utils.ones_like.
    now rewrite length_replicate.
Qed.

Lemma pair_distance_sqr_ok (frame : Frame) (p : Z * Z) :
  p ∈ triu_indices (length frame) →
  pair_distance_sqr frame p = Ok (distance_sqr frame p.1 p.2).
Proof.
  destruct p as [i j]. intros [Hij Hj]%elem_of_triu_indices.
  unfold pair_distance_sqr, distance_sqr, position. cbn [fst snd].
  destruct (lookup_lt_is_Some_2 frame (Z.to_nat i) ltac:(lia)) as [xi Hxi].
  destruct (lookup_lt_is_Some_2 frame (Z.to_nat j) ltac:(lia)) as [xj Hxj].
  rewrite Hxi, Hxj.
  rewrite (getitem_lookup frame i xi) by (lia || assumption). cbn.
  rewrite (getitem_lookup frame j xj) by (lia || assumption). reflexivity.
Qed.

(** [compute_pairwise] on well formed input. *)
Lemma compute_pairwise_ok (conformer : Batch.t) (exclusions : list (Z * Z))
    (exclusion_scales : list R) :
  let n := Batch.n_particles conformer in
  Batch.wf conformer →
  wf_exclusions n exclusions →
  length exclusion_scales = length exclusions →
  compute_pairwise conformer exclusions exclusion_scales
  = Ok (triu_indices n,
        map (λ frame, map (λ p, distance_sqr frame p.1 p.2) (triu_indices n))
            (Batch.frames conformer),
        map (λ p, stored_scale exclusions exclusion_scales p.1 p.2)
            (triu_indices n)).
Proof.
  intros n Hconf Hwf Hlen. unfold compute_pairwise. fold n.
  assert (Hscales :
    (if decide (0 < length exclusions) then
       setitem (Utils.ones_like (length (triu_indices n)))
         (map (exclusion_1d (Z.of_nat n)) (sort_dim1 exclusions))
         exclusion_scales
     else Ok (Utils.ones_like (length (triu_indices n))))
    = Ok (map (λ p, stored_scale exclusions exclusion_scales p.1 p.2)
              (triu_indices n))).
  { destruct (decide (0 < length exclusions)) as [Hpos|Hzero].
    - rewrite setitem_ok.
      + now rewrite dense_pair_scales.
      + unfold sort_dim1. now rewrite !length_map.
      + now apply exclusion_1d_in_range.
    - destruct exclusions; [|cbn in Hzero; lia].
      rewrite <- (dense_pair_scales n [] exclusion_scales) by constructor.
      reflexivity. }
  rewrite Hscales. cbn.
  rewrite (mapM_ok _ (λ frame, map (λ p, distance_sqr frame p.1 p.2)
                                 (triu_indices n))).
  - reflexivity.
  - intros frame Hframe. apply mapM_ok. intros p Hp.
    apply pair_distance_sqr_ok.
    assert (Hf : length frame = n)
      by (now apply (proj1 (Forall_forall _ _) Hconf)).
    now rewrite Hf.
Qed.

(** ** The direct kernels as sums over pairs *)

Lemma getitem2_parameter (parameters : list (list R)) (n cols col : nat) (i : Z) :
  wf_parameters n cols parameters → col < cols → (0 ≤ i < Z.of_nat n)%Z →
  getitem2 parameters i (Z.of_nat col) = Ok (parameter parameters i col).
Proof.
  intros [Hlen Hrows] Hcol Hi. unfold getitem2, parameter.
  destruct (lookup_lt_is_Some_2 parameters (Z.to_nat i) ltac:(lia)) as [row Hrow].
  rewrite (getitem_lookup parameters i row) by (lia || assumption). cbn.
  assert (Hr : cols ≤ length row).
  { apply (proj1 (Forall_forall _ _) Hrows).
    eapply list_elem_of_lookup_2, Hrow. }
  destruct (lookup_lt_is_Some_2 row col ltac:(lia)) as [x Hx].
  rewrite (getitem_nat row col x Hx).
  rewrite (nth_lookup_Some _ _ _ _ Hrow), (nth_lookup_Some _ _ _ _ Hx).
  reflexivity.
Qed.

Lemma gather_col_triu (parameters : list (list R)) (n cols col : nat)
    (colz : Z) (side : Z * Z → Z) :
  wf_parameters n cols parameters → colz = Z.of_nat col → col < cols →
  (∀ p, p ∈ triu_indices n → (0 ≤ side p < Z.of_nat n)%Z) →
  gather_col parameters (side <$> triu_indices n) colz
  = Ok (map (λ p, parameter parameters (side p) col) (triu_indices n)).
Proof.
  intros Hwf -> Hcol Hside. unfold gather_col.
  rewrite mapM_fmap. apply mapM_ok. intros p Hp.
  eapply getitem2_parameter; eauto.
Qed.

Lemma triu_fst_range (n : nat) (p : Z * Z) :
  p ∈ triu_indices n → (0 ≤ p.1 < Z.of_nat n)%Z.
Proof. destruct p. intros ?%elem_of_triu_indices. cbn. lia. Qed.

Lemma triu_snd_range (n : nat) (p : Z * Z) :
  p ∈ triu_indices n → (0 ≤ p.2 < Z.of_nat n)%Z.
Proof. destruct p. intros ?%elem_of_triu_indices. cbn. lia. Qed.

Lemma as_batch_wf (conformer : Conformer) :
  match conformer with Unbatched _ => True | Batched b => Batch.wf b end →
  Batch.wf (as_batch conformer).
Proof.
  destruct conformer as [frame|b]; cbn; [|auto].
  intros _. repeat constructor.
Qed.

(** The direct Coulomb kernel returns, per conformer, the sum over the pairs
    of the stored scale times the full strength pair energy. *)
Lemma compute_coulomb_energy_sum (k_e : R) (conformer : Conformer)
    (parameters : list (list R)) (exclusions : list (Z * Z))
    (exclusion_scales : list R) :
  let n := Batch.n_particles (as_batch conformer) in
  wf_conformer conformer →
  wf_parameters n 1 parameters →
  wf_exclusions n exclusions →
  length exclusion_scales = length exclusions →
  compute_coulomb_energy k_e conformer parameters exclusions exclusion_scales
  = Ok (squeeze_energy conformer
          (map (λ frame,
                  sum_over_pairs n (λ i j,
                    stored_scale exclusions exclusion_scales i j
                    * coulomb_pair_energy k_e parameters frame i j)%R)
               (Batch.frames (as_batch conformer)))).
Proof.
  intros n Hconf Hpar Hex Hlen. unfold compute_coulomb_energy.
  rewrite compute_pairwise_ok by (auto using as_batch_wf). fold n. cbn.
  rewrite (gather_col_triu parameters n 1 0 0 fst Hpar eq_refl)
    by (lia || apply triu_fst_range). cbn.
  rewrite (gather_col_triu parameters n 1 0 0 snd Hpar eq_refl)
    by (lia || apply triu_snd_range). cbn.
  apply (f_equal Ok), (f_equal (squeeze_energy conformer)).
  rewrite !map_map. apply map_ext. intros frame.
  rewrite map_map, zip_with4_map, <- Rsum_triu_indices.
  f_equal. apply map_ext. intros [i j]. cbn [fst snd].
  unfold coulomb_term, coulomb_pair_energy, rsqrt, Rdiv. ring.
Qed.

(** The direct Lennard-Jones kernel, likewise. *)
Lemma compute_lj_energy_sum (conformer : Conformer)
    (parameters : list (list R)) (exclusions : list (Z * Z))
    (exclusion_scales : list R) :
  let n := Batch.n_particles (as_batch conformer) in
  wf_conformer conformer →
  wf_parameters n 2 parameters →
  wf_exclusions n exclusions →
  length exclusion_scales = length exclusions →
  compute_lj_energy conformer parameters exclusions exclusion_scales
  = Ok (squeeze_energy conformer
          (map (λ frame,
                  sum_over_pairs n (λ i j,
                    stored_scale exclusions exclusion_scales i j
                    * lj_pair_energy parameters frame i j)%R)
               (Batch.frames (as_batch conformer)))).
Proof.
  intros n Hconf Hpar Hex Hlen. unfold compute_lj_energy.
  rewrite compute_pairwise_ok by (auto using as_batch_wf). fold n. cbn.
  rewrite (gather_col_triu parameters n 2 0 0 fst Hpar eq_refl)
    by (lia || apply triu_fst_range). cbn.
  rewrite (gather_col_triu parameters n 2 0 0 snd Hpar eq_refl)
    by (lia || apply triu_snd_range). cbn.
  rewrite (gather_col_triu parameters n 2 1 1 fst Hpar eq_refl)
    by (lia || apply triu_fst_range). cbn.
  rewrite (gather_col_triu parameters n 2 1 1 snd Hpar eq_refl)
    by (lia || apply triu_snd_range). cbn.
  apply (f_equal Ok), (f_equal (squeeze_energy conformer)).
  rewrite !map_map. apply map_ext. intros frame.
  rewrite <- Rsum_triu_indices. f_equal.
  rewrite !zip_with_map_same, !map_map, zip_with4_map.
  apply map_ext. intros [i j]. cbn [fst snd].
  unfold lj_term, lj_pair_energy. cbn zeta.
  rewrite float_4, float_1. ring.
Qed.

(** ** The stored scale of a pair *)

Lemma stored_scale_fold_skip (exclusions : list (Z * Z)) (scales : list R)
    (i j : Z) (acc : R) :
  Forall (λ p, ¬ names_pair p i j) exclusions →
  foldl (λ acc es, if decide (es.1 = (i, j) ∨ es.1 = (j, i)) then es.2 else acc)
        acc (zip exclusions scales) = acc.
Proof.
  intros Hno. revert scales acc.
  induction Hno as [|p exclusions Hp Hno IH]; intros scales acc; [reflexivity|].
  destruct scales as [|s scales]; [reflexivity|].
  cbn. rewrite decide_False by exact Hp. apply IH.
Qed.

Lemma stored_scale_not_excluded (exclusions : list (Z * Z)) (scales : list R)
    (i j : Z) :
  Forall (λ p, ¬ names_pair p i j) exclusions →
  stored_scale exclusions scales i j = 1%R.
Proof. apply stored_scale_fold_skip. Qed.



Lemma sum_over_pairs_ext (n : nat) (f g : Z → Z → R) :
  (∀ i j, (0 ≤ i < j)%Z → (j < Z.of_nat n)%Z → f i j = g i j) →
  sum_over_pairs n f = sum_over_pairs n g.
Proof.
  intros Hfg. rewrite <- !Rsum_triu_indices. f_equal.
  apply map_ext_in. intros [i j] Hin. cbn [fst snd].
  apply list_elem_of_In, elem_of_triu_indices in Hin. apply Hfg; lia.
Qed.

(** ** The direct Coulomb kernel *)



(** ** The exhaustive pair enumeration and the dense scale vector *)


Lemma compute_pair_scales_ok (system : System.t) (potential : Potential.t)
    (exclusions : list (Z * Z)) (scales : list R) :
  broadcast_exclusions system potential = Ok (exclusions, scales) →
  wf_exclusions (System.n_particles system) exclusions →
  length scales = length exclusions →
  _compute_pair_scales system potential
  = Ok (map (λ p, stored_scale exclusions scales p.1 p.2)
            (triu_indices (System.n_particles system))).
Proof.
  intros Hbroadcast Hwf Hlen. unfold _compute_pair_scales.
  rewrite Hbroadcast. cbn [mbind result_bind].
  rewrite <- triu_indices_length.
  assert (Hidx :
    map (λ p, Utils.to_upper_tri_idx p.1 p.2
                (Z.of_nat (System.n_particles system)))
        (sort_dim1 exclusions)
    = map (exclusion_1d (Z.of_nat (System.n_particles system)))
          (sort_dim1 exclusions)).
  { apply map_ext. intros [a b]. now rewrite exclusion_1d_upper_tri. }
  rewrite Hidx.
  destruct (decide (0 < length exclusions)) as [Hpos|Hzero].
  - rewrite setitem_ok.
    + now rewrite dense_pair_scales.
    + unfold sort_dim1. now rewrite !length_map.
    + now apply exclusion_1d_in_range.
  - destruct exclusions; [|cbn in Hzero; lia].
    rewrite <- (dense_pair_scales _ [] scales) by constructor.
    reflexivity.
Qed.



(** ** Exclusions are unordered *)

Lemma sort_dim1_swap (k : nat) (exclusions : list (Z * Z)) :
  sort_dim1 (alter (λ p, (p.2, p.1)) k exclusions) = sort_dim1 exclusions.
Proof.
  revert k. induction exclusions as [|p exclusions IH]; intros k; [reflexivity|].
  destruct k as [|k]; cbn.
  - now rewrite Z.min_comm, Z.max_comm.
  - f_equal. apply IH.
Qed.

Lemma compute_pairwise_swap (conformer : Batch.t) (exclusions : list (Z * Z))
    (exclusion_scales : list R) (k : nat) :
  compute_pairwise conformer (alter (λ p, (p.2, p.1)) k exclusions)
    exclusion_scales
  = compute_pairwise conformer exclusions exclusion_scales.
Proof.
  unfold compute_pairwise. now rewrite length_alter, sort_dim1_swap.
Qed.

(** C10: replacing the exclusion entry at any position [k], say [(i, j)], by
    [(j, i)] changes neither the output of [compute_pairwise] nor the result
    of the direct Lennard-Jones and Coulomb kernels (an exception
    included). *)
Theorem direct_kernels_ignore_exclusion_order (k_e : R) (conformer : Conformer)
    (batch : Batch.t) (parameters : list (list R)) (exclusions : list (Z * Z))
    (exclusion_scales : list R) (k : nat) :
  compute_pairwise batch (alter (λ p, (p.2, p.1)) k exclusions) exclusion_scales
  = compute_pairwise batch exclusions exclusion_scales
  ∧ compute_lj_energy conformer parameters
      (alter (λ p, (p.2, p.1)) k exclusions) exclusion_scales
    = compute_lj_energy conformer parameters exclusions exclusion_scales
  ∧ compute_coulomb_energy k_e conformer parameters
      (alter (λ p, (p.2, p.1)) k exclusions) exclusion_scales
    = compute_coulomb_energy k_e conformer parameters exclusions
        exclusion_scales.
Proof.
  split; [|split].
  - apply compute_pairwise_swap.
  - unfold compute_lj_energy. now rewrite compute_pairwise_swap.
  - unfold compute_coulomb_energy. now rewrite compute_pairwise_swap.
Qed.

(** ** Linearity in the scale of an excluded pair *)









Section ScaledSum.

Variables (n : nat) (exclusions : list (Z * Z)) (scales : list R).
Variables (k : nat) (a b : Z) (u : Z → Z → R).
Hypothesis Hwf : wf_exclusions n exclusions.
Hypothesis Hlen : length scales = length exclusions.
Hypothesis Hk : exclusions !! k = Some (a, b).
Hypothesis Hunique : Forall (λ p, ¬ names_pair p a b) (delete k exclusions).







End ScaledSum.



(** ** Broadcasting parameters *)

Lemma matmul_ok (a b : list (list R)) (n_cols : nat) :
  Forall (λ row, length row = length b) a →
  matmul a b n_cols = Ok (matmul_rows a b n_cols).
Proof.
  intros Hrows. unfold matmul, matmul_rows. apply mapM_ok.
  intros row Hrow. rewrite decide_True; [reflexivity|].
  now apply (proj1 (Forall_forall _ _) Hrows).
Qed.

(** [broadcast_parameters] on a system without virtual sites rows missing:
    the blocks of the topologies in order, each the product of assignment
    matrix and parameter table repeated [n_copies] times. *)
Lemma broadcast_parameters_ok (system : System.t) (potential : Potential.t) :
  zip (System.topologies system) (System.n_copies system) ≠ [] →
  Potential.n_cols potential ≠ 0 →
  Forall (assigned potential) (System.topologies system) →
  broadcast_parameters system potential
  = Ok (flat_map
          (λ item,
             concat (replicate item.2
                       (matmul_rows (assignment_of potential item.1)
                          (Potential.parameters potential)
                          (Potential.n_cols potential))))
          (zip (System.topologies system) (System.n_copies system))).
Proof.
  intros Hne Hcols Hassigned. unfold broadcast_parameters.
  rewrite (mapM_ok _ (λ item,
             concat (replicate item.2
                       (matmul_rows (assignment_of potential item.1)
                          (Potential.parameters potential)
                          (Potential.n_cols potential))))).
  - cbn. unfold vstack.
    destruct (zip (System.topologies system) (System.n_copies system))
      as [|item items]; [congruence|].
    cbn [map]. now rewrite flat_map_concat_map.
  - intros [topology n_copies] Hin. cbn [fst snd].
    assert (Htop : topology ∈ System.topologies system).
    { apply list_elem_of_lookup in Hin as [i Hi].
      apply lookup_zip_with_Some in Hi as (t & c & [= <- <-] & Ht & Hc).
      eapply list_elem_of_lookup_2, Ht. }
    destruct (proj1 (Forall_forall _ _) Hassigned _ Htop)
      as ([parameter_map Hmap] & Hlen & Hrows).
    unfold assignment_of in *. rewrite Hmap in *.
    unfold dict_get. rewrite Hmap. cbn.
    rewrite matmul_ok by exact Hrows. cbn.
    unfold broadcast_block.
    rewrite broadcast_to_len_same
      by (unfold matmul_rows; now rewrite length_map).
    cbn. now rewrite decide_False.
Qed.

(** The round trip on a topology without virtual site rows. *)
Lemma broadcast_parameters_round_trip (topology : Topology.t)
    (periodic : bool) (potential : Potential.t) :
  Potential.n_cols potential ≠ 0 →
  assigned potential topology →
  broadcast_parameters (System.mk [topology] [1] periodic) potential
  = Ok (matmul_rows (assignment_of potential topology)
          (Potential.parameters potential) (Potential.n_cols potential)).
Proof.
  intros Hcols Hassigned.
  rewrite broadcast_parameters_ok; cbn; try done.
  - now rewrite !app_nil_r.
  - now constructor.
Qed.

(** C6 (the code at a topology with a virtual site): the assignment matrix
    has one row per particle, four here, while the block is broadcast to
    [n_atoms = 3] rows, which raises; the documented result has one row per
    particle. *)
Theorem broadcast_parameters_virtual_site :
  Topology.n_particles four_site_water = 4
  ∧ length (assignment_of water_charges four_site_water) = 4
  ∧ broadcast_parameters (System.mk [four_site_water] [1] false) water_charges
    = Raise RuntimeError.
Proof.
  split; [reflexivity|]. split; [reflexivity|].
  vm_compute. reflexivity.
Qed.

(** ** Broadcasting exclusions *)

Lemma gather_ok (t : list R) (idxs : list Z) :
  Forall (λ idx, (0 ≤ idx < Z.of_nat (length t))%Z) idxs →
  gather t idxs = Ok (map (λ idx, nth (Z.to_nat idx) t 0%R) idxs).
Proof.
  intros Hidx. unfold gather. apply mapM_ok. intros idx Hin.
  pose proof (proj1 (Forall_forall _ _) Hidx idx Hin) as Hrange.
  cbv beta in Hrange.
  destruct (lookup_lt_is_Some_2 t (Z.to_nat idx) ltac:(lia)) as [x Hx].
  rewrite (getitem_lookup t idx x) by (lia || assumption).
  now rewrite (nth_lookup_Some _ _ _ _ Hx).
Qed.

Lemma particles_before_cons (item : Topology.t * nat)
    (items : list (Topology.t * nat)) (t : nat) :
  particles_before (item :: items) (S t)
  = (Z.of_nat item.2 * Z.of_nat (Topology.n_particles item.1)
     + particles_before items t)%Z.
Proof.
  unfold particles_before. cbn [take map sum_list sum_list_with].
  unfold Datatypes.id at 1. lia.
Qed.

Lemma copy_exclusions_shift (potential : Potential.t) (base base' : Z)
    (topology : Topology.t) (n_copies : nat) :
  base = base' →
  map (λ offset, map (λ p, (offset + p.1, offset + p.2)%Z)
                     (exclusions_of potential topology))
      (map (λ c, (base + Z.of_nat c * Z.of_nat (Topology.n_particles topology))%Z)
           (seq 0 n_copies))
  = map (copy_exclusions potential base' topology) (seq 0 n_copies).
Proof. intros <-. now rewrite map_map. Qed.

Lemma broadcast_exclusions_loop_ok (potential : Potential.t)
    (items : list (Topology.t * nat)) (idx_offset : Z) :
  Forall (λ item, has_exclusions potential item.1) items →
  broadcast_exclusions_loop potential idx_offset items
  = Ok (imap (λ t item,
                flat_map (copy_exclusions potential
                            (idx_offset + particles_before items t) item.1)
                         (seq 0 item.2))
             items,
        map (λ item, concat (replicate item.2 (topology_scales potential item.1)))
            items).
Proof.
  intros Hitems. revert idx_offset.
  induction Hitems as [|[topology n_copies] items [[parameter_map Hmap] Hidx] _ IH];
    intros idx_offset; [reflexivity|].
  cbn [broadcast_exclusions_loop fst snd] in *.
  unfold dict_get. unfold exclusion_scale_idxs_of in Hidx.
  rewrite Hmap in *. cbn [mbind result_bind].
  rewrite gather_ok by exact Hidx. cbn [mbind result_bind].
  rewrite IH. cbn [mbind result_bind fst snd imap map].
  f_equal. f_equal; [f_equal|].
  - rewrite flat_map_concat_map. f_equal.
    unfold copy_exclusions, exclusions_of. rewrite Hmap, map_map.
    apply map_ext. intros c. unfold particles_before. cbn.
    apply map_ext. intros p. f_equal; lia.
  - apply imap_ext. intros t item _. cbn.
    rewrite particles_before_cons. cbn [fst snd].
    do 2 f_equal. lia.
  - f_equal. unfold topology_scales, exclusion_scale_idxs_of.
    now rewrite Hmap.
Qed.

Lemma Forall_zip_fst {A B} (P : A → Prop) (l : list A) (k : list B) :
  Forall P l → Forall (λ item, P item.1) (zip l k).
Proof.
  intros Hl. revert k. induction Hl as [|x l Hx Hl IH]; intros k; [constructor|].
  destruct k as [|y k]; cbn; constructor; auto.
Qed.

(** C8 (amended): the offset of copy [c] of a topology is the number of
    particles of all copies of the preceding topologies plus [c] times the
    particle count of the topology; there is one entry per topology, copy and
    local exclusion, and the scale of an entry is the attribute of the
    potential at the stored index of the exclusion, the same in every
    copy. *)
Theorem broadcast_exclusions_offsets (system : System.t) (potential : Potential.t) :
  zip (System.topologies system) (System.n_copies system) ≠ [] →
  Forall (has_exclusions potential) (System.topologies system) →
  broadcast_exclusions system potential
  = Ok (expected_exclusion_idxs potential
          (zip (System.topologies system) (System.n_copies system)),
        expected_exclusion_scales potential
          (zip (System.topologies system) (System.n_copies system))).
Proof.
  intros Hne Htops. unfold broadcast_exclusions.
  rewrite broadcast_exclusions_loop_ok by (now apply Forall_zip_fst).
  cbn [mbind result_bind fst snd].
  unfold expected_exclusion_idxs, expected_exclusion_scales.
  rewrite flat_map_concat_map.
  rewrite (imap_ext _
             (λ t item,
                flat_map (copy_exclusions potential
                            (particles_before
                               (zip (System.topologies system)
                                    (System.n_copies system)) t) item.1)
                         (seq 0 item.2)))
    by (intros; cbn; now rewrite Z.add_0_l).
  destruct (zip (System.topologies system) (System.n_copies system))
    as [|item items] eqn:Hitems; [congruence|].
  reflexivity.
Qed.

Lemma broadcast_exclusions_offsets_witness :
  broadcast_exclusions two_diatomics lj_scaled
  = Ok ([(0, 1); (2, 3); (4, 5)]%Z, [0; 1; 1]%R).
Proof.
  rewrite broadcast_exclusions_offsets.
  - reflexivity.
  - discriminate.
  - repeat constructor; try (eexists; reflexivity); cbn; lia.
Defined.

(** C8 as stated, refuted: the second topology of [two_diatomics] starts at
    particle 2, so the exclusion of its first copy is [(2, 3)], not the
    local [(0, 1)] shifted by [0 * n_particles]. *)
Lemma broadcast_exclusions_offsets_counterexample :
  ∃ exclusion_idxs exclusion_scales,
    broadcast_exclusions two_diatomics lj_scaled
    = Ok (exclusion_idxs, exclusion_scales)
    ∧ exclusion_idxs
      ≠ claimed_exclusion_idxs lj_scaled
          (zip (System.topologies two_diatomics) (System.n_copies two_diatomics)).
Proof.
  exists [(0, 1); (2, 3); (4, 5)]%Z, [0; 1; 1]%R. split.
  - vm_compute. reflexivity.
  - vm_compute. discriminate.
Qed.

(** ** The PME grid *)

Lemma ceil_spec (x : R) : (IZR (ceil x) - 1 < x <= IZR (ceil x))%R.
Proof.
  unfold ceil. rewrite opp_IZR.
  destruct (base_Int_part (- x)) as [Hle Hgt]. lra.
Qed.

Lemma ceil_least (x : R) (z : Z) : (x <= IZR z)%R → (ceil x ≤ z)%Z.
Proof.
  intros Hz. destruct (ceil_spec x) as [Hlt _].
  assert (Hlt' : (IZR (ceil x) < IZR (z + 1))%R) by (rewrite plus_IZR; lra).
  apply lt_IZR in Hlt'. lia.
Qed.

Lemma float_2 : 2.0%R = 2%R.
Proof. lra. Qed.

Lemma float_5 : 5.0%R = 5%R.
Proof. lra. Qed.

Lemma compute_pme_grid_ok (xx xy xz yx yy yz zx zy zz cutoff tol : R) :
  _compute_pme_grid [[xx; xy; xz]; [yx; yy; yz]; [zx; zy; zz]] cutoff tol
  = Ok (pme_grid_dim tol cutoff xx 6, pme_grid_dim tol cutoff yy 6,
        pme_grid_dim tol cutoff zz 6, ewald_alpha tol cutoff).
Proof.
  unfold _compute_pme_grid, pme_grid_dim, ewald_alpha, _PME_MIN_NODES.
  change (getitem2 [[xx; xy; xz]; [yx; yy; yz]; [zx; zy; zz]] 0 0) with (Ok xx).
  change (getitem2 [[xx; xy; xz]; [yx; yy; yz]; [zx; zy; zz]] 1 1) with (Ok yy).
  change (getitem2 [[xx; xy; xz]; [yx; yy; yz]; [zx; zy; zz]] 2 2) with (Ok zz).
  cbn [mbind result_bind]. rewrite float_2, float_1, float_5. reflexivity.
Qed.

(** C7: the periodic Coulomb path builds its PME object with
    [alpha = sqrt(-ln(2 tol)) / cutoff], with
    [max(ceil(2 alpha / (3 tol^(1/5)) * box_length), 6)] nodes along each
    axis, the box length being the diagonal entry of the box vectors, with
    interpolation order 5 and the tolerance [1e-4]; [ceil] is the least
    integer not below its argument. *)
Theorem pme_grid_parameters (k_e : R) (potential : Potential.t)
    (xx xy xz yx yy yz zx zy zz cutoff : R) (cutoff_idx : Z) :
  list_index "cutoff" (Potential.attribute_cols potential) = Ok cutoff_idx →
  getitem (Potential.attributes potential) cutoff_idx = Ok cutoff →
  _compute_coulomb_energy_periodic_pme k_e
    [[xx; xy; xz]; [yx; yy; yz]; [zx; zy; zz]] potential
  = Ok (mkPME (pme_grid_dim (1 / 10000) cutoff xx 6)
              (pme_grid_dim (1 / 10000) cutoff yy 6)
              (pme_grid_dim (1 / 10000) cutoff zz 6)
              5 (ewald_alpha (1 / 10000) cutoff) k_e)
  ∧ (∀ x, (IZR (ceil x) - 1 < x <= IZR (ceil x))%R)
  ∧ (∀ x z, (x <= IZR z)%R → (ceil x ≤ z)%Z)
  ∧ (∀ tol,
       _compute_pme_grid [[xx; xy; xz]; [yx; yy; yz]; [zx; zy; zz]] cutoff tol
       = Ok (pme_grid_dim tol cutoff xx _PME_MIN_NODES,
             pme_grid_dim tol cutoff yy _PME_MIN_NODES,
             pme_grid_dim tol cutoff zz _PME_MIN_NODES,
             ewald_alpha tol cutoff))
  ∧ _PME_MIN_NODES = 6%Z ∧ _PME_ORDER = 5%Z.
Proof.
  intros Hidx Hcutoff. repeat apply conj.
  - unfold _compute_coulomb_energy_periodic_pme.
    rewrite Hidx. cbn [mbind result_bind]. rewrite Hcutoff.
    cbn [mbind result_bind]. rewrite compute_pme_grid_ok.
    cbn [mbind result_bind].
    replace 0.0001%R with (1 / 10000)%R by lra. reflexivity.
  - apply ceil_spec.
  - apply ceil_least.
  - intros tol. apply compute_pme_grid_ok.
  - reflexivity.
  - reflexivity.
Qed.

Lemma pme_grid_parameters_witness :
  _compute_coulomb_energy_periodic_pme 332.0637
    [[30; 0; 0]; [0; 30; 0]; [0; 0; 30]]%R water_charges
  = Ok (mkPME (pme_grid_dim (1 / 10000) 9 30 6)
              (pme_grid_dim (1 / 10000) 9 30 6)
              (pme_grid_dim (1 / 10000) 9 30 6)
              5 (ewald_alpha (1 / 10000) 9) 332.0637).
Proof.
  apply (pme_grid_parameters 332.0637 water_charges
           30 0 0 0 30 0 0 0 30 9 2); reflexivity.
Defined.

(** ** The periodic Lennard-Jones kernel: switching *)

Lemma float_0 : 0.0%R = 0%R.
Proof. lra. Qed.

Lemma float_6 : 6.0%R = 6%R.
Proof. lra. Qed.

Lemma float_10 : 10.0%R = 10%R.
Proof. lra. Qed.

Lemma float_15 : 15.0%R = 15%R.
Proof. lra. Qed.

Lemma switch_value_quintic (r_s r_c r : R) :
  (r_s <= r_c)%R → switch_value r_s r_c r = quintic_switch r_s r_c r.
Proof.
  intros Hle. unfold switch_value, quintic_switch.
  rewrite float_0, float_1, float_6, float_10, float_15.
  destruct (Rgt_dec r r_c) as [Hgt|Hngt]; destruct (Rlt_dec r r_s) as [Hlt|Hnlt];
    try reflexivity.
  lra.
Qed.

Lemma quintic_switch_below (r_s r_c r : R) :
  (r < r_s)%R → quintic_switch r_s r_c r = 1%R.
Proof. intros H. unfold quintic_switch. now destruct (Rlt_dec r r_s). Qed.

Lemma quintic_switch_above (r_s r_c r : R) :
  (r_s <= r_c)%R → (r_c < r)%R → quintic_switch r_s r_c r = 0%R.
Proof.
  intros Hle H. unfold quintic_switch.
  destruct (Rlt_dec r r_s); [lra|]. destruct (Rgt_dec r r_c); [reflexivity|lra].
Qed.

Lemma quintic_switch_between (r_s r_c r : R) :
  (r_s <= r <= r_c)%R →
  quintic_switch r_s r_c r
  = (1 - 6 * ((r - r_s) / (r_c - r_s)) ^ 5
     + 15 * ((r - r_s) / (r_c - r_s)) ^ 4
     - 10 * ((r - r_s) / (r_c - r_s)) ^ 3)%R.
Proof.
  intros H. unfold quintic_switch.
  destruct (Rlt_dec r r_s); [lra|]. destruct (Rgt_dec r r_c); [lra|reflexivity].
Qed.

(** The switching function is continuous at both ends of the switching
    region. *)
Lemma quintic_switch_ends (r_s r_c : R) :
  (r_s < r_c)%R →
  quintic_switch r_s r_c r_s = 1%R ∧ quintic_switch r_s r_c r_c = 0%R.
Proof.
  intros Hlt. rewrite !quintic_switch_between by lra. split.
  - replace (r_s - r_s)%R with 0%R by lra. unfold Rdiv. rewrite Rmult_0_l. lra.
  - unfold Rdiv. rewrite Rinv_r by lra. lra.
Qed.

Lemma zip_with4_ext {A B C D E} (f g : A → B → C → D → E)
    (a : list A) (b : list B) (c : list C) (d : list D) :
  (∀ w x y z, f w x y z = g w x y z) →
  zip_with4 f a b c d = zip_with4 g a b c d.
Proof.
  intros Hfg. unfold zip_with4. apply zip_with_ext; [|reflexivity..].
  intros [w x] [y z]. apply Hfg.
Qed.

Lemma zip_with_switch {A B C D E F} (g : D → F) (h : F → A → B → C → D → E)
    (a : list A) (b : list B) (c : list C) (d : list D) :
  zip_with (λ sw t, h sw t.1.1 t.1.2 t.2.1 t.2.2) (map g d)
           (zip (zip a b) (zip c d))
  = zip_with4 (λ w x y z, h (g z) w x y z) a b c d.
Proof.
  unfold zip_with4. revert a b c.
  induction d as [|z d IH]; intros a b c.
  - destruct c; cbn; now destruct (zip a b).
  - destruct c as [|y c]; [cbn; now destruct (zip a b)|].
    destruct a as [|w a]; [reflexivity|].
    destruct b as [|x b]; [reflexivity|].
    cbn. f_equal. apply IH.
Qed.

Lemma lj_periodic_term_12_6 (switch_fn pair_scale epsilon sigma distance : R) :
  lj_periodic_term switch_fn pair_scale epsilon sigma distance
  = (switch_fn * (pair_scale * lj_12_6 epsilon sigma distance))%R.
Proof.
  unfold lj_periodic_term, lj_12_6. cbn zeta. rewrite float_4, float_1. ring.
Qed.

(** C2: in the periodic Lennard-Jones kernel the term of every neighbour
    pair, [scale * 4 epsilon ((sigma/r)^12 - (sigma/r)^6)], is multiplied by
    [S(r)] when the potential has a ['switch_width'] column, where [S] is one
    below [r_s = cutoff - switch_width], zero above the cutoff and the
    quintic in between; without the column the terms are summed with no
    factor. The statement is about the pairwise sum of line 363, given that
    the steps before it succeed. *)
Theorem periodic_lj_switching
    (getNeighborPairs : Frame → R → list (list R) → list NeighborSlot)
    (system : System.t) (conformer : Frame) (box_vectors : list (list R))
    (potential : Potential.t) (volume cutoff : R) (cutoff_idx : Z)
    (parameters : list (list R))
    (dense_scales pair_scales epsilon_a epsilon_b sigma_a sigma_b : list R) :
  System.is_periodic system = true →
  det box_vectors = Ok volume →
  broadcast_parameters system potential = Ok parameters →
  _compute_pair_scales system potential = Ok dense_scales →
  list_index "cutoff" (Potential.attribute_cols potential) = Ok cutoff_idx →
  getitem (Potential.attributes potential) cutoff_idx = Ok cutoff →
  gather dense_scales
    (map (λ p, Utils.to_upper_tri_idx p.1 p.2 (Z.of_nat (length parameters)))
         (neighbor_pairs getNeighborPairs conformer box_vectors cutoff))
  = Ok pair_scales →
  gather_col parameters
    (neighbor_pairs getNeighborPairs conformer box_vectors cutoff).*1 0
  = Ok epsilon_a →
  gather_col parameters
    (neighbor_pairs getNeighborPairs conformer box_vectors cutoff).*2 0
  = Ok epsilon_b →
  gather_col parameters
    (neighbor_pairs getNeighborPairs conformer box_vectors cutoff).*1 1
  = Ok sigma_a →
  gather_col parameters
    (neighbor_pairs getNeighborPairs conformer box_vectors cutoff).*2 1
  = Ok sigma_b →
  (∀ switch_width_idx width,
     list_contains "switch_width" (Potential.attribute_cols potential) = true →
     list_index "switch_width" (Potential.attribute_cols potential)
     = Ok switch_width_idx →
     getitem (Potential.attributes potential) switch_width_idx = Ok width →
     (0 < width)%R →
     _compute_lj_energy_periodic_pairs getNeighborPairs system conformer
       box_vectors potential
     = Ok (switched_pair_sum (quintic_switch (cutoff - width) cutoff)
             pair_scales
             (lorentz_berthelot epsilon_a epsilon_b sigma_a sigma_b).1
             (lorentz_berthelot epsilon_a epsilon_b sigma_a sigma_b).2
             (neighbor_distances getNeighborPairs conformer box_vectors cutoff),
           Some (cutoff - width)%R, cutoff, volume))
  ∧ (list_contains "switch_width" (Potential.attribute_cols potential) = false →
     _compute_lj_energy_periodic_pairs getNeighborPairs system conformer
       box_vectors potential
     = Ok (plain_pair_sum pair_scales
             (lorentz_berthelot epsilon_a epsilon_b sigma_a sigma_b).1
             (lorentz_berthelot epsilon_a epsilon_b sigma_a sigma_b).2
             (neighbor_distances getNeighborPairs conformer box_vectors cutoff),
           None, cutoff, volume))
  ∧ (∀ r_s r_c r,
       ((r < r_s)%R → quintic_switch r_s r_c r = 1%R)
       ∧ ((r_s <= r_c)%R → (r_c < r)%R → quintic_switch r_s r_c r = 0%R)
       ∧ ((r_s <= r <= r_c)%R →
          quintic_switch r_s r_c r
          = (1 - 6 * ((r - r_s) / (r_c - r_s)) ^ 5
             + 15 * ((r - r_s) / (r_c - r_s)) ^ 4
             - 10 * ((r - r_s) / (r_c - r_s)) ^ 3)%R)).
Proof.
  intros Hperiodic Hdet Hparameters Hdense Hidx Hcutoff.
  unfold neighbor_pairs, neighbor_distances.
  intros Hscales Hea Heb Hsa Hsb.
  assert (Hprefix :
    _compute_lj_energy_periodic_pairs getNeighborPairs system conformer
      box_vectors potential
    = (switch_width ←
         (if list_contains "switch_width" (Potential.attribute_cols potential)
          then
            switch_width_idx ← list_index "switch_width"
                                 (Potential.attribute_cols potential);
            width ← getitem (Potential.attributes potential) switch_width_idx;
            Ok (Some (cutoff - width)%R)
          else Ok None);
       let switch_fn :=
         match switch_width with
         | Some switch_width =>
             map (switch_value switch_width cutoff)
                 (_compute_pairwise getNeighborPairs conformer box_vectors cutoff).2
         | None =>
             map (λ _, 1.0%R)
                 (_compute_pairwise getNeighborPairs conformer box_vectors cutoff).2
         end in
       Ok (Rsum (zip_with
                   (λ sw t, lj_periodic_term sw t.1.1 t.1.2 t.2.1 t.2.2)
                   switch_fn
                   (zip (zip pair_scales
                           (lorentz_berthelot epsilon_a epsilon_b sigma_a sigma_b).1)
                        (zip (lorentz_berthelot epsilon_a epsilon_b sigma_a sigma_b).2
                           (_compute_pairwise getNeighborPairs conformer
                              box_vectors cutoff).2))),
           switch_width, cutoff, volume))).
  { unfold _compute_lj_energy_periodic_pairs.
    rewrite Hperiodic, Hdet. cbn [mbind result_bind].
    rewrite Hparameters. cbn [mbind result_bind].
    rewrite Hdense. cbn [mbind result_bind].
    rewrite Hidx. cbn [mbind result_bind].
    rewrite Hcutoff. cbn [mbind result_bind].
    destruct (_compute_pairwise getNeighborPairs conformer box_vectors cutoff)
      as [[pairs deltas] distances].
    cbn [fst snd] in *.
    rewrite Hscales. cbn [mbind result_bind].
    rewrite Hea. cbn [mbind result_bind].
    rewrite Heb. cbn [mbind result_bind].
    rewrite Hsa. cbn [mbind result_bind].
    rewrite Hsb. cbn [mbind result_bind].
    reflexivity. }
  split; [|split].
  - intros switch_width_idx width Hin Hsw Hwidth Hpos.
    rewrite Hprefix, Hin, Hsw. cbn [mbind result_bind].
    rewrite Hwidth. cbn [mbind result_bind].
    unfold switched_pair_sum. rewrite zip_with_switch.
    do 5 f_equal. apply zip_with4_ext. intros scale e s r.
    rewrite lj_periodic_term_12_6, switch_value_quintic by lra. reflexivity.
  - intros Hnotin. rewrite Hprefix, Hnotin. cbn [mbind result_bind].
    unfold plain_pair_sum. rewrite zip_with_switch.
    do 5 f_equal. apply zip_with4_ext. intros scale e s r.
    rewrite lj_periodic_term_12_6, float_1. ring.
  - intros r_s r_c r. split; [|split].
    + apply quintic_switch_below.
    + apply quintic_switch_above.
    + apply quintic_switch_between.
Qed.

Lemma periodic_lj_switching_witness :
  ∃ pair_scales epsilon sigma distances volume,
    _compute_lj_energy_periodic_pairs two_neighbors periodic_diatomics
      four_particles cubic_box lj_switched
    = Ok (switched_pair_sum (quintic_switch (9 - 1) 9)
            pair_scales epsilon sigma distances,
          Some (9 - 1)%R, 9%R, volume).
Proof.
  do 5 eexists.
  edestruct (periodic_lj_switching two_neighbors periodic_diatomics
               four_particles cubic_box lj_switched) as [Hswitched _].
  12: { eapply (Hswitched 2%Z 1%R); [reflexivity|reflexivity|reflexivity|lra]. }
  all: reflexivity.
Defined.

(** ** The dispersion correction of the periodic Lennard-Jones path *)

(** Without a cutoff, and with a switch distance, the terms of the correction
    are not computed: the assertion of [_compute_dispersion_term] fails. *)
Lemma compute_dispersion_term_asserts (count epsilon sigma : list R)
    (switch_width : R) :
  _compute_dispersion_term count epsilon sigma None (Some switch_width)
  = Raise AssertionError.
Proof. reflexivity. Qed.

Lemma compute_dispersion_correction_raises (system : System.t)
    (potential : Potential.t) (switch_width volume : R) :
  raises (_compute_dispersion_correction system potential None
            (Some switch_width) volume).
Proof.
  unfold _compute_dispersion_correction, raises.
  destruct (count_by_type _ _ _); cbn [mbind result_bind]; [|eauto].
  destruct (parameter_column potential 0); cbn [mbind result_bind]; [|eauto].
  destruct (parameter_column potential 1); cbn [mbind result_bind]; [|eauto].
  rewrite compute_dispersion_term_asserts. cbn [mbind result_bind]. eauto.
Qed.

(** The switch distance that the pairwise part hands on is [None] when the
    potential has no ['switch_width'] column. *)
Lemma periodic_pairs_without_switch
    (getNeighborPairs : Frame → R → list (list R) → list NeighborSlot)
    (system : System.t) (conformer : Frame) (box_vectors : list (list R))
    (potential : Potential.t) (energy : R) (switch_width : option R)
    (cutoff volume : R) :
  list_contains "switch_width" (Potential.attribute_cols potential) = false →
  _compute_lj_energy_periodic_pairs getNeighborPairs system conformer
    box_vectors potential
  = Ok (energy, switch_width, cutoff, volume) →
  switch_width = None.
Proof.
  intros Hnotin. unfold _compute_lj_energy_periodic_pairs.
  rewrite Hnotin. unfold mbind, result_bind.
  repeat match goal with
         | |- context [match ?m with Ok _ => _ | Raise _ => _ end] =>
             destruct m; try discriminate
         | |- context [match ?m with (_, _) => _ end] => destruct m
         | |- context [if ?b then _ else _] => destruct b; try discriminate
         end.
  now intros [= _ <- _ _].
Qed.

(** Whatever the system, a potential without a ['switch_width'] column makes
    the periodic Lennard-Jones path raise. *)
Lemma periodic_lj_without_switch_raises
    (getNeighborPairs : Frame → R → list (list R) → list NeighborSlot)
    (system : System.t) (conformer : Frame) (box_vectors : list (list R))
    (potential : Potential.t) :
  list_contains "switch_width" (Potential.attribute_cols potential) = false →
  raises (_compute_lj_energy_periodic getNeighborPairs system conformer
            box_vectors potential).
Proof.
  intros Hnotin. unfold _compute_lj_energy_periodic.
  destruct (_compute_lj_energy_periodic_pairs _ _ _ _ _)
    as [[[[energy switch_width] cutoff] volume]|e] eqn:Hpairs;
    cbn [mbind result_bind]; [|unfold raises; eauto].
  apply periodic_pairs_without_switch in Hpairs as ->; [|exact Hnotin].
  destruct (compute_dispersion_correction_raises system potential cutoff volume)
    as [e He].
  rewrite He. cbn [mbind result_bind]. unfold raises. eauto.
Qed.

(** *** The correction is symmetric in the two distances *)

Lemma tail_bracket_symmetric (r_s r_c sigma : R) :
  (0 < r_s)%R → (0 < r_c)%R → r_s ≠ r_c →
  tail_bracket r_s r_c sigma = tail_bracket r_c r_s sigma.
Proof.
  intros Hs Hc Hne. unfold tail_bracket, _compute_dispersion_integral.
  cbv zeta. set (ln_s := ln r_s). set (ln_c := ln r_c).
  field. repeat split; lra.
Qed.

Lemma zip_sum_linear (w sigma : list R) (f g h : R → R) (a b : R) :
  Rsum (zip_with Rmult w (map (λ x, a * f x - b * g x + h x)%R sigma))
  = (a * Rsum (zip_with Rmult w (map f sigma))
     - b * Rsum (zip_with Rmult w (map g sigma))
     + Rsum (zip_with Rmult w (map h sigma)))%R.
Proof.
  unfold Rsum.
  revert w. induction sigma as [|y sigma IH]; intros [|x w]; cbn; try lra.
  rewrite IH. lra.
Qed.

Lemma map_sum_linear_l (x : R) (sigma : list R) (f g h : R → R) (a b : R) :
  Rsum (map (Rmult x) (map (λ x, a * f x - b * g x + h x)%R sigma))
  = (a * Rsum (map (Rmult x) (map f sigma))
     - b * Rsum (map (Rmult x) (map g sigma))
     + Rsum (map (Rmult x) (map h sigma)))%R.
Proof.
  unfold Rsum. induction sigma as [|y sigma IH]; cbn; [lra|]. rewrite IH. lra.
Qed.

Lemma map_sum_linear_r (w : list R) (u v t a b : R) :
  Rsum (map (λ x, x * (a * u - b * v + t))%R w)
  = (a * Rsum (map (λ x, x * u)%R w) - b * Rsum (map (λ x, x * v)%R w)
     + Rsum (map (λ x, x * t)%R w))%R.
Proof.
  unfold Rsum. induction w as [|x w IH]; cbn; [lra|]. rewrite IH. lra.
Qed.

(** Multiplying weights into a per-type term and summing either fails for
    every term, by the shapes alone, or is a linear functional of the
    term. *)
Lemma ewise_sum_cases (w sigma : list R) :
  (∃ e, ∀ f, ewise Rmult w (map f sigma) = Raise e)
  ∨ (∃ L, linear_functional L
          ∧ ∀ f, ∃ r, ewise Rmult w (map f sigma) = Ok r ∧ Rsum r = L f).
Proof.
  unfold ewise.
  destruct (decide (length w = length sigma)) as [Hlen|Hlen].
  - right. exists (λ f, Rsum (zip_with Rmult w (map f sigma))).
    split; [split|].
    + intros f g Hfg. do 2 f_equal. now apply map_ext.
    + intros f g h a b. apply zip_sum_linear.
    + intros f. eexists. split; [|reflexivity].
      now rewrite decide_True by (now rewrite length_map).
  - destruct w as [|x [|x' w]].
    + destruct sigma as [|y [|y' sigma]]; [done| |].
      * right. exists (λ f, 0%R). split; [split|].
        -- reflexivity.
        -- intros. lra.
        -- intros f. exists []. split; [|reflexivity].
           now rewrite decide_False by (rewrite length_map; exact Hlen).
      * left. exists RuntimeError. intros f.
        now rewrite decide_False by (rewrite length_map; exact Hlen).
    + right. exists (λ f, Rsum (map (Rmult x) (map f sigma))).
      split; [split|].
      * intros f g Hfg. do 2 f_equal. now apply map_ext.
      * intros f g h a b. apply map_sum_linear_l.
      * intros f. eexists. split; [|reflexivity].
        now rewrite decide_False by (rewrite length_map; exact Hlen).
    + destruct sigma as [|y [|y' sigma]].
      * left. exists RuntimeError. intros f.
        now rewrite decide_False by (rewrite length_map; exact Hlen).
      * right. exists (λ f, Rsum (map (λ z, z * f y)%R (x :: x' :: w))).
        split; [split|].
        -- intros f g Hfg. now rewrite Hfg.
        -- intros f g h a b. apply map_sum_linear_r.
        -- intros f. eexists. split; [|reflexivity].
           now rewrite decide_False by (rewrite length_map; exact Hlen).
      * left. exists RuntimeError. intros f.
        now rewrite decide_False by (rewrite length_map; exact Hlen).
Qed.

Lemma compute_dispersion_term_cases (count epsilon sigma : list R) :
  (∃ e, ∀ c s,
     _compute_dispersion_term count epsilon sigma (Some c) (Some s) = Raise e)
  ∨ (∃ L, linear_functional L
          ∧ ∀ c s,
              _compute_dispersion_term count epsilon sigma (Some c) (Some s)
              = Ok [L (λ x, x ^ 6 * x ^ 6)%R; L (λ x, x ^ 6)%R;
                    L (λ x, _compute_dispersion_integral c s c x
                            - _compute_dispersion_integral s s c x)%R]).
Proof.
  unfold _compute_dispersion_term. cbn [app mbind result_bind].
  rewrite zip_with_map_same.
  destruct (ewise Rmult count epsilon) as [w|e]; cbn [mbind result_bind];
    [|left; now exists e].
  destruct (ewise_sum_cases w sigma) as [[e He]|(L & HL & Hsum)].
  - left. exists e. intros c s. cbn [mapM]. rewrite (He (λ x, x ^ 6 * x ^ 6)%R). reflexivity.
  - right. exists L. split; [exact HL|]. intros c s. cbn [mapM].
    destruct (Hsum (λ x, x ^ 6 * x ^ 6)%R) as (r0 & -> & <-).
    destruct (Hsum (λ x, x ^ 6)%R) as (r1 & -> & <-).
    destruct (Hsum (λ x, _compute_dispersion_integral c s c x
                         - _compute_dispersion_integral s s c x)%R)
      as (r2 & -> & <-).
    reflexivity.
Qed.

Lemma linear_functional_bracket (L : (R → R) → R) (c s : R) :
  linear_functional L →
  (L (λ x, x ^ 6 * x ^ 6) / (9 * c ^ 9) - L (λ x, x ^ 6) / (3 * c ^ 3)
   + L (λ x, _compute_dispersion_integral c s c x
             - _compute_dispersion_integral s s c x))%R
  = L (tail_bracket s c).
Proof.
  intros [Hext Hlin].
  rewrite (Hext (tail_bracket s c)
             (λ x, / (9 * c ^ 9) * (x ^ 6 * x ^ 6) - / (3 * c ^ 3) * x ^ 6
                   + (_compute_dispersion_integral c s c x
                      - _compute_dispersion_integral s s c x))%R).
  - rewrite Hlin. unfold Rdiv. ring.
  - intros x. unfold tail_bracket, Rdiv. ring.
Qed.

(** With both distances given, positive and distinct, the correction does not
    depend on which of the two is passed as the cutoff. *)
Lemma compute_dispersion_correction_symmetric (system : System.t)
    (potential : Potential.t) (c s volume : R) :
  (0 < c)%R → (0 < s)%R → c ≠ s →
  _compute_dispersion_correction system potential (Some c) (Some s) volume
  = _compute_dispersion_correction system potential (Some s) (Some c) volume.
Proof.
  intros Hc Hs Hne. unfold _compute_dispersion_correction.
  destruct (count_by_type _ _ _) as [n_by_type|]; cbn [mbind result_bind];
    [|reflexivity].
  destruct (parameter_column potential 0) as [eps_ii|]; cbn [mbind result_bind];
    [|reflexivity].
  destruct (parameter_column potential 1) as [sig_ii|]; cbn [mbind result_bind];
    [|reflexivity].
  match goal with
  | |- context [_compute_dispersion_term ?n eps_ii sig_ii _ _] =>
      destruct (compute_dispersion_term_cases n eps_ii sig_ii)
        as [[e He]|(L1 & HL1 & Hterm1)]
  end.
  { now rewrite !He. }
  rewrite !Hterm1. cbn [mbind result_bind].
  repeat match goal with
         | |- context [mbind _ (gather ?t ?i)] =>
             destruct (gather t i); cbn [mbind result_bind]; [|reflexivity]
         | |- context [mbind _ (ewise ?f ?a ?b)] =>
             destruct (ewise f a b); cbn [mbind result_bind]; [|reflexivity]
         end.
  match goal with
  | |- context [lorentz_berthelot ?a ?b ?u ?v] =>
      destruct (lorentz_berthelot a b u v) as [eps_ij sig_ij]
  end.
  match goal with
  | |- context [_compute_dispersion_term ?n eps_ij sig_ij _ _] =>
      destruct (compute_dispersion_term_cases n eps_ij sig_ij)
        as [[e He]|(L2 & HL2 & Hterm2)]
  end.
  { now rewrite !He. }
  rewrite !Hterm2. cbn [mbind result_bind zip_with map].
  match goal with
  | |- context [getitem [?u; ?v; ?t] 0] =>
      change (getitem [u; v; t] 0) with (Ok u);
      change (getitem [u; v; t] 1) with (Ok v);
      change (getitem [u; v; t] 2) with (Ok t)
  end.
  match goal with
  | |- _ = mbind _ (getitem [?u; ?v; ?t] 0) =>
      change (getitem [u; v; t] 0) with (Ok u);
      change (getitem [u; v; t] 1) with (Ok v);
      change (getitem [u; v; t] 2) with (Ok t)
  end.
  cbn [mbind result_bind]. f_equal. f_equal. f_equal.
  pose proof (linear_functional_bracket L1 c s HL1) as H1cs.
  pose proof (linear_functional_bracket L2 c s HL2) as H2cs.
  pose proof (linear_functional_bracket L1 s c HL1) as H1sc.
  pose proof (linear_functional_bracket L2 s c HL2) as H2sc.
  assert (HL1sym : L1 (tail_bracket s c) = L1 (tail_bracket c s)).
  { apply HL1. intros x. now apply tail_bracket_symmetric. }
  assert (HL2sym : L2 (tail_bracket s c) = L2 (tail_bracket c s)).
  { apply HL2. intros x. now apply tail_bracket_symmetric. }
  match goal with
  | |- (?a0 / ?n / ?d0 - ?a1 / ?n / ?d1 + ?a2 / ?n
        = ?b0 / ?n / ?e0 - ?b1 / ?n / ?e1 + ?b2 / ?n)%R =>
      set (inv_n := (/ n)%R)
  end.
  unfold Rdiv in *. fold inv_n.
  match goal with
  | |- ?lhs = ?rhs =>
      transitivity ((L1 (tail_bracket s c) + L2 (tail_bracket s c)) * inv_n)%R;
        [rewrite <- H1cs, <- H2cs; ring
        |rewrite HL1sym, HL2sym, <- H1sc, <- H2sc; ring]
  end.
Qed.

(** With a ['switch_width'] column the call of the periodic path, which
    passes the switch distance as [cutoff] and the cutoff as [switch_width],
    yields the value of the documented argument order. *)
Lemma periodic_lj_swapped_call_value (system : System.t)
    (potential : Potential.t) (cutoff width volume : R) :
  (0 < width < cutoff)%R →
  _compute_dispersion_correction system potential
    (Some (cutoff - width)%R) (Some cutoff) volume
  = _compute_dispersion_correction system potential
      (Some cutoff) (Some (cutoff - width)%R) volume.
Proof.
  intros Hwidth. apply compute_dispersion_correction_symmetric; lra.
Qed.

Lemma compute_dispersion_correction_asserts (system : System.t)
    (potential : Potential.t) (n_by_type : gmap string R)
    (eps_ii sig_ii : list R) (switch_width volume : R) :
  count_by_type potential ∅
    (zip (System.topologies system) (System.n_copies system)) = Ok n_by_type →
  parameter_column potential 0 = Ok eps_ii →
  parameter_column potential 1 = Ok sig_ii →
  _compute_dispersion_correction system potential None (Some switch_width) volume
  = Raise AssertionError.
Proof.
  intros Hcount Heps Hsig. unfold _compute_dispersion_correction.
  rewrite Hcount. cbn [mbind result_bind].
  rewrite Heps. cbn [mbind result_bind].
  rewrite Hsig. cbn [mbind result_bind].
  now rewrite compute_dispersion_term_asserts.
Qed.

(** C1 (the code on a potential without a ['switch_width'] column): the
    pairwise sum is computed, with no switch distance; the call of
    [_compute_dispersion_correction] then passes [None] as [cutoff] and the
    cutoff as [switch_width], the assertion of [_compute_dispersion_term]
    fails, and no correction is added. *)
Theorem periodic_lj_without_switch_width :
  (∃ energy volume,
     _compute_lj_energy_periodic_pairs two_neighbors periodic_diatomics
       four_particles cubic_box lj_plain
     = Ok (energy, None, 9%R, volume))
  ∧ (∀ volume,
       _compute_dispersion_correction periodic_diatomics lj_plain
         None (Some 9%R) volume
       = Raise AssertionError)
  ∧ _compute_lj_energy_periodic two_neighbors periodic_diatomics
      four_particles cubic_box lj_plain
    = Raise AssertionError.
Proof.
  assert (Hpairs : ∃ energy volume,
     _compute_lj_energy_periodic_pairs two_neighbors periodic_diatomics
       four_particles cubic_box lj_plain
     = Ok (energy, None, 9%R, volume)).
  { do 2 eexists. reflexivity. }
  assert (Hcorrection : ∀ volume,
       _compute_dispersion_correction periodic_diatomics lj_plain
         None (Some 9%R) volume
       = Raise AssertionError).
  { intros volume.
    eapply compute_dispersion_correction_asserts; [|reflexivity|reflexivity].
    cbn [System.topologies System.n_copies periodic_diatomics zip zip_with
         count_by_type].
    unfold diatomic at 1. cbn [Topology.parameters].
    unfold dict_get. rewrite lookup_singleton_eq. reflexivity. }
  split; [exact Hpairs|]. split; [exact Hcorrection|].
  destruct Hpairs as (energy & volume & Hpairs).
  unfold _compute_lj_energy_periodic. rewrite Hpairs.
  cbn [mbind result_bind]. now rewrite Hcorrection.
Qed.

(** ** The registry after the import of [smee.potentials.nonbonded] *)

(** The two decorators of the module, run on the registry with the
    Lennard-Jones kernel already recorded: the Coulomb kernel is recorded and
    dispatched to, and decorating a second Lennard-Jones kernel raises. *)
Lemma potential_energy_fn_registers_witness :
  potential_energy_fn "vdW" _LJ_POTENTIAL (compute_coulomb_energy 332.0637)
    ({[ ("vdW"%string, _LJ_POTENTIAL) := compute_lj_energy ]}
       : gmap (string * string) Kernel)
  = (Raise KeyError, {[ ("vdW"%string, _LJ_POTENTIAL) := compute_lj_energy ]})
  ∧ ∃ registry',
      potential_energy_fn "Electrostatics" _COULOMB_POTENTIAL
        (compute_coulomb_energy 332.0637)
        ({[ ("vdW"%string, _LJ_POTENTIAL) := compute_lj_energy ]}
           : gmap (string * string) Kernel)
      = (Ok (compute_coulomb_energy 332.0637), registry')
      ∧ lookup_energy_fn registry' water_charges
        = Ok (compute_coulomb_energy 332.0637)
      ∧ lookup_energy_fn registry' lj_switched = Ok compute_lj_energy.
Proof.
  split.
  - apply (proj1 (potential_energy_fn_registers "vdW" _LJ_POTENTIAL
                    (compute_coulomb_energy 332.0637) _)).
    rewrite lookup_singleton_eq. eauto.
  - destruct (proj2 (potential_energy_fn_registers "Electrostatics"
                       _COULOMB_POTENTIAL (compute_coulomb_energy 332.0637)
                       ({[ ("vdW"%string, _LJ_POTENTIAL) := compute_lj_energy ]}
                          : gmap (string * string) Kernel)))
      as (registry' & Hrun & Hfound & Hkept).
    + now apply lookup_singleton_ne.
    + exists registry'. split; [exact Hrun|]. split.
      * now apply Hfound.
      * unfold lookup_energy_fn, dict_get.
        rewrite Hkept by discriminate.
        cbn [Potential.type Potential.fn lj_switched].
        now rewrite lookup_singleton_eq.
Defined.

(** * Further properties of the code *)

(** ** The combination rules *)

(** X1: the Lorentz-Berthelot rules are symmetric: exchanging the two
    particles of every pair gives the same epsilon and sigma. *)
Theorem lorentz_berthelot_symmetric (epsilon_a epsilon_b sigma_a sigma_b : list R) :
  lorentz_berthelot epsilon_a epsilon_b sigma_a sigma_b
  = lorentz_berthelot epsilon_b epsilon_a sigma_b sigma_a.
Proof.
  unfold lorentz_berthelot. f_equal; f_equal.
  - revert epsilon_b. induction epsilon_a as [|x a IH]; intros [|y b];
      cbn; try reflexivity.
    now rewrite IH, Rmult_comm.
  - revert sigma_b. induction sigma_a as [|x a IH]; intros [|y b];
      cbn; try reflexivity.
    now rewrite IH, Rplus_comm.
Qed.

(** X2: combining particles with themselves gives back their own parameters,
    provided that no epsilon is negative. *)
Theorem lorentz_berthelot_self (epsilon sigma : list R) :
  Forall (λ e, (0 <= e)%R) epsilon →
  lorentz_berthelot epsilon epsilon sigma sigma = (epsilon, sigma).
Proof.
  intros Hpos. unfold lorentz_berthelot. f_equal.
  - induction Hpos as [|e epsilon He _ IH]; [reflexivity|].
    cbn in *. now rewrite IH, sqrt_square.
  - induction sigma as [|s sigma IH]; [reflexivity|].
    cbn in *. rewrite IH. f_equal. lra.
Qed.

Lemma lorentz_berthelot_self_witness :
  lorentz_berthelot [0.25; 0]%R [0.25; 0]%R [3; 1.5]%R [3; 1.5]%R
  = ([0.25; 0]%R, [3; 1.5]%R).
Proof.
  apply lorentz_berthelot_self. repeat constructor; lra.
Defined.

(** ** The neighbour list of the periodic path *)

(** X3: [_compute_pairwise] returns one pair, one displacement and one
    distance for each slot of the neighbour list whose distance is not NaN,
    in the order of the list; each pair is the pair of its slot in ascending
    order, and the distance is the distance of that slot. *)
Theorem compute_pairwise_neighbours
    (getNeighborPairs : Frame → R → list (list R) → list NeighborSlot)
    (conformer : Frame) (box_vectors : list (list R)) (cutoff : R) :
  let slots := interacting_slots (getNeighborPairs conformer cutoff box_vectors) in
  let result := _compute_pairwise getNeighborPairs conformer box_vectors cutoff in
  length result.1.1 = length slots
  ∧ length result.1.2 = length slots
  ∧ length result.2 = length slots
  ∧ Forall (λ p, (p.1 ≤ p.2)%Z) result.1.1
  ∧ ∀ k slot, slots !! k = Some slot →
      result.1.1 !! k
      = Some (Z.min (slot_pair slot).1 (slot_pair slot).2,
              Z.max (slot_pair slot).1 (slot_pair slot).2)
      ∧ result.1.2 !! k = Some (slot_delta slot)
      ∧ ∃ distance, slot_distance slot = Some distance
                    ∧ result.2 !! k = Some distance.
Proof.
  intros slots result. unfold result, _compute_pairwise. cbn [fst snd].
  fold (interacting_slots (getNeighborPairs conformer cutoff box_vectors)).
  fold slots.
  assert (Hsome : Forall (λ s, is_Some (slot_distance s)) slots).
  { unfold slots, interacting_slots. apply Forall_forall.
    intros s Hs. now apply list_elem_of_filter in Hs as [Hs _]. }
  assert (Hdist : ∀ k slot, slots !! k = Some slot →
            ∃ distance, slot_distance slot = Some distance
                        ∧ omap slot_distance slots !! k = Some distance).
  { clear result. induction Hsome as [|s l [d Hd] _ IH]; intros k slot Hk;
      [discriminate|].
    cbn. rewrite Hd. destruct k as [|k]; cbn in *.
    - injection Hk as <-. eauto.
    - now apply IH. }
  repeat apply conj.
  - unfold sort_dim1. now rewrite !length_map.
  - now rewrite length_map.
  - clear Hdist result. induction Hsome as [|s l [d Hd] _ IH]; [reflexivity|].
    cbn. rewrite Hd. cbn. now rewrite IH.
  - unfold sort_dim1. apply Forall_map, Forall_map, Forall_forall.
    intros s _. cbn. lia.
  - intros k slot Hk. repeat split.
    + unfold sort_dim1. now rewrite !list_lookup_fmap, Hk.
    + now rewrite list_lookup_fmap, Hk.
    + now apply Hdist.
Qed.

(** ** Broadcasting exclusions: errors and invariants *)

Lemma elem_of_concat {A} (x : A) (ls : list (list A)) :
  x ∈ concat ls ↔ ∃ l, x ∈ l ∧ l ∈ ls.
Proof.
  rewrite list_elem_of_In, in_concat. split.
  - intros (l & Hl & Hx). exists l. now rewrite !list_elem_of_In.
  - intros (l & Hx & Hl). exists l. now rewrite <- !list_elem_of_In.
Qed.

Lemma elem_of_flat_map {A B} (f : A → list B) (l : list A) (y : B) :
  y ∈ flat_map f l ↔ ∃ x, x ∈ l ∧ y ∈ f x.
Proof.
  rewrite list_elem_of_In, in_flat_map. split.
  - intros (x & Hx & Hy). exists x. now rewrite !list_elem_of_In.
  - intros (x & Hx & Hy). exists x. now rewrite <- !list_elem_of_In.
Qed.

Lemma elem_of_expected_exclusion_idxs (potential : Potential.t)
    (items : list (Topology.t * nat)) (p : Z * Z) :
  p ∈ expected_exclusion_idxs potential items
  ↔ ∃ t item c q,
      items !! t = Some item ∧ c < item.2
      ∧ q ∈ exclusions_of potential item.1
      ∧ p = (copy_start items t item.1 c + q.1,
             copy_start items t item.1 c + q.2)%Z.
Proof.
  unfold expected_exclusion_idxs. rewrite elem_of_concat. split.
  - intros (l & Hp & Hl).
    apply elem_of_lookup_imap in Hl as (t & item & -> & Ht).
    apply elem_of_flat_map in Hp as (c & Hc & Hp).
    apply elem_of_seq in Hc.
    unfold copy_exclusions in Hp.
    apply list_elem_of_fmap in Hp as (q & -> & Hq).
    exists t, item, c, q. repeat split; [assumption|lia|assumption].
  - intros (t & item & c & q & Ht & Hc & Hq & ->).
    eexists. split; [|eapply elem_of_lookup_imap_2, Ht].
    apply elem_of_flat_map. exists c. split; [apply elem_of_seq; lia|].
    unfold copy_exclusions. apply list_elem_of_fmap. eauto.
Qed.

Lemma particles_before_S (items : list (Topology.t * nat)) (t : nat)
    (item : Topology.t * nat) :
  items !! t = Some item →
  particles_before items (S t)
  = (particles_before items t
     + Z.of_nat item.2 * Z.of_nat (Topology.n_particles item.1))%Z.
Proof.
  intros Ht. unfold particles_before.
  rewrite (take_S_r _ _ _ Ht), map_app, sum_list_with_app. cbn. lia.
Qed.

Lemma particles_before_mono (items : list (Topology.t * nat)) (t t' : nat) :
  t ≤ t' → (particles_before items t ≤ particles_before items t')%Z.
Proof.
  intros Hle. induction Hle as [|t' Hle IH]; [lia|].
  destruct (items !! t') as [item|] eqn:Ht.
  - rewrite (particles_before_S _ _ _ Ht). lia.
  - apply lookup_ge_None in Ht.
    assert (Heq : particles_before items (S t') = particles_before items t').
    { unfold particles_before. now rewrite !firstn_all2 by lia. }
    lia.
Qed.

Lemma copy_end_bound (items : list (Topology.t * nat)) (t : nat)
    (item : Topology.t * nat) (c : nat) :
  items !! t = Some item → c < item.2 →
  (0 ≤ copy_start items t item.1 c)%Z
  ∧ (copy_start items t item.1 c + Z.of_nat (Topology.n_particles item.1)
     ≤ particles_before items (length items))%Z.
Proof.
  intros Ht Hc. unfold copy_start. split.
  - unfold particles_before. lia.
  - pose proof (particles_before_S _ _ _ Ht) as HS.
    apply lookup_lt_Some in Ht as Hlt.
    pose proof (particles_before_mono items (S t) (length items) ltac:(lia)).
    nia.
Qed.

Lemma system_n_particles_before (system : System.t) :
  Z.of_nat (System.n_particles system)
  = particles_before (zip (System.topologies system) (System.n_copies system))
      (length (zip (System.topologies system) (System.n_copies system))).
Proof.
  unfold System.n_particles, particles_before. rewrite firstn_all. f_equal.
  generalize (System.n_copies system).
  induction (System.topologies system) as [|topology l IH]; intros [|n k];
    cbn; try reflexivity.
  rewrite IH. lia.
Qed.

Lemma mapM_raise {A B} (f : A → result B) (l : list A) (e : exn) :
  (∀ x, x ∈ l → f x = Raise e ∨ ∃ y, f x = Ok y) →
  (∃ x, x ∈ l ∧ f x = Raise e) →
  mapM f l = Raise e.
Proof.
  induction l as [|x l IH]; intros Hall (x0 & Hin & Hx0).
  - by apply elem_of_nil in Hin.
  - cbn. destruct (Hall x ltac:(left)) as [Hx|[y Hx]]; rewrite Hx;
      [reflexivity|].
    cbn. rewrite IH; [reflexivity| |].
    + intros z Hz. apply Hall. now right.
    + apply elem_of_cons in Hin as [->|Hin]; [congruence|eauto].
Qed.

Lemma getitem_cases {A} (t : list A) (i : Z) :
  getitem t i = Raise IndexError ∨ ∃ x, getitem t i = Ok x.
Proof.
  unfold getitem, wrap_index.
  repeat case_decide; cbn; try (now left);
    match goal with
    | |- context [t !! ?k] => destruct (t !! k); eauto
    end.
Qed.

Lemma getitem_out_of_range {A} (t : list A) (i : Z) :
  ¬ (- Z.of_nat (length t) ≤ i < Z.of_nat (length t))%Z →
  getitem t i = Raise IndexError.
Proof.
  intros Hi. unfold getitem, wrap_index.
  rewrite !decide_False by lia. reflexivity.
Qed.

Lemma broadcast_exclusions_loop_raise (potential : Potential.t)
    (good rest : list (Topology.t * nat)) (topology : Topology.t) (n : nat)
    (idx_offset : Z) (e : exn) :
  Forall (λ item, has_exclusions potential item.1) good →
  (∀ offset, broadcast_exclusions_loop potential offset ((topology, n) :: rest)
             = Raise e) →
  broadcast_exclusions_loop potential idx_offset
    (good ++ (topology, n) :: rest) = Raise e.
Proof.
  intros Hgood Hbad. revert idx_offset.
  induction Hgood as [|[top k] good [[parameter_map Hmap] Hidx] _ IH];
    intros idx_offset; [apply Hbad|].
  cbn [app broadcast_exclusions_loop fst snd] in *.
  unfold dict_get. unfold exclusion_scale_idxs_of in Hidx.
  rewrite Hmap in *. cbn [mbind result_bind].
  rewrite gather_ok by exact Hidx. cbn [mbind result_bind].
  now rewrite IH.
Qed.

(** X4: [broadcast_exclusions] raises [RuntimeError] on a system without
    topologies; [KeyError] at the first topology that has no parameter map
    for the handler of the potential; and [IndexError] at the first topology
    with a scale index outside the attributes of the potential. *)
Theorem broadcast_exclusions_errors (system : System.t)
    (potential : Potential.t) :
  (zip (System.topologies system) (System.n_copies system) = [] →
   broadcast_exclusions system potential = Raise RuntimeError)
  ∧ (∀ good topology n rest,
       zip (System.topologies system) (System.n_copies system)
       = good ++ (topology, n) :: rest →
       Forall (λ item, has_exclusions potential item.1) good →
       Topology.parameters topology !! Potential.type potential = None →
       broadcast_exclusions system potential = Raise KeyError)
  ∧ (∀ good topology n rest parameter_map idx,
       zip (System.topologies system) (System.n_copies system)
       = good ++ (topology, n) :: rest →
       Forall (λ item, has_exclusions potential item.1) good →
       Topology.parameters topology !! Potential.type potential
       = Some parameter_map →
       idx ∈ ParameterMap.exclusion_scale_idxs parameter_map →
       ¬ (- Z.of_nat (length (Potential.attributes potential)) ≤ idx
          < Z.of_nat (length (Potential.attributes potential)))%Z →
       broadcast_exclusions system potential = Raise IndexError).
Proof.
  unfold broadcast_exclusions. repeat apply conj.
  - intros ->. reflexivity.
  - intros good topology n rest -> Hgood Hnone.
    rewrite (broadcast_exclusions_loop_raise _ _ _ _ _ _ KeyError);
      [reflexivity|exact Hgood|].
    intros offset. cbn [broadcast_exclusions_loop].
    unfold dict_get. now rewrite Hnone.
  - intros good topology n rest parameter_map idx -> Hgood Hmap Hin Hrange.
    rewrite (broadcast_exclusions_loop_raise _ _ _ _ _ _ IndexError);
      [reflexivity|exact Hgood|].
    intros offset. cbn [broadcast_exclusions_loop].
    unfold dict_get. rewrite Hmap. cbn [mbind result_bind].
    unfold gather. rewrite (mapM_raise _ _ IndexError); [reflexivity| |].
    + intros x _. apply getitem_cases.
    + exists idx. split; [exact Hin|]. now apply getitem_out_of_range.
Qed.

Lemma broadcast_exclusions_errors_witness :
  broadcast_exclusions (System.mk [] [] false) lj_scaled = Raise RuntimeError
  ∧ broadcast_exclusions (System.mk [diatomic 0; four_site_water] [1; 1] false)
      lj_scaled = Raise KeyError
  ∧ broadcast_exclusions (System.mk [diatomic 0; diatomic 3] [1; 1] false)
      lj_scaled = Raise IndexError.
Proof.
  split; [|split].
  - now apply (proj1 (broadcast_exclusions_errors _ _)).
  - apply (proj1 (proj2 (broadcast_exclusions_errors _ _))
             [(diatomic 0, 1)] four_site_water 1 []).
    + reflexivity.
    + repeat constructor; try (eexists; reflexivity); cbn; lia.
    + reflexivity.
  - apply (proj2 (proj2 (broadcast_exclusions_errors _ _))
             [(diatomic 0, 1)] (diatomic 3) 1 []
             (ParameterMap.mk [[1]; [1]]%R [(0, 1)%Z] [3%Z]) 3%Z).
    + reflexivity.
    + repeat constructor; try (eexists; reflexivity); cbn; lia.
    + reflexivity.
    + now left.
    + cbn. lia.
Defined.


Lemma broadcast_exclusions_expected (system : System.t)
    (potential : Potential.t) :
  let items := zip (System.topologies system) (System.n_copies system) in
  items ≠ [] →
  Forall (λ item, has_exclusions potential item.1) items →
  broadcast_exclusions system potential
  = Ok (expected_exclusion_idxs potential items,
        expected_exclusion_scales potential items).
Proof.
  intros items Hne Hitems. unfold broadcast_exclusions. fold items.
  rewrite broadcast_exclusions_loop_ok by exact Hitems.
  cbn [mbind result_bind fst snd].
  unfold expected_exclusion_idxs, expected_exclusion_scales.
  rewrite flat_map_concat_map.
  rewrite (imap_ext _
             (λ t item,
                flat_map (copy_exclusions potential (particles_before items t)
                            item.1)
                         (seq 0 item.2)))
    by (intros; cbn; now rewrite Z.add_0_l).
  destruct items as [|item items']; [congruence|]. reflexivity.
Qed.

Lemma length_flat_map_const {A B} (f : A → list B) (l : list A) (k : nat) :
  (∀ x, length (f x) = k) → length (flat_map f l) = length l * k.
Proof.
  intros Hf. induction l as [|x l IH]; [reflexivity|].
  cbn. rewrite length_app, Hf, IH. reflexivity.
Qed.

Lemma length_concat_replicate {A} (n : nat) (l : list A) :
  length (concat (replicate n l)) = n * length l.
Proof.
  induction n as [|n IH]; [reflexivity|].
  cbn. rewrite length_app, IH. reflexivity.
Qed.

Lemma length_concat_imap {A B} (f : nat → A → list B) (g : A → nat)
    (l : list A) :
  (∀ i x, length (f i x) = g x) →
  length (concat (imap f l)) = sum_list (map g l).
Proof.
  revert f. induction l as [|x l IH]; intros f Hf; [reflexivity|].
  cbn. rewrite length_app, Hf, (IH (f ∘ S)); [reflexivity|].
  intros i y. apply Hf.
Qed.

Lemma expected_exclusions_length (potential : Potential.t)
    (items : list (Topology.t * nat)) :
  Forall (λ item, local_exclusions_wf potential item.1) items →
  length (expected_exclusion_scales potential items)
  = length (expected_exclusion_idxs potential items)
  ∧ length (expected_exclusion_idxs potential items)
    = sum_list (map (λ item, item.2 * length (exclusions_of potential item.1))
                    items).
Proof.
  intros Hwf. unfold expected_exclusion_idxs, expected_exclusion_scales.
  rewrite (length_concat_imap _
             (λ item, item.2 * length (exclusions_of potential item.1))).
  2:{ intros t item.
      rewrite (length_flat_map_const _ _
                 (length (exclusions_of potential item.1))).
      - now rewrite length_seq.
      - intros c. unfold copy_exclusions. now rewrite length_map. }
  split; [|reflexivity].
  induction Hwf as [|item items (_ & _ & Hlen) _ IH]; [reflexivity|].
  cbn. rewrite length_app, IH, length_concat_replicate.
  unfold topology_scales. rewrite length_map, Hlen. reflexivity.
Qed.

Lemma expected_exclusion_idxs_wf (system : System.t)
    (potential : Potential.t) :
  let items := zip (System.topologies system) (System.n_copies system) in
  Forall (λ item, local_exclusions_wf potential item.1) items →
  wf_exclusions (System.n_particles system)
    (expected_exclusion_idxs potential items).
Proof.
  intros items Hitems. apply Forall_forall. intros p Hp.
  apply elem_of_expected_exclusion_idxs in Hp
    as (t & item & c & q & Ht & Hc & Hq & ->).
  pose proof (proj1 (Forall_forall _ _) Hitems item
                (list_elem_of_lookup_2 _ _ _ Ht)) as (_ & Hlocal & _).
  pose proof (proj1 (Forall_forall _ _) Hlocal q Hq) as Hrange.
  cbv beta in Hrange.
  pose proof (copy_end_bound items t item c Ht Hc) as Hbound.
  rewrite system_n_particles_before. fold items. cbn [fst snd]. lia.
Qed.

Lemma expected_exclusion_idxs_same_copy (potential : Potential.t)
    (items : list (Topology.t * nat)) :
  Forall (λ item, local_exclusions_wf potential item.1) items →
  Forall (λ p, same_copy items p.1 p.2)
         (expected_exclusion_idxs potential items).
Proof.
  intros Hitems. apply Forall_forall. intros p Hp.
  apply elem_of_expected_exclusion_idxs in Hp
    as (t & item & c & q & Ht & Hc & Hq & ->).
  pose proof (proj1 (Forall_forall _ _) Hitems item
                (list_elem_of_lookup_2 _ _ _ Ht)) as (_ & Hlocal & _).
  pose proof (proj1 (Forall_forall _ _) Hlocal q Hq) as Hrange.
  cbv beta in Hrange.
  exists t, item, c. unfold in_copy. cbn [fst snd]. repeat split; auto; lia.
Qed.

Lemma local_exclusions_has (potential : Potential.t)
    (items : list (Topology.t * nat)) :
  Forall (λ item, local_exclusions_wf potential item.1) items →
  Forall (λ item, has_exclusions potential item.1) items.
Proof.
  intros Hitems. eapply Forall_impl; [exact Hitems|]. now intros item (H & _).
Qed.

(** X5: on a system whose topologies each carry well formed local exclusions
    (two distinct particles of the topology, one scale index each),
    [broadcast_exclusions] succeeds; every entry it returns names two
    distinct particles of the full system that belong to the same copy of
    the same topology; there is one scale per entry; and the number of
    entries is the sum over the topologies of the number of copies times
    the number of local exclusions. *)
Theorem broadcast_exclusions_within_copies (system : System.t)
    (potential : Potential.t) :
  let items := zip (System.topologies system) (System.n_copies system) in
  items ≠ [] →
  Forall (local_exclusions_wf potential) (System.topologies system) →
  ∃ exclusion_idxs exclusion_scales,
    broadcast_exclusions system potential
    = Ok (exclusion_idxs, exclusion_scales)
    ∧ wf_exclusions (System.n_particles system) exclusion_idxs
    ∧ Forall (λ p, same_copy items p.1 p.2) exclusion_idxs
    ∧ length exclusion_scales = length exclusion_idxs
    ∧ length exclusion_idxs
      = sum_list (map (λ item, item.2 * length (exclusions_of potential item.1))
                      items).
Proof.
  intros items Hne Htops.
  assert (Hitems : Forall (λ item, local_exclusions_wf potential item.1) items)
    by now apply Forall_zip_fst.
  exists (expected_exclusion_idxs potential items),
         (expected_exclusion_scales potential items).
  split; [|split; [|split]].
  - apply broadcast_exclusions_expected;
      [exact Hne|now apply local_exclusions_has].
  - now apply expected_exclusion_idxs_wf.
  - now apply expected_exclusion_idxs_same_copy.
  - now apply expected_exclusions_length.
Qed.

Lemma broadcast_exclusions_within_copies_witness :
  ∃ exclusion_idxs exclusion_scales,
    broadcast_exclusions two_diatomics lj_scaled
    = Ok (exclusion_idxs, exclusion_scales)
    ∧ wf_exclusions (System.n_particles two_diatomics) exclusion_idxs
    ∧ Forall (λ p, same_copy (zip (System.topologies two_diatomics)
                                  (System.n_copies two_diatomics)) p.1 p.2)
             exclusion_idxs
    ∧ length exclusion_scales = length exclusion_idxs
    ∧ length exclusion_idxs
      = sum_list (map (λ item, item.2 * length (exclusions_of lj_scaled item.1))
                      (zip (System.topologies two_diatomics)
                           (System.n_copies two_diatomics))).
Proof.
  apply (broadcast_exclusions_within_copies two_diatomics lj_scaled).
  - discriminate.
  - repeat constructor; try (eexists; reflexivity); cbn; lia.
Defined.


(** X6: on such a system [_compute_pair_scales] returns one scale per
    unordered pair of particles, and every pair whose particles do not
    belong to the same copy of the same topology has scale one: only pairs
    within a molecule are ever scaled. *)
Theorem compute_pair_scales_between_copies (system : System.t)
    (potential : Potential.t) :
  let items := zip (System.topologies system) (System.n_copies system) in
  let n := System.n_particles system in
  items ≠ [] →
  Forall (local_exclusions_wf potential) (System.topologies system) →
  ∃ pair_scales,
    _compute_pair_scales system potential = Ok pair_scales
    ∧ length pair_scales = ((n * (n - 1)) `div` 2)%nat
    ∧ ∀ i j : nat,
        (i < j < n)%nat →
        ¬ same_copy items (Z.of_nat i) (Z.of_nat j) →
        pair_scales
          !! Z.to_nat (Utils.to_upper_tri_idx (Z.of_nat i) (Z.of_nat j)
                         (Z.of_nat n))
        = Some 1%R.
Proof.
  intros items n Hne Htops.
  assert (Hitems : Forall (λ item, local_exclusions_wf potential item.1) items)
    by now apply Forall_zip_fst.
  pose proof (expected_exclusion_idxs_same_copy potential items Hitems)
    as Hsame.
  eexists. split; [|split].
  - apply (compute_pair_scales_ok _ _
             (expected_exclusion_idxs potential items)
             (expected_exclusion_scales potential items)).
    + apply broadcast_exclusions_expected;
        [exact Hne|now apply local_exclusions_has].
    + now apply expected_exclusion_idxs_wf.
    + now apply expected_exclusions_length.
  - now rewrite length_map, triu_indices_length.
  - intros i j Hij Hnot. fold n.
    rewrite list_lookup_fmap, (triu_lookup n i j Hij). cbn [fmap option_fmap
      option_map fst snd]. f_equal.
    apply stored_scale_not_excluded.
    eapply Forall_impl; [exact Hsame|].
    intros p (t & item & c & Ht & Hc & H1 & H2) [->| ->]; apply Hnot;
      exists t, item, c; cbn [fst snd] in *; auto.
Qed.

Lemma compute_pair_scales_between_copies_witness :
  ∃ pair_scales,
    _compute_pair_scales two_diatomics lj_scaled = Ok pair_scales
    ∧ length pair_scales = 15
    ∧ ∀ i j : nat,
        (i < j < 6)%nat →
        ¬ same_copy (zip (System.topologies two_diatomics)
                         (System.n_copies two_diatomics))
            (Z.of_nat i) (Z.of_nat j) →
        pair_scales
          !! Z.to_nat (Utils.to_upper_tri_idx (Z.of_nat i) (Z.of_nat j) 6)
        = Some 1%R.
Proof.
  apply (compute_pair_scales_between_copies two_diatomics lj_scaled).
  - discriminate.
  - repeat constructor; try (eexists; reflexivity); cbn; lia.
Defined.


(** ** Rigid motions of the conformer *)

Lemma getitem_map {A B} (f : A → B) (t : list A) (i : Z) :
  getitem (map f t) i
  = match getitem t i with Ok x => Ok (f x) | Raise e => Raise e end.
Proof.
  unfold getitem. rewrite length_map.
  destruct (wrap_index (length t) i) as [k|e]; cbn [mbind result_bind];
    [|reflexivity].
  rewrite list_lookup_fmap. now destruct (t !! k).
Qed.

Lemma getitem_elem_of {A} (t : list A) (i : Z) (x : A) :
  getitem t i = Ok x → x ∈ t.
Proof.
  unfold getitem.
  destruct (wrap_index (length t) i) as [k|e]; cbn [mbind result_bind];
    [|discriminate].
  destruct (t !! k) as [y|] eqn:Hk; [|discriminate].
  intros [= <-]. eapply list_elem_of_lookup_2, Hk.
Qed.

Lemma translate_directions (shift x_i x_j : list R) :
  length x_i = length shift → length x_j = length shift →
  zip_with Rminus (zip_with Rplus x_j shift) (zip_with Rplus x_i shift)
  = zip_with Rminus x_j x_i.
Proof.
  revert x_i x_j.
  induction shift as [|s shift IH]; intros [|a x_i] [|b x_j] Hi Hj;
    try discriminate; [reflexivity|].
  cbn. f_equal; [lra|]. apply IH; cbn in *; lia.
Qed.

Lemma pair_distance_sqr_translate (shift : list R) (frame : Frame)
    (pair : Z * Z) :
  Forall (λ row, length row = length shift) frame →
  pair_distance_sqr (translate_frame shift frame) pair
  = pair_distance_sqr frame pair.
Proof.
  intros Hrows. unfold pair_distance_sqr, translate_frame.
  rewrite !getitem_map.
  destruct (getitem frame pair.1) as [x_i|e] eqn:Hi; [|reflexivity].
  destruct (getitem frame pair.2) as [x_j|e] eqn:Hj; [|reflexivity].
  cbn [mbind result_bind].
  rewrite translate_directions; [reflexivity| |].
  - apply (proj1 (Forall_forall _ _) Hrows), (getitem_elem_of _ _ _ Hi).
  - apply (proj1 (Forall_forall _ _) Hrows), (getitem_elem_of _ _ _ Hj).
Qed.

Lemma compute_pairwise_translate (shift : list R) (conformer : Conformer)
    (exclusions : list (Z * Z)) (exclusion_scales : list R) :
  coordinates (length shift) conformer →
  compute_pairwise (as_batch (translate shift conformer)) exclusions
    exclusion_scales
  = compute_pairwise (as_batch conformer) exclusions exclusion_scales.
Proof.
  intros Hrows. unfold compute_pairwise.
  assert (Hn : Batch.n_particles (as_batch (translate shift conformer))
               = Batch.n_particles (as_batch conformer)).
  { destruct conformer; [|reflexivity].
    cbn. unfold translate_frame. now rewrite length_map. }
  rewrite Hn.
  assert (Hd :
    mapM (λ frame, mapM (pair_distance_sqr frame)
                     (triu_indices (Batch.n_particles (as_batch conformer))))
         (Batch.frames (as_batch (translate shift conformer)))
    = mapM (λ frame, mapM (pair_distance_sqr frame)
                       (triu_indices (Batch.n_particles (as_batch conformer))))
           (Batch.frames (as_batch conformer))).
  { assert (Hframes : Batch.frames (as_batch (translate shift conformer))
                      = map (translate_frame shift)
                            (Batch.frames (as_batch conformer)))
      by now destruct conformer.
    rewrite Hframes. unfold coordinates in Hrows. clear Hframes Hn.
    generalize (triu_indices (Batch.n_particles (as_batch conformer))).
    intros pair_idxs.
    induction Hrows as [|frame frames Hframe _ IH]; [reflexivity|].
    cbn [map mapM]. rewrite IH.
    rewrite (mapM_ext (pair_distance_sqr (translate_frame shift frame))
               (pair_distance_sqr frame)); [reflexivity|].
    intros pair _. now apply pair_distance_sqr_translate. }
  now rewrite Hd.
Qed.

(** X7: the direct kernels depend on the conformer through the pair
    distances only: moving every particle of every frame by the same vector
    changes neither the Lennard-Jones nor the Coulomb energy, and neither
    the exception when there is one. *)
Theorem direct_kernels_translation_invariant (k_e : R) (shift : list R)
    (conformer : Conformer) (parameters : list (list R))
    (exclusions : list (Z * Z)) (exclusion_scales : list R) :
  coordinates (length shift) conformer →
  compute_lj_energy (translate shift conformer) parameters exclusions
    exclusion_scales
  = compute_lj_energy conformer parameters exclusions exclusion_scales
  ∧ compute_coulomb_energy k_e (translate shift conformer) parameters
      exclusions exclusion_scales
    = compute_coulomb_energy k_e conformer parameters exclusions
        exclusion_scales.
Proof.
  intros Hrows. unfold compute_lj_energy, compute_coulomb_energy.
  rewrite (compute_pairwise_translate shift conformer) by exact Hrows.
  split.
  - destruct (compute_pairwise (as_batch conformer) exclusions
                exclusion_scales) as [[[pair_idxs distances_sqr] pair_scales]|e];
      [|reflexivity].
    cbn [mbind result_bind].
    repeat match goal with
    | |- context [gather_col ?m ?i ?c] =>
        destruct (gather_col m i c); cbn [mbind result_bind];
        [|reflexivity]
    end.
    now destruct conformer.
  - destruct (compute_pairwise (as_batch conformer) exclusions
                exclusion_scales) as [[[pair_idxs distances_sqr] pair_scales]|e];
      [|reflexivity].
    cbn [mbind result_bind].
    repeat match goal with
    | |- context [gather_col ?m ?i ?c] =>
        destruct (gather_col m i c); cbn [mbind result_bind];
        [|reflexivity]
    end.
    now destruct conformer.
Qed.


Lemma direct_kernels_translation_invariant_witness :
  compute_lj_energy
    (translate [1; 2; 3]%R (Unbatched [[0; 0; 0]; [3; 4; 0]]%R))
    [[1; 2]; [1; 2]]%R [] []
  = compute_lj_energy (Unbatched [[0; 0; 0]; [3; 4; 0]]%R)
      [[1; 2]; [1; 2]]%R [] []
  ∧ compute_coulomb_energy 1
      (translate [1; 2; 3]%R (Unbatched [[0; 0; 0]; [3; 4; 0]]%R))
      [[1; 2]; [1; 2]]%R [] []
    = compute_coulomb_energy 1 (Unbatched [[0; 0; 0]; [3; 4; 0]]%R)
        [[1; 2]; [1; 2]]%R [] [].
Proof.
  apply (direct_kernels_translation_invariant 1 [1; 2; 3]%R
           (Unbatched [[0; 0; 0]; [3; 4; 0]]%R)).
  repeat constructor.
Defined.


(** ** The direct Lennard-Jones kernel *)







(** ** Batches of conformers *)




(** ** Degenerate inputs of the direct kernels *)

Lemma getitem2_cases {A} (m : list (list A)) (i j : Z) :
  getitem2 m i j = Raise IndexError ∨ ∃ x, getitem2 m i j = Ok x.
Proof.
  unfold getitem2.
  destruct (getitem_cases m i) as [->|[row ->]]; [now left|].
  cbn [mbind result_bind]. apply getitem_cases.
Qed.

Lemma gather_col_missing (parameters : list (list R)) (n : nat)
    (side : Z * Z → Z) :
  2 ≤ n → length parameters = n →
  Forall (λ row, length row = 1) parameters →
  (∀ p, p ∈ triu_indices n → (0 ≤ side p < Z.of_nat n)%Z) →
  gather_col parameters (side <$> triu_indices n) 1 = Raise IndexError.
Proof.
  intros Hn Hlen Hrows Hside. unfold gather_col.
  apply mapM_raise; [intros x _; apply getitem2_cases|].
  assert (Hin : (0, 1)%Z ∈ triu_indices n)
    by (apply elem_of_triu_indices; lia).
  exists (side (0, 1)%Z). split; [now apply list_elem_of_fmap_2|].
  specialize (Hside _ Hin).
  destruct (lookup_lt_is_Some_2 parameters (Z.to_nat (side (0, 1)%Z))
              ltac:(lia)) as [row Hrow].
  unfold getitem2. rewrite (getitem_lookup _ _ row) by (lia || assumption).
  cbn [mbind result_bind]. apply getitem_out_of_range.
  rewrite (proj1 (Forall_forall _ _) Hrows row
             (list_elem_of_lookup_2 _ _ _ Hrow)).
  lia.
Qed.

(** X11: the Lennard-Jones kernel reads the well depth from column 0 and the
    size from column 1 of the parameters. On a parameter table with one
    column, such as a table of charges, and at least two particles it raises
    [IndexError]; the Coulomb kernel, which reads column 0 only, accepts a
    table of any width and ignores the columns after the first. *)
Theorem kernels_parameter_columns (k_e : R) (conformer : Conformer)
    (exclusions : list (Z * Z)) (exclusion_scales : list R) (n : nat) :
  Batch.n_particles (as_batch conformer) = n →
  wf_conformer conformer →
  wf_exclusions n exclusions →
  length exclusion_scales = length exclusions →
  (∀ parameters,
     2 ≤ n → length parameters = n →
     Forall (λ row, length row = 1) parameters →
     compute_lj_energy conformer parameters exclusions exclusion_scales
     = Raise IndexError)
  ∧ (∀ parameters more,
       wf_parameters n 1 parameters → length more = n →
       compute_coulomb_energy k_e conformer (zip_with app parameters more)
         exclusions exclusion_scales
       = compute_coulomb_energy k_e conformer parameters exclusions
           exclusion_scales).
Proof.
  intros <- Hconf Hex Hlen. split.
  - intros parameters Hn Hpar Hrows. unfold compute_lj_energy.
    rewrite compute_pairwise_ok by (auto using as_batch_wf).
    cbn [mbind result_bind].
    assert (Hwf : wf_parameters (Batch.n_particles (as_batch conformer)) 1
                    parameters).
    { split; [exact Hpar|]. eapply Forall_impl; [exact Hrows|].
      intros row ->. lia. }
    rewrite (gather_col_triu parameters _ 1 0 0 fst Hwf eq_refl)
      by (lia || apply triu_fst_range).
    cbn [mbind result_bind].
    rewrite (gather_col_triu parameters _ 1 0 0 snd Hwf eq_refl)
      by (lia || apply triu_snd_range).
    cbn [mbind result_bind].
    rewrite (gather_col_missing parameters _ fst); try assumption;
      [reflexivity|].
    apply triu_fst_range.
  - intros parameters more Hpar Hmore.
    assert (Hwf : wf_parameters (Batch.n_particles (as_batch conformer)) 1
                    (zip_with app parameters more)).
    { destruct Hpar as [Hl Hrows]. split.
      - rewrite length_zip_with. lia.
      - apply Forall_forall. intros row Hrow.
        apply elem_of_lookup_zip_with in Hrow as (k & a & b & -> & Ha & _).
        rewrite length_app.
        pose proof (proj1 (Forall_forall _ _) Hrows a
                      (list_elem_of_lookup_2 _ _ _ Ha)) as Hlen_a.
        cbv beta in Hlen_a. lia. }
    rewrite !compute_coulomb_energy_sum by assumption.
    apply (f_equal Ok), (f_equal (squeeze_energy conformer)).
    apply map_ext. intros frame. apply sum_over_pairs_ext. intros i j Hi Hj.
    unfold coulomb_pair_energy.
    assert (Hp : ∀ a, (0 ≤ a < Z.of_nat (Batch.n_particles (as_batch conformer)))%Z →
                 parameter (zip_with app parameters more) a 0
                 = parameter parameters a 0).
    { intros a Ha. unfold parameter. destruct Hpar as [Hl Hrows].
      destruct (lookup_lt_is_Some_2 parameters (Z.to_nat a) ltac:(lia))
        as [row Hrow].
      destruct (lookup_lt_is_Some_2 more (Z.to_nat a) ltac:(lia))
        as [extra Hextra].
      rewrite (nth_lookup_Some _ _ _ (row ++ extra)),
              (nth_lookup_Some _ _ _ row) by
        (assumption || (rewrite lookup_zip_with, Hrow, Hextra; reflexivity)).
      pose proof (proj1 (Forall_forall _ _) Hrows row
                    (list_elem_of_lookup_2 _ _ _ Hrow)) as Hlen_row.
      cbv beta in Hlen_row.
      destruct row as [|x row]; [cbn in Hlen_row; lia|reflexivity]. }
    rewrite !Hp by lia. reflexivity.
Qed.


Lemma kernels_parameter_columns_witness :
  compute_lj_energy (Unbatched [[0; 0; 0]; [3; 4; 0]]%R) [[1]; [-1]]%R
    [(0, 1)%Z] [0.5%R]
  = Raise IndexError
  ∧ compute_coulomb_energy 1 (Unbatched [[0; 0; 0]; [3; 4; 0]]%R)
      (zip_with app [[1]; [-1]]%R [[5; 6]; [7; 8]]%R) [(0, 1)%Z] [0.5%R]
    = compute_coulomb_energy 1 (Unbatched [[0; 0; 0]; [3; 4; 0]]%R)
        [[1]; [-1]]%R [(0, 1)%Z] [0.5%R].
Proof.
  destruct (kernels_parameter_columns 1 (Unbatched [[0; 0; 0]; [3; 4; 0]]%R)
              [(0, 1)%Z] [0.5%R] 2) as [Hlj Hcoulomb].
  - reflexivity.
  - exact I.
  - repeat constructor; cbn; lia.
  - reflexivity.
  - split.
    + apply Hlj; [lia|reflexivity|repeat constructor].
    + apply Hcoulomb; [|reflexivity].
      split; [reflexivity|]. repeat constructor.
Defined.


(** ** The periodic Lennard-Jones path *)

(** X12: the periodic Lennard-Jones path returns no energy unless the system
    is periodic and the potential has a ['switch_width'] attribute: on a
    system that is not periodic its first assertion fails, and on a
    potential without the attribute it raises whatever the system, the
    conformer, the box and the neighbour list are. *)
Theorem periodic_lj_preconditions
    (getNeighborPairs : Frame → R → list (list R) → list NeighborSlot)
    (system : System.t) (conformer : Frame) (box_vectors : list (list R))
    (potential : Potential.t) :
  (System.is_periodic system = false →
   _compute_lj_energy_periodic getNeighborPairs system conformer box_vectors
     potential
   = Raise AssertionError)
  ∧ (list_contains "switch_width" (Potential.attribute_cols potential) = false →
     raises (_compute_lj_energy_periodic getNeighborPairs system conformer
               box_vectors potential)).
Proof.
  split.
  - intros Hperiodic.
    unfold _compute_lj_energy_periodic, _compute_lj_energy_periodic_pairs.
    now rewrite Hperiodic.
  - apply periodic_lj_without_switch_raises.
Qed.

Lemma periodic_lj_preconditions_witness :
  _compute_lj_energy_periodic two_neighbors two_diatomics four_particles
    cubic_box lj_switched
  = Raise AssertionError
  ∧ raises (_compute_lj_energy_periodic two_neighbors periodic_diatomics
              four_particles cubic_box lj_plain).
Proof.
  split.
  - now apply (proj1 (periodic_lj_preconditions two_neighbors two_diatomics
                        four_particles cubic_box lj_switched)).
  - now apply (proj2 (periodic_lj_preconditions two_neighbors
                        periodic_diatomics four_particles cubic_box lj_plain)).
Defined.

(** X13: [_compute_lj_energy_periodic] passes the switch distance and the
    cutoff to [_compute_dispersion_correction] in the order opposite to the
    one the callee declares. With a switch width strictly between zero and
    the cutoff this changes nothing: the energy returned is the pairwise sum
    plus the correction evaluated with the cutoff as [cutoff] and
    [cutoff - switch_width] as [switch_width], and the path fails exactly
    when that correction fails. *)
Theorem periodic_lj_correction_order
    (getNeighborPairs : Frame → R → list (list R) → list NeighborSlot)
    (system : System.t) (conformer : Frame) (box_vectors : list (list R))
    (potential : Potential.t) (energy cutoff width volume : R) :
  _compute_lj_energy_periodic_pairs getNeighborPairs system conformer
    box_vectors potential
  = Ok (energy, Some (cutoff - width)%R, cutoff, volume) →
  (0 < width < cutoff)%R →
  _compute_lj_energy_periodic getNeighborPairs system conformer box_vectors
    potential
  = (correction ← _compute_dispersion_correction system potential
                    (Some cutoff) (Some (cutoff - width)%R) volume;
     Ok (energy + correction)%R).
Proof.
  intros Hpairs Hwidth. unfold _compute_lj_energy_periodic.
  rewrite Hpairs. cbn [mbind result_bind].
  now rewrite periodic_lj_swapped_call_value.
Qed.

Lemma periodic_lj_correction_order_witness :
  ∃ energy volume,
    _compute_lj_energy_periodic two_neighbors periodic_diatomics
      four_particles cubic_box lj_switched
    = (correction ← _compute_dispersion_correction periodic_diatomics
                      lj_switched (Some 9%R) (Some (9 - 1)%R) volume;
       Ok (energy + correction)%R).
Proof.
  do 2 eexists.
  apply (periodic_lj_correction_order two_neighbors periodic_diatomics
           four_particles cubic_box lj_switched _ 9%R 1%R);
    [reflexivity|lra].
Defined.


(** ** The resolution of the PME grid *)

Lemma ceil_mono (x y : R) : (x <= y)%R → (ceil x ≤ ceil y)%Z.
Proof.
  intros Hxy. apply ceil_least.
  pose proof (ceil_spec y). lra.
Qed.

Lemma ewald_alpha_pos (tol cutoff : R) :
  (0 < cutoff)%R → (0 < tol < 1 / 2)%R → (0 < ewald_alpha tol cutoff)%R.
Proof.
  intros Hcutoff Htol. unfold ewald_alpha.
  apply Rdiv_lt_0_compat; [|exact Hcutoff].
  apply sqrt_lt_R0.
  pose proof (ln_increasing (2 * tol) 1 ltac:(lra) ltac:(lra)) as Hln.
  rewrite ln_1 in Hln. lra.
Qed.

(** X14: for a positive cutoff and a tolerance strictly between zero and one
    half, [_compute_pme_grid] returns a positive damping factor [alpha] and,
    along each axis, at least six nodes and enough nodes for the spacing
    [box_length / nodes] to be at most [3 tol^(1/5) / (2 alpha)]; and a box
    that is at least as long along an axis never gets fewer nodes along
    it. *)
Theorem compute_pme_grid_resolution
    (xx xy xz yx yy yz zx zy zz cutoff tol : R) :
  (0 < cutoff)%R → (0 < tol < 1 / 2)%R →
  ∃ grid_x grid_y grid_z alpha,
    _compute_pme_grid [[xx; xy; xz]; [yx; yy; yz]; [zx; zy; zz]] cutoff tol
    = Ok (grid_x, grid_y, grid_z, alpha)
    ∧ (0 < alpha)%R
    ∧ (6 ≤ grid_x ∧ 6 ≤ grid_y ∧ 6 ≤ grid_z)%Z
    ∧ (2 * alpha * xx <= 3 * Rpower tol (1 / 5) * IZR grid_x
       ∧ 2 * alpha * yy <= 3 * Rpower tol (1 / 5) * IZR grid_y
       ∧ 2 * alpha * zz <= 3 * Rpower tol (1 / 5) * IZR grid_z)%R
    ∧ ∀ xx' yy' zz' : R,
        (xx <= xx')%R → (yy <= yy')%R → (zz <= zz')%R →
        ∃ grid_x' grid_y' grid_z',
          _compute_pme_grid [[xx'; xy; xz]; [yx; yy'; yz]; [zx; zy; zz']]
            cutoff tol
          = Ok (grid_x', grid_y', grid_z', alpha)
          ∧ (grid_x ≤ grid_x' ∧ grid_y ≤ grid_y' ∧ grid_z ≤ grid_z')%Z.
Proof.
  intros Hcutoff Htol.
  pose proof (ewald_alpha_pos tol cutoff Hcutoff Htol) as Halpha.
  assert (Hpow : (0 < Rpower tol (1 / 5))%R) by apply exp_pos.
  set (factor := (2 * ewald_alpha tol cutoff / (3 * Rpower tol (1 / 5)))%R).
  assert (Hfactor : (0 < factor)%R).
  { unfold factor. apply Rdiv_lt_0_compat; lra. }
  assert (Hspacing : ∀ L,
    (2 * ewald_alpha tol cutoff * L
     <= 3 * Rpower tol (1 / 5) * IZR (pme_grid_dim tol cutoff L 6))%R).
  { intros L. unfold pme_grid_dim. fold factor.
    pose proof (ceil_spec (factor * L)) as [_ Hceil].
    assert (Hmax : (IZR (ceil (factor * L))
                    <= IZR (Z.max (ceil (factor * L)) 6))%R)
      by (apply IZR_le; lia).
    assert (Hle : (factor * L <= IZR (Z.max (ceil (factor * L)) 6))%R) by lra.
    apply (Rmult_le_compat_l (3 * Rpower tol (1 / 5))) in Hle; [|lra].
    replace (3 * Rpower tol (1 / 5) * (factor * L))%R
      with (2 * ewald_alpha tol cutoff * L)%R in Hle; [exact Hle|].
    unfold factor. field. lra. }
  assert (Hmono : ∀ L L', (L <= L')%R →
    (pme_grid_dim tol cutoff L 6 ≤ pme_grid_dim tol cutoff L' 6)%Z).
  { intros L L' HL. unfold pme_grid_dim. fold factor.
    pose proof (ceil_mono (factor * L) (factor * L')
                  ltac:(apply Rmult_le_compat_l; lra)).
    lia. }
  do 4 eexists. split; [apply compute_pme_grid_ok|].
  split; [exact Halpha|]. split; [unfold pme_grid_dim; lia|].
  split; [auto|].
  intros xx' yy' zz' Hx Hy Hz. do 3 eexists.
  split; [apply compute_pme_grid_ok|]. auto.
Qed.

Lemma compute_pme_grid_resolution_witness :
  ∃ grid_x grid_y grid_z alpha,
    _compute_pme_grid cubic_box 9 (1 / 10000)
    = Ok (grid_x, grid_y, grid_z, alpha)
    ∧ (0 < alpha)%R
    ∧ (6 ≤ grid_x ∧ 6 ≤ grid_y ∧ 6 ≤ grid_z)%Z
    ∧ (2 * alpha * 30 <= 3 * Rpower (1 / 10000) (1 / 5) * IZR grid_x
       ∧ 2 * alpha * 30 <= 3 * Rpower (1 / 10000) (1 / 5) * IZR grid_y
       ∧ 2 * alpha * 30 <= 3 * Rpower (1 / 10000) (1 / 5) * IZR grid_z)%R
    ∧ ∀ xx' yy' zz' : R,
        (30 <= xx')%R → (30 <= yy')%R → (30 <= zz')%R →
        ∃ grid_x' grid_y' grid_z',
          _compute_pme_grid [[xx'; 0; 0]; [0; yy'; 0]; [0; 0; zz']]%R 9
            (1 / 10000)
          = Ok (grid_x', grid_y', grid_z', alpha)
          ∧ (grid_x ≤ grid_x' ∧ grid_y ≤ grid_y' ∧ grid_z ≤ grid_z')%Z.
Proof.
  apply (compute_pme_grid_resolution 30 0 0 0 30 0 0 0 30 9 (1 / 10000)); lra.
Defined.


(** ** Dispatch: [compute_energy_potential] and [compute_energy] *)



(** The call of a registered non-bonded kernel: the conformer with its batch
    dimension, the parameters of the particles, the exclusions and their
    scales. *)
Lemma compute_energy_potential_nonbonded
    (registry : gmap (string * string) EnergyFn)
    (f : Conformer → list (list R) → list (Z * Z) → list R → result Energy)
    (parameter_map : ParameterMap.t) (conformer : Conformer)
    (potential : Potential.t) (n : nat) :
  registry !! (Potential.type potential, Potential.fn potential)
  = Some (NonbondedFn f) →
  applied_wf potential n parameter_map →
  compute_energy_potential registry (NonbondedParameters parameter_map)
    conformer potential
  = f (Batched (as_batch conformer)) (applied_values potential parameter_map)
      (ParameterMap.exclusions parameter_map)
      (applied_scales potential parameter_map).
Proof.
  intros Hfn (Htable & Hrows & Hcols & Hex & Hlen & Hidx).
  unfold compute_energy_potential, applied_assignment_matrix.
  rewrite matmul_ok by exact Hcols. cbn [mbind result_bind].
  unfold lookup_energy_fn, dict_get. rewrite Hfn. cbn [mbind result_bind].
  rewrite gather_ok by exact Hidx. cbn [mbind result_bind call_nonbonded].
  now destruct conformer.
Qed.



Lemma nonbonded_registry_lookup (k_e : R) :
  nonbonded_registry k_e !! ("vdW"%string, _LJ_POTENTIAL)
  = Some (NonbondedFn compute_lj_energy)
  ∧ nonbonded_registry k_e !! ("Electrostatics"%string, _COULOMB_POTENTIAL)
    = Some (NonbondedFn (compute_coulomb_energy k_e)).
Proof.
  unfold nonbonded_registry, potential_energy_fn.
  rewrite (decide_False (P := is_Some (∅ !! _)))
    by (rewrite lookup_empty; apply is_Some_None).
  cbn [snd].
  rewrite (decide_False (P := is_Some (<[_ := _]> ∅ !! _)))
    by (rewrite lookup_insert_ne by done; rewrite lookup_empty;
        apply is_Some_None).
  cbn [snd]. split.
  - rewrite lookup_insert_ne by done. now rewrite lookup_insert_eq.
  - now rewrite lookup_insert_eq.
Qed.



Lemma nth_zip_with_Rplus (a b : list R) (k : nat) :
  length a = length b →
  nth k (zip_with Rplus a b) 0%R = (nth k a 0 + nth k b 0)%R.
Proof.
  revert b k. induction a as [|x a IH]; intros [|y b] k Hlen;
    try discriminate; destruct k; cbn; try lra.
  apply IH. cbn in Hlen. lia.
Qed.

Lemma compute_energy_loop_app (registry : gmap (string * string) EnergyFn)
    (parameters : gmap string AppliedParameters) (batch : Batch.t)
    (good rest : list Potential.t) (energies : list (list R))
    (energy : list R) :
  length energy = length (Batch.frames batch) →
  evaluated registry parameters batch good energies →
  compute_energy_loop registry parameters batch energy (good ++ rest)
  = compute_energy_loop registry parameters batch
      (map (λ k, nth k energy 0 + summed_energy energies k)%R
           (seq 0 (length (Batch.frames batch))))
      rest.
Proof.
  intros Hlen Hgood. revert energy Hlen.
  induction Hgood as [|potential es good energies
                        (parameter_map & Hmap & Hfn & Hes) _ IH];
    intros energy Hlen.
  - cbn [app]. f_equal. unfold summed_energy. cbn [map Rsum foldr].
    rewrite <- Hlen. clear.
    apply list_eq. intros k. rewrite list_lookup_fmap.
    destruct (decide (k < length energy)) as [Hk|Hk].
    + rewrite lookup_seq_lt by exact Hk. cbn.
      destruct (lookup_lt_is_Some_2 energy k Hk) as [x Hx].
      rewrite Hx, (nth_lookup_Some _ _ _ _ Hx). f_equal. lra.
    + rewrite lookup_seq_ge by lia. cbn.
      apply lookup_ge_None_2. lia.
  - cbn [app compute_energy_loop]. unfold dict_get. rewrite Hmap.
    cbn [mbind result_bind]. rewrite Hfn. cbn [mbind result_bind iadd].
    rewrite decide_True by lia. cbn [mbind result_bind].
    rewrite IH by (rewrite length_zip_with; lia).
    f_equal. apply map_ext_in. intros k Hk. apply in_seq in Hk.
    rewrite nth_zip_with_Rplus by lia.
    unfold summed_energy. cbn [map Rsum foldr]. unfold Rsum. lra.
Qed.

(** X16: when every potential of the force field is evaluated without
    exception, [compute_energy] returns, for each conformer, the sum of the
    energies of the potentials for that conformer; for a force field
    without potentials this is zero for every conformer. *)
Theorem compute_energy_sum (registry : gmap (string * string) EnergyFn)
    (parameters : gmap string AppliedParameters) (conformer : Conformer)
    (force_field : list Potential.t) (energies : list (list R)) :
  evaluated registry parameters (as_batch conformer) force_field energies →
  compute_energy registry parameters conformer force_field
  = Ok (map (summed_energy energies)
            (seq 0 (length (Batch.frames (as_batch conformer)))))
  ∧ compute_energy registry parameters conformer []
    = Ok (replicate (length (Batch.frames (as_batch conformer))) 0%R).
Proof.
  intros Hgood. unfold compute_energy.
  replace (match conformer with
           | Unbatched frame => unsqueeze frame
           | Batched batch => batch
           end) with (as_batch conformer) by now destruct conformer.
  cbn zeta. split; [|reflexivity].
  rewrite <- (app_nil_r force_field).
  rewrite (compute_energy_loop_app _ _ _ _ _ energies)
    by (rewrite ?length_replicate; auto).
  cbn [compute_energy_loop]. f_equal. apply map_ext_in. intros k Hk.
  apply in_seq in Hk.
  rewrite (nth_lookup_Some _ _ _ 0%R) by (apply lookup_replicate_2; lia).
  lra.
Qed.


Lemma diatomic_applied_lookup :
  diatomic_applied !! "vdW"%string = Some (NonbondedParameters diatomic_lj)
  ∧ diatomic_applied !! "Electrostatics"%string
    = Some (NonbondedParameters diatomic_charges).
Proof.
  unfold diatomic_applied. split.
  - now rewrite lookup_insert_eq.
  - rewrite lookup_insert_ne by done. now rewrite lookup_singleton_eq.
Qed.

Lemma diatomic_evaluated :
  ∃ lj coulomb,
    evaluated (nonbonded_registry 1) diatomic_applied
      (as_batch (Unbatched diatomic_frame)) [lj_scaled; water_charges]
      [[lj]; [coulomb]].
Proof.
  do 2 eexists. unfold evaluated.
  constructor; [|constructor; [|constructor]].
  - exists (NonbondedParameters diatomic_lj).
    split; [apply diatomic_applied_lookup|]. split; [|reflexivity].
    rewrite (compute_energy_potential_nonbonded _ compute_lj_energy _ _ _ 2);
      [|apply nonbonded_registry_lookup
       |repeat split; repeat constructor; cbn; lia].
    rewrite compute_lj_energy_sum;
      [reflexivity|repeat constructor
      |split; [reflexivity|repeat constructor]
      |repeat constructor; cbn; lia|reflexivity].
  - exists (NonbondedParameters diatomic_charges).
    split; [apply diatomic_applied_lookup|]. split; [|reflexivity].
    rewrite (compute_energy_potential_nonbonded _
               (compute_coulomb_energy 1) _ _ _ 2);
      [|apply nonbonded_registry_lookup
       |repeat split; repeat constructor; cbn; lia].
    rewrite compute_coulomb_energy_sum;
      [reflexivity|repeat constructor
      |split; [reflexivity|repeat constructor]
      |repeat constructor; cbn; lia|reflexivity].
Qed.

Lemma compute_energy_sum_witness :
  ∃ lj coulomb,
    compute_energy (nonbonded_registry 1) diatomic_applied
      (Unbatched diatomic_frame) [lj_scaled; water_charges]
    = Ok (map (summed_energy [[lj]; [coulomb]]) (seq 0 1))
    ∧ compute_energy (nonbonded_registry 1) diatomic_applied
        (Unbatched diatomic_frame) []
      = Ok (replicate 1 0%R).
Proof.
  destruct diatomic_evaluated as (lj & coulomb & Hevaluated).
  exists lj, coulomb.
  exact (compute_energy_sum (nonbonded_registry 1) diatomic_applied
           (Unbatched diatomic_frame) [lj_scaled; water_charges]
           [[lj]; [coulomb]] Hevaluated).
Defined.


(** X17: [compute_energy] raises [KeyError], and returns nothing of the
    energies computed so far, at the first potential of the force field
    whose handler has no entry in the applied parameters, or whose pair of
    handler and energy expression has no registered function. *)
Theorem compute_energy_key_errors (registry : gmap (string * string) EnergyFn)
    (parameters : gmap string AppliedParameters) (conformer : Conformer)
    (good rest : list Potential.t) (potential : Potential.t)
    (energies : list (list R)) :
  evaluated registry parameters (as_batch conformer) good energies →
  (parameters !! Potential.type potential = None
   ∨ ∃ parameter_map,
       parameters !! Potential.type potential = Some parameter_map
       ∧ Forall (λ row, length row = length (Potential.parameters potential))
                (applied_assignment_matrix parameter_map)
       ∧ registry !! (Potential.type potential, Potential.fn potential)
         = None) →
  compute_energy registry parameters conformer (good ++ potential :: rest)
  = Raise KeyError.
Proof.
  intros Hgood Hbad. unfold compute_energy.
  replace (match conformer with
           | Unbatched frame => unsqueeze frame
           | Batched batch => batch
           end) with (as_batch conformer) by now destruct conformer.
  cbn zeta.
  rewrite (compute_energy_loop_app _ _ _ _ _ energies)
    by (rewrite ?length_replicate; auto).
  cbn [compute_energy_loop]. unfold dict_get.
  destruct Hbad as [->|(parameter_map & -> & Hrows & Hnone)]; [reflexivity|].
  cbn [mbind result_bind]. unfold compute_energy_potential.
  rewrite matmul_ok by exact Hrows. cbn [mbind result_bind].
  unfold lookup_energy_fn, dict_get. now rewrite Hnone.
Qed.

Lemma compute_energy_key_errors_witness :
  compute_energy (nonbonded_registry 1)
    {[ "vdW"%string := NonbondedParameters diatomic_lj ]}
    (Unbatched diatomic_frame) [lj_scaled; water_charges]
  = Raise KeyError
  ∧ compute_energy ∅ diatomic_applied (Unbatched diatomic_frame)
      [lj_scaled; water_charges]
    = Raise KeyError.
Proof.
  split.
  - assert (Hlj : ∃ lj,
      evaluated (nonbonded_registry 1)
        {[ "vdW"%string := NonbondedParameters diatomic_lj ]}
        (as_batch (Unbatched diatomic_frame)) [lj_scaled] [[lj]]).
    { eexists. constructor; [|constructor].
      exists (NonbondedParameters diatomic_lj).
      split; [apply lookup_singleton_eq|]. split; [|reflexivity].
      rewrite (compute_energy_potential_nonbonded _ compute_lj_energy _ _ _ 2);
        [|apply nonbonded_registry_lookup
         |repeat split; repeat constructor; cbn; lia].
      rewrite compute_lj_energy_sum;
        [reflexivity|repeat constructor
        |split; [reflexivity|repeat constructor]
        |repeat constructor; cbn; lia|reflexivity]. }
    destruct Hlj as [lj Hlj].
    apply (compute_energy_key_errors (nonbonded_registry 1) _
             (Unbatched diatomic_frame) [lj_scaled] [] water_charges [[lj]]
             Hlj).
    left. now apply lookup_singleton_ne.
  - apply (compute_energy_key_errors ∅ diatomic_applied
             (Unbatched diatomic_frame) [] [water_charges] lj_scaled []).
    + constructor.
    + right. exists (NonbondedParameters diatomic_lj).
      split; [apply diatomic_applied_lookup|].
      split; [repeat constructor|apply lookup_empty].
Defined.


(** ** Broadcasting parameters: the rows of the copies *)

Lemma lookup_concat_replicate {A} (l : list A) (k c a : nat) :
  c < k → a < length l →
  concat (replicate k l) !! (c * length l + a) = l !! a.
Proof.
  revert c. induction k as [|k IH]; intros c Hc Ha; [lia|].
  cbn [replicate concat]. destruct c as [|c].
  - cbn. now rewrite lookup_app_l.
  - rewrite lookup_app_r by lia.
    replace (S c * length l + a - length l) with (c * length l + a) by lia.
    apply IH; lia.
Qed.

Lemma particles_before_nonneg (items : list (Topology.t * nat)) (t : nat) :
  (0 ≤ particles_before items t)%Z.
Proof. unfold particles_before. lia. Qed.

Lemma lookup_blocks {A} (block : Topology.t → list A)
    (items : list (Topology.t * nat)) :
  Forall (λ item, length (block item.1) = Topology.n_particles item.1) items →
  Z.of_nat (length (flat_map (λ item, concat (replicate item.2 (block item.1)))
                      items))
  = particles_before items (length items)
  ∧ ∀ t item c a,
      items !! t = Some item → c < item.2 →
      a < Topology.n_particles item.1 →
      flat_map (λ item, concat (replicate item.2 (block item.1))) items
        !! (Z.to_nat (copy_start items t item.1 c) + a)
      = block item.1 !! a.
Proof.
  induction 1 as [|item0 items Hblock0 _ [IHlen IH]].
  - split; [reflexivity|]. intros t item c a Ht. discriminate.
  - cbv beta in Hblock0.
    assert (Hlen0 : length (concat (replicate item0.2 (block item0.1)))
                    = item0.2 * Topology.n_particles item0.1)
      by (rewrite length_concat_replicate; lia).
    split.
    + cbn [flat_map length]. rewrite length_app, Hlen0.
      rewrite particles_before_cons. lia.
    + intros t item c a Ht Hc Ha. cbn [flat_map].
      destruct t as [|t].
      * injection Ht as <-. unfold copy_start, particles_before. cbn [take].
        cbn [map sum_list].
        replace (Z.to_nat (Z.of_nat 0
                           + Z.of_nat c * Z.of_nat (Topology.n_particles item0.1))
                 + a)
          with (c * length (block item0.1) + a) by lia.
        rewrite lookup_app_l by (rewrite Hlen0; nia).
        apply lookup_concat_replicate; lia.
      * cbn [lookup list_lookup] in Ht.
        unfold copy_start. rewrite particles_before_cons.
        pose proof (particles_before_nonneg items t) as Hnonneg.
        rewrite lookup_app_r by (rewrite Hlen0; nia).
        rewrite <- (IH t item c a Ht Hc Ha). f_equal.
        rewrite Hlen0. unfold copy_start. nia.
Qed.

(** X18: on a system without virtual sites whose topologies carry fitting
    assignment matrices, [broadcast_parameters] returns one row per particle
    of the system, and the row of atom [a] of copy [c] of a topology, at the
    offset of that copy in the system, is row [a] of the product of the
    assignment matrix of the topology and the parameter table: every copy
    of a topology receives the same parameters, in the particle order that
    [broadcast_exclusions] uses. *)
Theorem broadcast_parameters_copies (system : System.t)
    (potential : Potential.t) :
  let items := zip (System.topologies system) (System.n_copies system) in
  items ≠ [] →
  Potential.n_cols potential ≠ 0 →
  Forall (λ topology, assigned potential topology
                      ∧ Topology.n_v_sites topology = 0)
         (System.topologies system) →
  ∃ parameters,
    broadcast_parameters system potential = Ok parameters
    ∧ length parameters = System.n_particles system
    ∧ ∀ t item c a,
        items !! t = Some item → c < item.2 →
        a < Topology.n_atoms item.1 →
        parameters !! (Z.to_nat (copy_start items t item.1 c) + a)
        = matmul_rows (assignment_of potential item.1)
            (Potential.parameters potential) (Potential.n_cols potential)
          !! a.
Proof.
  intros items Hne Hcols Htops.
  eexists. split.
  - apply broadcast_parameters_ok; [exact Hne|exact Hcols|].
    eapply Forall_impl; [exact Htops|]. now intros topology [H _].
  - fold items.
    assert (Hblocks :
      Forall (λ item,
                length (matmul_rows (assignment_of potential item.1)
                          (Potential.parameters potential)
                          (Potential.n_cols potential))
                = Topology.n_particles item.1) items).
    { apply (Forall_zip_fst
               (λ topology,
                  length (matmul_rows (assignment_of potential topology)
                            (Potential.parameters potential)
                            (Potential.n_cols potential))
                  = Topology.n_particles topology)).
      eapply Forall_impl; [exact Htops|].
      intros topology [(_ & Hrows & _) Hv]. unfold matmul_rows.
      rewrite length_map, Hrows. unfold Topology.n_particles. lia. }
    destruct (lookup_blocks
                (λ topology,
                   matmul_rows (assignment_of potential topology)
                     (Potential.parameters potential)
                     (Potential.n_cols potential))
                items Hblocks) as [Hlen Hrows].
    split.
    + apply Nat2Z.inj. rewrite Hlen. unfold items.
      now rewrite <- system_n_particles_before.
    + intros t item c a Ht Hc Ha. apply Hrows; [exact Ht|exact Hc|].
      unfold Topology.n_particles. lia.
Qed.


Lemma broadcast_parameters_copies_witness :
  ∃ parameters,
    broadcast_parameters two_diatomics lj_scaled = Ok parameters
    ∧ length parameters = System.n_particles two_diatomics
    ∧ ∀ t item c a,
        zip (System.topologies two_diatomics) (System.n_copies two_diatomics)
          !! t = Some item →
        c < item.2 →
        a < Topology.n_atoms item.1 →
        parameters
          !! (Z.to_nat
                (copy_start
                   (zip (System.topologies two_diatomics)
                        (System.n_copies two_diatomics)) t item.1 c) + a)
        = matmul_rows (assignment_of lj_scaled item.1)
            (Potential.parameters lj_scaled) (Potential.n_cols lj_scaled)
          !! a.
Proof.
  apply (broadcast_parameters_copies two_diatomics lj_scaled).
  - discriminate.
  - discriminate.
  - repeat constructor; try (eexists; reflexivity).
Defined.


Lemma mapM_app_raise {A B} (f : A → result B) (good rest : list A) (bad : A)
    (e : exn) :
  (∀ x, x ∈ good → ∃ y, f x = Ok y) → f bad = Raise e →
  mapM f (good ++ bad :: rest) = Raise e.
Proof.
  intros Hgood Hbad. induction good as [|x good IH]; cbn.
  - now rewrite Hbad.
  - destruct (Hgood x ltac:(left)) as [y ->]. cbn.
    rewrite IH; [reflexivity|]. intros z Hz. apply Hgood. now right.
Qed.

Lemma det_cases (m : list (list R)) :
  det m = Raise RuntimeError ∨ ∃ volume, det m = Ok volume.
Proof.
  unfold det.
  repeat match goal with
         | |- context [match ?l with [] => _ | _ :: _ => _ end] => destruct l
         end; eauto.
Qed.

(** X19: [broadcast_parameters] broadcasts the parameters of a topology to
    [n_atoms] rows, while the assignment matrix has one row per particle. In
    any system, the first topology that has both atoms and virtual sites
    makes it raise [RuntimeError]: the parameters of a system with virtual
    sites cannot be broadcast. Both periodic paths broadcast the parameters
    before they compute anything from them, so that on such a system, when
    it is periodic, [_compute_lj_energy_periodic] and the preparation of
    [_compute_coulomb_energy_periodic] raise [RuntimeError] as well. *)
Theorem broadcast_parameters_virtual_sites (system : System.t)
    (potential : Potential.t) (good rest : list (Topology.t * nat))
    (topology : Topology.t) (n_copies : nat) (parameter_map : ParameterMap.t) :
  zip (System.topologies system) (System.n_copies system)
  = good ++ (topology, n_copies) :: rest →
  Potential.n_cols potential ≠ 0 →
  Forall (λ item, assigned potential item.1) good →
  Topology.parameters topology !! Potential.type potential
  = Some parameter_map →
  length (ParameterMap.assignment_matrix parameter_map)
  = Topology.n_particles topology →
  Forall (λ row, length row = length (Potential.parameters potential))
         (ParameterMap.assignment_matrix parameter_map) →
  0 < Topology.n_atoms topology →
  0 < Topology.n_v_sites topology →
  broadcast_parameters system potential = Raise RuntimeError
  ∧ (System.is_periodic system = true →
     ∀ getNeighborPairs conformer box_vectors,
       _compute_lj_energy_periodic getNeighborPairs system conformer
         box_vectors potential
       = Raise RuntimeError
       ∧ _compute_coulomb_energy_periodic_inputs getNeighborPairs system
           conformer box_vectors potential
         = Raise RuntimeError).
Proof.
  intros Hitems Hcols Hgood Hmap Hlen Hrows Hatoms Hsites.
  assert (Hraise : broadcast_parameters system potential = Raise RuntimeError).
  { unfold broadcast_parameters. rewrite Hitems.
    rewrite (mapM_app_raise _ _ _ _ RuntimeError); [reflexivity| |].
    - intros [top k] Hin.
      destruct (proj1 (Forall_forall _ _) Hgood _ Hin)
        as ([pm Hpm] & Hl & Hr).
      cbn [fst] in *. unfold assignment_of in *. rewrite Hpm in *.
      unfold dict_get. rewrite Hpm. cbn [mbind result_bind].
      rewrite matmul_ok by exact Hr. cbn [mbind result_bind].
      unfold broadcast_block.
      rewrite broadcast_to_len_same
        by (unfold matmul_rows; now rewrite length_map).
      cbn [mbind result_bind]. rewrite decide_False by exact Hcols. eauto.
    - unfold dict_get. rewrite Hmap. cbn [mbind result_bind].
      rewrite matmul_ok by exact Hrows. cbn [mbind result_bind].
      unfold broadcast_block, broadcast_to_len, matmul_rows.
      rewrite length_map.
      rewrite decide_False by (unfold Topology.n_particles in Hlen; lia).
      unfold Topology.n_particles in Hlen.
      destruct (ParameterMap.assignment_matrix parameter_map)
        as [|row1 [|row2 rows]]; cbn in *; try reflexivity; lia. }
  split; [exact Hraise|].
  intros Hperiodic getNeighborPairs conformer box_vectors. split.
  - unfold _compute_lj_energy_periodic, _compute_lj_energy_periodic_pairs.
    rewrite Hperiodic, Hraise. cbn [mbind result_bind].
    now destruct (det_cases box_vectors) as [->|[volume ->]].
  - unfold _compute_coulomb_energy_periodic_inputs.
    now rewrite Hperiodic, Hraise.
Qed.

Lemma broadcast_parameters_virtual_sites_witness :
  broadcast_parameters
    (System.mk [four_site_water; four_site_water] [3; 1] true) water_charges
  = Raise RuntimeError
  ∧ (System.is_periodic
       (System.mk [four_site_water; four_site_water] [3; 1] true) = true →
     ∀ getNeighborPairs conformer box_vectors,
       _compute_lj_energy_periodic getNeighborPairs
         (System.mk [four_site_water; four_site_water] [3; 1] true) conformer
         box_vectors water_charges
       = Raise RuntimeError
       ∧ _compute_coulomb_energy_periodic_inputs getNeighborPairs
           (System.mk [four_site_water; four_site_water] [3; 1] true)
           conformer box_vectors water_charges
         = Raise RuntimeError).
Proof.
  apply (broadcast_parameters_virtual_sites _ water_charges []
           [(four_site_water, 1)] four_site_water 3
           (ParameterMap.mk
              [[1; 0; 0]; [0; 1; 0]; [0; 1; 0]; [0; 0; 1]]%R
              [(0, 1); (0, 2); (1, 2); (0, 3); (1, 3); (2, 3)]%Z
              [0; 0; 1; 0; 1; 1]%Z)).
  - reflexivity.
  - discriminate.
  - constructor.
  - apply lookup_singleton_eq.
  - reflexivity.
  - repeat constructor.
  - cbn. lia.
  - cbn. lia.
Defined.


(** ** The exclusion table of the PME functions *)

Lemma append_at_ok (lists : list (list Z)) (i j : Z) :
  (0 ≤ i < Z.of_nat (length lists))%Z →
  append_at lists i j = Ok (alter (λ l, l ++ [j]) (Z.to_nat i) lists).
Proof.
  intros Hi. unfold append_at. rewrite wrap_index_nonneg by exact Hi.
  cbn [mbind result_bind].
  destruct (lookup_lt_is_Some_2 lists (Z.to_nat i) ltac:(lia)) as [l Hl].
  rewrite Hl. f_equal. apply list_eq. intros k.
  rewrite list_lookup_alter.
  destruct (decide (Z.to_nat i = k)) as [<-|Hk].
  - rewrite Hl. cbn. apply list_lookup_insert_eq.
    apply lookup_lt_Some in Hl. exact Hl.
  - now rewrite list_lookup_insert_ne.
Qed.

Lemma len_at_ok (lists : list (list Z)) (i : Z) (l : list Z) :
  (0 ≤ i)%Z → lists !! Z.to_nat i = Some l → len_at lists i = Ok (length l).
Proof.
  intros Hi Hl. unfold len_at. now rewrite (getitem_lookup _ _ l).
Qed.

Lemma max_list_le (ns : list nat) (m : nat) :
  Forall (λ n, n ≤ m) ns → max_list ns ≤ m.
Proof. induction 1; cbn; lia. Qed.

Lemma max_list_length_le (ls : list (list Z)) (l : list Z) :
  l ∈ ls → length l ≤ max_list (length <$> ls).
Proof.
  intros Hl. apply max_list_elem_of_le. now apply list_elem_of_fmap_2.
Qed.

Lemma partners_cons (p : Z * Z) (pairs : list (Z * Z)) (a : Z) :
  partners (p :: pairs) a
  = (if decide (p.1 = a) then [p.2] else [])
    ++ (if decide (p.2 = a) then [p.1] else []) ++ partners pairs a.
Proof. unfold partners. cbn [flat_map]. now rewrite <- app_assoc. Qed.

Lemma pme_template_loop_ok (pairs : list (Z * Z))
    (exclusions : list (list Z)) (max_exclusions : nat) :
  pairs_in_range (length exclusions) pairs →
  max_list (length <$> exclusions) ≤ max_exclusions →
  pme_template_loop exclusions max_exclusions pairs
  = Ok (imap (λ a l, l ++ partners pairs (Z.of_nat a)) exclusions,
        Nat.max max_exclusions
          (max_list (length <$> imap (λ a l, l ++ partners pairs (Z.of_nat a))
                                     exclusions))).
Proof.
  intros Hrange. revert exclusions max_exclusions Hrange.
  induction pairs as [|[i j] pairs IH]; intros exclusions m Hrange Hmax.
  - cbn [pme_template_loop].
    assert (Hid : imap (λ a l, l ++ partners [] (Z.of_nat a)) exclusions
                  = exclusions).
    { apply list_eq. intros k. rewrite list_lookup_imap.
      destruct (exclusions !! k); cbn; [|reflexivity].
      now rewrite app_nil_r. }
    rewrite Hid. do 2 f_equal. lia.
  - inversion Hrange as [|p ps [Hi Hj] Hrest]; subst. cbn [fst snd] in *.
    cbn [pme_template_loop].
    rewrite append_at_ok by exact Hi. cbn [mbind result_bind].
    rewrite append_at_ok by (rewrite length_alter; exact Hj).
    cbn [mbind result_bind].
    set (ex2 := alter (λ l, l ++ [i]) (Z.to_nat j)
                  (alter (λ l, l ++ [j]) (Z.to_nat i) exclusions)).
    assert (Hlen2 : length ex2 = length exclusions)
      by (unfold ex2; now rewrite !length_alter).
    assert (Hex2 : ∀ k l, exclusions !! k = Some l →
              ex2 !! k
              = Some (l ++ (if decide (i = Z.of_nat k) then [j] else [])
                        ++ (if decide (j = Z.of_nat k) then [i] else []))).
    { intros k l Hl. unfold ex2.
      destruct (decide (j = Z.of_nat k)) as [Hjk|Hjk];
        destruct (decide (i = Z.of_nat k)) as [Hik|Hik].
      - replace (Z.to_nat j) with k by lia.
        replace (Z.to_nat i) with k by lia.
        rewrite !list_lookup_alter_eq, Hl. cbn. now rewrite <- app_assoc.
      - replace (Z.to_nat j) with k by lia.
        rewrite list_lookup_alter_eq, list_lookup_alter_ne by lia.
        now rewrite Hl.
      - rewrite list_lookup_alter_ne by lia.
        replace (Z.to_nat i) with k by lia.
        rewrite list_lookup_alter_eq, Hl. cbn. now rewrite ?app_nil_r.
      - rewrite !list_lookup_alter_ne by lia. rewrite Hl. cbn.
        now rewrite ?app_nil_r. }
    destruct (lookup_lt_is_Some_2 exclusions (Z.to_nat i) ltac:(lia))
      as [li Hli].
    destruct (lookup_lt_is_Some_2 exclusions (Z.to_nat j) ltac:(lia))
      as [lj Hlj].
    rewrite (len_at_ok ex2 i _ ltac:(lia) (Hex2 _ _ Hli)).
    cbn [mbind result_bind].
    rewrite (len_at_ok ex2 j _ ltac:(lia) (Hex2 _ _ Hlj)).
    cbn [mbind result_bind].
    assert (Hfinal : imap (λ a l, l ++ partners pairs (Z.of_nat a)) ex2
                     = imap (λ a l, l ++ partners ((i, j) :: pairs) (Z.of_nat a))
                            exclusions).
    { apply list_eq. intros k. rewrite !list_lookup_imap.
      destruct (exclusions !! k) as [l|] eqn:Hl.
      - rewrite (Hex2 _ _ Hl). cbn [fmap option_fmap option_map].
        rewrite partners_cons. cbn [fst snd]. now rewrite <- !app_assoc.
      - replace (ex2 !! k) with (@None (list Z)); [reflexivity|].
        symmetry. apply lookup_ge_None. rewrite Hlen2.
        now apply lookup_ge_None. }
    rewrite IH.
    + rewrite Hfinal. do 2 f_equal.
      set (final := imap _ exclusions).
      assert (Hfi : ∀ k l, exclusions !! k = Some l →
                length (l ++ (if decide (i = Z.of_nat k) then [j] else [])
                          ++ (if decide (j = Z.of_nat k) then [i] else []))
                ≤ max_list (length <$> final)).
      { intros k l Hl.
        assert (Hin : (l ++ partners ((i, j) :: pairs) (Z.of_nat k)) ∈ final).
        { unfold final. apply list_elem_of_lookup. exists k.
          rewrite list_lookup_imap, Hl. reflexivity. }
        apply max_list_length_le in Hin. rewrite partners_cons in Hin.
        cbn [fst snd] in Hin. rewrite !length_app in *. lia. }
      pose proof (Hfi _ _ Hli). pose proof (Hfi _ _ Hlj). lia.
    + now rewrite Hlen2.
    + apply max_list_le. apply Forall_forall. intros n Hn.
      apply list_elem_of_fmap in Hn as (l & -> & Hl).
      apply list_elem_of_lookup in Hl as [k Hk].
      destruct (exclusions !! k) as [l0|] eqn:Hl0.
      * rewrite (Hex2 _ _ Hl0) in Hk. injection Hk as <-.
        pose proof (max_list_length_le exclusions l0
                      (list_elem_of_lookup_2 _ _ _ Hl0)) as Hl0m.
        assert (Hi' : i = Z.of_nat k → li = l0)
          by (intros ->; rewrite Nat2Z.id in Hli; congruence).
        assert (Hj' : j = Z.of_nat k → lj = l0)
          by (intros ->; rewrite Nat2Z.id in Hlj; congruence).
        destruct (decide (i = Z.of_nat k)) as [Hik|Hik];
          [specialize (Hi' Hik); subst li|];
          (destruct (decide (j = Z.of_nat k)) as [Hjk|Hjk];
           [specialize (Hj' Hjk); subst lj|]);
          rewrite !length_app; repeat case_decide; cbn [length]; lia.
      * apply lookup_lt_Some in Hk. apply lookup_ge_None in Hl0. lia.
Qed.

Lemma template_fresh (pairs : list (Z * Z)) (n : nat) :
  imap (λ a l, l ++ partners pairs (Z.of_nat a)) (replicate n [])
  = map (λ a, partners pairs (Z.of_nat a)) (seq 0 n).
Proof.
  apply list_eq. intros k. rewrite list_lookup_imap, list_lookup_fmap.
  destruct (decide (k < n)) as [Hk|Hk].
  - rewrite lookup_replicate_2, lookup_seq_lt by lia. reflexivity.
  - rewrite lookup_seq_ge by lia.
    replace (replicate n [] !! k) with (@None (list Z)); [reflexivity|].
    symmetry. apply lookup_ge_None. rewrite length_replicate. lia.
Qed.

Lemma max_list_fresh (n : nat) :
  max_list (length <$> replicate n ([] : list Z)) = 0.
Proof. induction n as [|n IH]; cbn; [reflexivity|]. exact IH. Qed.

Lemma pme_templates_ok (potential : Potential.t)
    (items : list (Topology.t * nat)) (max_exclusions : nat) :
  Forall (λ item,
            is_Some (Topology.parameters item.1 !! Potential.type potential)
            ∧ pairs_in_range (Topology.n_particles item.1)
                (exclusions_of potential item.1)) items →
  pme_templates potential max_exclusions items
  = Ok (map (λ item, template_of potential item.1) items,
        Nat.max max_exclusions (max_partners potential items)).
Proof.
  intros Hitems. revert max_exclusions.
  induction Hitems as [|[topology n] items ([pm Hpm] & Hrange) _ IH];
    intros m.
  - cbn. do 2 f_equal. unfold max_partners. cbn. lia.
  - cbn [fst] in *. cbn [pme_templates]. unfold dict_get. rewrite Hpm.
    cbn [mbind result_bind].
    unfold exclusions_of in Hrange. rewrite Hpm in Hrange.
    rewrite pme_template_loop_ok;
      [|now rewrite length_replicate|rewrite max_list_fresh; lia].
    cbn [mbind result_bind fst snd]. rewrite IH.
    cbn [mbind result_bind fst snd map]. rewrite template_fresh.
    assert (Htemplate :
      template_of potential topology
      = map (λ a, partners (ParameterMap.exclusions pm) (Z.of_nat a))
            (seq 0 (Topology.n_particles topology))).
    { unfold template_of, exclusions_of. now rewrite Hpm. }
    rewrite <- Htemplate.
    assert (Hmax : max_partners potential ((topology, n) :: items)
                   = Nat.max (max_list (length <$> template_of potential topology))
                             (max_partners potential items)) by reflexivity.
    rewrite Hmax. apply (f_equal Ok), (f_equal (pair _)). lia.
Qed.

Lemma lookup_concat_seq {A} (f : nat → list A) (n len s c a : nat) :
  (∀ c, length (f c) = len) → c < n → a < len →
  concat (map f (seq s n)) !! (c * len + a) = f (s + c) !! a.
Proof.
  intros Hlen. revert s c. induction n as [|n IH]; intros s c Hc Ha; [lia|].
  cbn [seq map concat]. destruct c as [|c].
  - rewrite lookup_app_l by (rewrite Hlen; lia).
    now rewrite Nat.add_0_r.
  - rewrite lookup_app_r by (rewrite Hlen; lia).
    rewrite Hlen.
    replace (S c * len + a - len) with (c * len + a) by lia.
    rewrite IH by lia. now replace (S s + c) with (s + S c) by lia.
Qed.

Lemma length_concat_seq {A} (f : nat → list A) (n len s : nat) :
  (∀ c, length (f c) = len) →
  length (concat (map f (seq s n))) = n * len.
Proof.
  intros Hlen. revert s. induction n as [|n IH]; intros s; [reflexivity|].
  cbn [seq map concat]. rewrite length_app, Hlen, IH. lia.
Qed.

Lemma pme_row_shift (width : nat) (offset : Z) (l : list Z) :
  Forall (λ e, (0 ≤ e)%Z) l →
  map (λ e, if decide (0 ≤ e)%Z then (e + offset)%Z else e)
      (l ++ replicate (width - length l) (-1)%Z)
  = pme_row width offset l.
Proof.
  intros Hl. unfold pme_row. rewrite map_app. f_equal.
  - apply map_ext_in. intros e He%list_elem_of_In.
    pose proof (proj1 (Forall_forall _ _) Hl e He) as H0. cbv beta in H0.
    rewrite decide_True by exact H0. lia.
  - generalize (width - length l). intros k.
    induction k as [|k IH]; [reflexivity|]. cbn. now rewrite IH.
Qed.

Lemma pme_blocks_ok (max_exclusions : nat)
    (items : list (list (list Z) * (Topology.t * nat))) (idx_offset : Z) :
  max_exclusions ≠ 0 →
  Forall (λ x, length x.1 = Topology.n_particles x.2.1
               ∧ 0 < Topology.n_particles x.2.1
               ∧ Forall (Forall (λ e, (0 ≤ e)%Z)) x.1
               ∧ Forall (λ l, length l ≤ max_exclusions) x.1) items →
  ∃ blocks,
    pme_blocks max_exclusions idx_offset items = Ok blocks
    ∧ length blocks = length items
    ∧ Forall (λ row, length row = max_exclusions) (concat blocks)
    ∧ Z.of_nat (length (concat blocks))
      = particles_before items.*2 (length items)
    ∧ ∀ t template item c a l,
        items !! t = Some (template, item) → c < item.2 →
        template !! a = Some l →
        concat blocks !! (Z.to_nat (copy_start items.*2 t item.1 c) + a)
        = Some (pme_row max_exclusions
                  (idx_offset + copy_start items.*2 t item.1 c) l).
Proof.
  intros Hmax Hitems. revert idx_offset.
  induction Hitems
    as [|[template [topology n]] items (Hlen & Hpos & Hnonneg & Hshort) _ IH];
    intros idx_offset.
  - exists []. repeat split; try reflexivity; [constructor|].
    intros t template item c a l Ht. discriminate.
  - cbn [fst snd] in *. cbn [pme_blocks].
    rewrite decide_False by (rewrite length_map; lia).
    cbn [mbind result_bind]. rewrite decide_False by exact Hmax.
    cbn [mbind result_bind].
    destruct (IH (idx_offset
                  + Z.of_nat n * Z.of_nat (Topology.n_particles topology))%Z)
      as (rest & -> & Hrest_len & Hrest_rows & Hrest_total & Hrest).
    cbn [mbind result_bind]. eexists. split; [reflexivity|].
    rewrite map_map.
    set (f := λ c : nat,
           map (map (λ e, if decide (0 ≤ e)%Z
                          then (e + (idx_offset
                                     + Z.of_nat c
                                       * Z.of_nat (Topology.n_particles topology)))%Z
                          else e))
               (map (λ atom_exclusions,
                       atom_exclusions
                       ++ replicate (max_exclusions - length atom_exclusions)
                                    (-1)%Z)
                    template)).
    assert (Hf : ∀ c, length (f c) = Topology.n_particles topology)
      by (intros c; unfold f; now rewrite !length_map).
    pose proof (length_concat_seq f n _ 0 Hf) as Hblock.
    split; [cbn; now rewrite Hrest_len|]. split; [|split].
    + cbn [concat]. apply Forall_app. split; [|exact Hrest_rows].
      apply Forall_concat, Forall_fmap, Forall_forall. intros c _.
      unfold f. apply Forall_fmap, Forall_fmap, Forall_forall. intros l Hl.
      unfold compose. rewrite length_map, length_app, length_replicate.
      pose proof (proj1 (Forall_forall _ _) Hshort l Hl) as Hle.
      cbv beta in Hle. lia.
    + cbn [concat length fmap list_fmap]. rewrite length_app, Hblock.
      rewrite particles_before_cons. cbn [fst snd]. lia.
    + intros t template' item c a l Ht Hc Hl. cbn [concat].
      destruct t as [|t].
      * injection Ht as <- <-. cbn [fst snd] in *.
        unfold copy_start, particles_before. cbn [take map sum_list fmap list_fmap].
        apply lookup_lt_Some in Hl as Ha.
        replace (Z.to_nat (Z.of_nat 0
                           + Z.of_nat c * Z.of_nat (Topology.n_particles topology))
                 + a)
          with (c * Topology.n_particles topology + a) by lia.
        rewrite lookup_app_l by (rewrite Hblock; nia).
        rewrite (lookup_concat_seq f n _ 0 c a Hf) by lia.
        unfold f. rewrite !list_lookup_fmap, Hl. cbn [fmap option_fmap option_map].
        rewrite pme_row_shift.
        -- do 2 f_equal; lia.
        -- apply (proj1 (Forall_forall _ _) Hnonneg).
           eapply list_elem_of_lookup_2, Hl.
      * cbn [lookup list_lookup] in Ht.
        cbn [fmap list_fmap snd]. unfold copy_start.
        rewrite particles_before_cons. cbn [fst snd].
        pose proof (particles_before_nonneg items.*2 t) as Hnn.
        rewrite lookup_app_r by (rewrite Hblock; nia).
        specialize (Hrest t template' item c a l Ht Hc Hl).
        unfold copy_start in Hrest.
        rewrite Hblock.
        match goal with
        | |- concat rest !! ?k = _ =>
            replace k with
              (Z.to_nat (particles_before items.*2 t
                         + Z.of_nat c * Z.of_nat (Topology.n_particles item.1))
               + a) by nia
        end.
        rewrite Hrest. do 2 f_equal; lia.
Qed.

Lemma elem_of_partners (pairs : list (Z * Z)) (a b : Z) :
  b ∈ partners pairs a ↔ (a, b) ∈ pairs ∨ (b, a) ∈ pairs.
Proof.
  unfold partners. rewrite elem_of_flat_map. split.
  - intros ([i j] & Hp & Hb). cbn [fst snd] in Hb.
    apply elem_of_app in Hb as [Hb|Hb]; case_decide; subst;
      try (now apply elem_of_nil in Hb);
      apply list_elem_of_singleton in Hb as ->; auto.
  - intros [Hp|Hp]; eexists; (split; [exact Hp|]); cbn [fst snd];
      apply elem_of_app; [left|right];
      rewrite decide_True by reflexivity; now left.
Qed.

Lemma partners_nonneg (n : nat) (pairs : list (Z * Z)) (a : Z) :
  pairs_in_range n pairs → Forall (λ e, (0 ≤ e)%Z) (partners pairs a).
Proof.
  intros Hrange. apply Forall_forall. intros b Hb.
  apply elem_of_partners in Hb as [Hb|Hb];
    pose proof (proj1 (Forall_forall _ _) Hrange _ Hb) as H0;
    cbn [fst snd] in H0; lia.
Qed.

Lemma template_of_length (potential : Potential.t) (topology : Topology.t) :
  length (template_of potential topology) = Topology.n_particles topology.
Proof. unfold template_of. now rewrite length_map, length_seq. Qed.

Lemma max_partners_le (potential : Potential.t)
    (items : list (Topology.t * nat)) (item : Topology.t * nat) (l : list Z) :
  item ∈ items → l ∈ template_of potential item.1 →
  length l ≤ max_partners potential items.
Proof.
  intros Hitem Hl. unfold max_partners.
  etransitivity; [apply (max_list_length_le _ _ Hl)|].
  apply max_list_elem_of_le.
  apply (list_elem_of_fmap_2
           (λ item, max_list (length <$> template_of potential item.1))).
  exact Hitem.
Qed.

Lemma pme_templates_zip (potential : Potential.t)
    (items : list (Topology.t * nat)) :
  (zip (map (λ item, template_of potential item.1) items) items).*2 = items.
Proof.
  induction items as [|item items IH]; [reflexivity|]. cbn. now rewrite IH.
Qed.

Lemma compute_pme_exclusions_ok (system : System.t) (potential : Potential.t) :
  let items := zip (System.topologies system) (System.n_copies system) in
  let width := max_partners potential items in
  Forall (pme_topology potential) (System.topologies system) →
  items ≠ [] → width ≠ 0 →
  ∃ table,
    _compute_pme_exclusions system potential = Ok table
    ∧ length table = System.n_particles system
    ∧ Forall (λ row, length row = width) table
    ∧ ∀ t item c a,
        items !! t = Some item → c < item.2 →
        a < Topology.n_particles item.1 →
        table !! (Z.to_nat (copy_start items t item.1 c) + a)
        = Some (pme_row width (copy_start items t item.1 c)
                  (partners (exclusions_of potential item.1) (Z.of_nat a))).
Proof.
  intros items width Htops Hne Hwidth.
  assert (Hitems : Forall (λ item, pme_topology potential item.1) items)
    by now apply Forall_zip_fst.
  unfold _compute_pme_exclusions. fold items.
  rewrite pme_templates_ok
    by (eapply Forall_impl; [exact Hitems|]; now intros item (H & _ & H')).
  cbn [mbind result_bind fst snd]. rewrite Nat.max_0_l. fold width.
  set (templates := map (λ item, template_of potential item.1) items).
  destruct (pme_blocks_ok width (zip templates items) 0 Hwidth)
    as (blocks & -> & Hlen & Hrows & Htotal & Hlookup).
  { apply Forall_forall. intros [template item] Hin.
    apply list_elem_of_lookup in Hin as [t Ht].
    apply lookup_zip_with_Some in Ht as (x & y & Heq & Hx & Hy).
    injection Heq as -> ->. unfold templates in Hx. rewrite list_lookup_fmap, Hy in Hx.
    injection Hx as <-. cbn [fst snd].
    pose proof (proj1 (Forall_forall _ _) Hitems y
                  (list_elem_of_lookup_2 _ _ _ Hy)) as (_ & Hpos & Hrange).
    split; [apply template_of_length|]. split; [exact Hpos|]. split.
    - apply Forall_forall. intros l Hl. unfold template_of in Hl.
      apply list_elem_of_fmap in Hl as (a & -> & _).
      eapply partners_nonneg, Hrange.
    - apply Forall_forall. intros l Hl.
      eapply max_partners_le; [|exact Hl].
      eapply list_elem_of_lookup_2, Hy. }
  cbn [mbind result_bind]. unfold templates in *.
  rewrite pme_templates_zip in *.
  assert (Hblocks : blocks ≠ []).
  { intros ->. destruct items; [congruence|]. cbn in Hlen. discriminate. }
  exists (concat blocks). split.
  { unfold vstack. destruct blocks; [congruence|reflexivity]. }
  split.
  { apply Nat2Z.inj. rewrite Htotal, length_zip_with, length_map.
    rewrite Nat.min_id. unfold items. now rewrite <- system_n_particles_before. }
  split; [exact Hrows|].
  intros t item c a Ht Hc Ha.
  rewrite (Hlookup t (template_of potential item.1) item c a
             (partners (exclusions_of potential item.1) (Z.of_nat a))).
  - now rewrite Z.add_0_l.
  - apply lookup_zip_with_Some. exists (template_of potential item.1), item.
    split; [reflexivity|]. split; [|exact Ht].
    now rewrite list_lookup_fmap, Ht.
  - exact Hc.
  - unfold template_of. rewrite list_lookup_fmap, lookup_seq_lt by exact Ha.
    reflexivity.
Qed.

Lemma max_partners_pos (potential : Potential.t)
    (items : list (Topology.t * nat)) (item : Topology.t * nat) (p : Z * Z) :
  item ∈ items →
  pairs_in_range (Topology.n_particles item.1) (exclusions_of potential item.1) →
  p ∈ exclusions_of potential item.1 →
  0 < max_partners potential items.
Proof.
  intros Hitem Hrange Hp.
  pose proof (proj1 (Forall_forall _ _) Hrange p Hp) as [H1 H2].
  assert (Hin : partners (exclusions_of potential item.1) p.1
                ∈ template_of potential item.1).
  { unfold template_of. apply list_elem_of_fmap.
    exists (Z.to_nat p.1). split; [f_equal; lia|].
    apply elem_of_seq. lia. }
  pose proof (max_partners_le potential items item _ Hitem Hin) as Hle.
  assert (Hb : p.2 ∈ partners (exclusions_of potential item.1) p.1).
  { apply elem_of_partners. left. now destruct p. }
  destruct (partners (exclusions_of potential item.1) p.1);
    [now apply elem_of_nil in Hb|].
  cbn in Hle. lia.
Qed.

(** X20: the exclusion table of the PME functions. On a system whose
    topologies each have parameters for the handler, at least one particle
    and exclusions between their own particles, one of them at least,
    [_compute_pme_exclusions] returns a table with one row per particle of
    the system and as many columns as the largest number of partners that
    a particle has. The row of particle [a] of copy [c] of a topology, at
    the offset of the copy, holds the partners of [a] in the order of the
    exclusion list, moved by that offset, then [-1] up to the width. The
    partners of [a] are the particles that an exclusion pairs with [a], in
    either order, so that [b] is in the row of [a] exactly when [a] is in
    the row of [b]. *)
Theorem compute_pme_exclusions_table (system : System.t)
    (potential : Potential.t) :
  let items := zip (System.topologies system) (System.n_copies system) in
  let width := max_partners potential items in
  Forall (pme_topology potential) (System.topologies system) →
  (∃ item, item ∈ items ∧ exclusions_of potential item.1 ≠ []) →
  ∃ table,
    _compute_pme_exclusions system potential = Ok table
    ∧ 0 < width
    ∧ length table = System.n_particles system
    ∧ Forall (λ row, length row = width) table
    ∧ (∀ t item c a,
         items !! t = Some item → c < item.2 →
         a < Topology.n_particles item.1 →
         table !! (Z.to_nat (copy_start items t item.1 c) + a)
         = Some (pme_row width (copy_start items t item.1 c)
                   (partners (exclusions_of potential item.1) (Z.of_nat a))))
    ∧ (∀ pairs a b,
         (b ∈ partners pairs a ↔ (a, b) ∈ pairs ∨ (b, a) ∈ pairs)
         ∧ (b ∈ partners pairs a ↔ a ∈ partners pairs b)).
Proof.
  intros items width Htops (item & Hitem & Hexcl).
  assert (Hitems : Forall (λ item, pme_topology potential item.1) items)
    by now apply Forall_zip_fst.
  assert (Hwidth : 0 < width).
  { destruct (exclusions_of potential item.1) as [|p pairs] eqn:Hpairs;
      [congruence|].
    apply (max_partners_pos potential items item p Hitem).
    - now apply (proj1 (Forall_forall _ _) Hitems item Hitem).
    - rewrite Hpairs. now left. }
  destruct (compute_pme_exclusions_ok system potential Htops)
    as (table & Htable & Hlen & Hrows & Hlookup).
  { intros Hnil. fold items in Hnil. rewrite Hnil in Hitem.
    now apply elem_of_nil in Hitem. }
  { fold items. fold width. lia. }
  exists table. repeat split; try assumption.
  - apply elem_of_partners.
  - apply elem_of_partners.
  - rewrite !elem_of_partners. tauto.
  - rewrite !elem_of_partners. tauto.
Qed.

Lemma compute_pme_exclusions_without_exclusions_raise (system : System.t)
    (potential : Potential.t) :
  Forall (λ topology,
            is_Some (Topology.parameters topology !! Potential.type potential)
            ∧ exclusions_of potential topology = [])
         (System.topologies system) →
  _compute_pme_exclusions system potential = Raise RuntimeError.
Proof.
  intros Htops.
  set (items := zip (System.topologies system) (System.n_copies system)).
  assert (Hitems :
    Forall (λ item,
              is_Some (Topology.parameters item.1 !! Potential.type potential)
              ∧ exclusions_of potential item.1 = []) items)
    by now apply (Forall_zip_fst
                    (λ topology,
                       is_Some (Topology.parameters topology
                                !! Potential.type potential)
                       ∧ exclusions_of potential topology = [])).
  unfold _compute_pme_exclusions. fold items.
  rewrite pme_templates_ok.
  2:{ eapply Forall_impl; [exact Hitems|]. intros item [Hsome ->].
      split; [exact Hsome|constructor]. }
  cbn [mbind result_bind fst snd]. rewrite Nat.max_0_l.
  assert (Hwidth : max_partners potential items = 0).
  { unfold max_partners. clear -Hitems.
    induction Hitems as [|item items [_ Hnil] _ IH]; [reflexivity|].
    cbn [map max_list]. rewrite IH. unfold template_of. rewrite Hnil.
    assert (H0 : ∀ n s, max_list (length <$> map (λ a, partners [] (Z.of_nat a))
                                               (seq s n)) = 0).
    { induction n as [|n IHn]; intros s; [reflexivity|]. cbn. apply IHn. }
    rewrite H0. reflexivity. }
  rewrite Hwidth.
  destruct items as [|[topology n] items']; [reflexivity|].
  cbn [map zip zip_with pme_blocks].
  rewrite decide_False by (intros [_ H]; now apply H).
  cbn [mbind result_bind]. now rewrite decide_True.
Qed.

(** X21: a system in which no topology has an exclusion has no exclusion
    table: the table would have no column, and [_compute_pme_exclusions]
    raises [RuntimeError]. The periodic Coulomb path builds the table in its
    preparation (lines 555 to 567 of [_compute_coulomb_energy_periodic]),
    so that on such a system it raises whatever the conformer, the box and
    the neighbour list are. *)
Theorem compute_pme_exclusions_without_exclusions (system : System.t)
    (potential : Potential.t) :
  Forall (λ topology,
            is_Some (Topology.parameters topology !! Potential.type potential)
            ∧ exclusions_of potential topology = [])
         (System.topologies system) →
  _compute_pme_exclusions system potential = Raise RuntimeError
  ∧ ∀ getNeighborPairs conformer box_vectors,
      raises (_compute_coulomb_energy_periodic_inputs getNeighborPairs system
                conformer box_vectors potential).
Proof.
  intros Htops.
  pose proof (compute_pme_exclusions_without_exclusions_raise system potential
                Htops) as Hraise.
  split; [exact Hraise|].
  intros getNeighborPairs conformer box_vectors.
  unfold _compute_coulomb_energy_periodic_inputs, raises. rewrite Hraise.
  repeat
    match goal with
    | |- ∃ e, Raise ?x = Raise e => eexists; reflexivity
    | |- ∃ e, mbind _ ?m = _ => destruct m; cbn [mbind result_bind]
    end.
Qed.

Lemma compute_pme_exclusions_table_witness :
  ∃ table,
    _compute_pme_exclusions two_diatomics lj_scaled = Ok table
    ∧ 0 < max_partners lj_scaled
          (zip (System.topologies two_diatomics)
               (System.n_copies two_diatomics))
    ∧ length table = System.n_particles two_diatomics
    ∧ Forall (λ row,
                length row
                = max_partners lj_scaled
                    (zip (System.topologies two_diatomics)
                         (System.n_copies two_diatomics))) table
    ∧ (∀ t item c a,
         zip (System.topologies two_diatomics) (System.n_copies two_diatomics)
           !! t = Some item →
         c < item.2 →
         a < Topology.n_particles item.1 →
         table
           !! (Z.to_nat
                 (copy_start
                    (zip (System.topologies two_diatomics)
                         (System.n_copies two_diatomics)) t item.1 c) + a)
         = Some (pme_row
                   (max_partners lj_scaled
                      (zip (System.topologies two_diatomics)
                           (System.n_copies two_diatomics)))
                   (copy_start
                      (zip (System.topologies two_diatomics)
                           (System.n_copies two_diatomics)) t item.1 c)
                   (partners (exclusions_of lj_scaled item.1) (Z.of_nat a))))
    ∧ (∀ pairs a b,
         (b ∈ partners pairs a ↔ (a, b) ∈ pairs ∨ (b, a) ∈ pairs)
         ∧ (b ∈ partners pairs a ↔ a ∈ partners pairs b)).
Proof.
  apply (compute_pme_exclusions_table two_diatomics lj_scaled).
  - repeat constructor; try (eexists; reflexivity); cbn; lia.
  - exists (diatomic 0, 1). split; [now left|discriminate].
Defined.

Lemma compute_pme_exclusions_without_exclusions_witness :
  _compute_pme_exclusions three_atoms lj_scaled = Raise RuntimeError
  ∧ ∀ getNeighborPairs conformer box_vectors,
      raises (_compute_coulomb_energy_periodic_inputs getNeighborPairs
                three_atoms conformer box_vectors lj_scaled).
Proof.
  apply (compute_pme_exclusions_without_exclusions three_atoms lj_scaled).
  repeat constructor. eexists. reflexivity.
Defined.


(** ** The dispersion correction without a switching function *)

Lemma compute_dispersion_term_no_switch (count epsilon sigma : list R)
    (cutoff : option R) (terms : list R) :
  _compute_dispersion_term count epsilon sigma cutoff None = Ok terms →
  length terms = 2.
Proof.
  unfold _compute_dispersion_term. cbn [mbind result_bind].
  destruct (ewise Rmult count epsilon) as [weights|e];
    cbn [mbind result_bind]; [|discriminate].
  destruct (mapM _ _) as [rows|e] eqn:Hrows; cbn [mbind result_bind];
    [|discriminate].
  intros [= <-]. apply mapM_length in Hrows. now rewrite length_map, Hrows.
Qed.

(** X22: [_compute_dispersion_correction] declares both distances as
    optional, but returns a correction only when both are given: without a
    switch distance the terms of the correction have two entries and the
    third one is read, and without a cutoff the assertion of
    [_compute_dispersion_term] fails. *)
Theorem compute_dispersion_correction_needs_both (system : System.t)
    (potential : Potential.t) (cutoff switch_width : option R) (volume : R) :
  raises (_compute_dispersion_correction system potential cutoff None volume)
  ∧ raises (_compute_dispersion_correction system potential None switch_width
              volume).
Proof.
  assert (Hnone : ∀ cutoff,
    raises (_compute_dispersion_correction system potential cutoff None
              volume)).
  { clear cutoff. intros cutoff.
    unfold _compute_dispersion_correction, raises.
    repeat
      match goal with
      | |- ∃ e, Raise ?x = Raise e => eexists; reflexivity
      | |- ∃ e, (let '(_, _) := ?p in _) = _ => destruct p
      | |- ∃ e, mbind _ (_compute_dispersion_term ?a ?b ?c ?d None) = _ =>
          let H := fresh "Hterm" in
          destruct (_compute_dispersion_term a b c d None) eqn:H;
          [apply compute_dispersion_term_no_switch in H|];
          cbn [mbind result_bind]
      | |- ∃ e, mbind _ (getitem ?t 2%Z) = _ =>
          rewrite (getitem_out_of_range t 2%Z);
          [cbn [mbind result_bind]
          |rewrite length_map, length_zip_with; lia]
      | |- ∃ e, mbind _ ?m = _ =>
          destruct m; cbn [mbind result_bind]
      end. }
  split; [apply Hnone|].
  destruct switch_width as [switch_width|]; [|apply Hnone].
  apply compute_dispersion_correction_raises.
Qed.


(** ** Exclusion indices are not validated *)






(** ** The switching function *)

Lemma quintic_factor (x : R) :
  (1 - 6 * x ^ 5 + 15 * x ^ 4 - 10 * x ^ 3
   = (1 - x) ^ 3 * (6 * x ^ 2 + 3 * x + 1))%R.
Proof. ring. Qed.

Lemma quintic_range (x : R) :
  (0 <= x <= 1)%R → (0 <= 1 - 6 * x ^ 5 + 15 * x ^ 4 - 10 * x ^ 3 <= 1)%R.
Proof.
  intros Hx. split.
  - rewrite quintic_factor. apply Rmult_le_pos; [|nra].
    apply pow_le. lra.
  - assert (H : (0 <= x ^ 3 * (6 * x ^ 2 - 15 * x + 10))%R).
    { apply Rmult_le_pos; [apply pow_le; lra|nra]. }
    nra.
Qed.

Lemma quintic_decreasing (x y : R) :
  (x <= y)%R →
  (1 - 6 * y ^ 5 + 15 * y ^ 4 - 10 * y ^ 3
   <= 1 - 6 * x ^ 5 + 15 * x ^ 4 - 10 * x ^ 3)%R.
Proof.
  intros Hxy.
  set (a := (x * (1 - x))%R). set (b := ((y - x) * (1 - 2 * x))%R).
  set (c := (- (y - x) ^ 2)%R).
  assert (Hdiff :
    ((1 - 6 * x ^ 5 + 15 * x ^ 4 - 10 * x ^ 3)
     - (1 - 6 * y ^ 5 + 15 * y ^ 4 - 10 * y ^ 3)
     = 30 * (y - x) * ((a + b / 2 + c / 3) ^ 2 + (b + c) ^ 2 / 12
                       + c ^ 2 / 180))%R).
  { unfold a, b, c. field. }
  assert (Hsq : (0 <= (a + b / 2 + c / 3) ^ 2 + (b + c) ^ 2 / 12
                      + c ^ 2 / 180)%R).
  { pose proof (pow2_ge_0 (a + b / 2 + c / 3)).
    pose proof (pow2_ge_0 (b + c)). pose proof (pow2_ge_0 c). lra. }
  assert (Hprod : (0 <= 30 * (y - x)
                        * ((a + b / 2 + c / 3) ^ 2 + (b + c) ^ 2 / 12
                           + c ^ 2 / 180))%R)
    by (apply Rmult_le_pos; lra).
  lra.
Qed.

(** X24: the switching function of the periodic Lennard-Jones path, for a
    switch distance below the cutoff: its value lies between zero and one,
    it is one up to the switch distance and zero from the cutoff on, and it
    never increases with the distance. *)
Theorem switch_value_bounds (switch_width cutoff : R) :
  (switch_width < cutoff)%R →
  (∀ distance,
     (0 <= switch_value switch_width cutoff distance <= 1)%R)
  ∧ (∀ distance,
       (distance <= switch_width)%R →
       switch_value switch_width cutoff distance = 1%R)
  ∧ (∀ distance,
       (cutoff <= distance)%R →
       switch_value switch_width cutoff distance = 0%R)
  ∧ (∀ d1 d2,
       (d1 <= d2)%R →
       (switch_value switch_width cutoff d2
        <= switch_value switch_width cutoff d1)%R).
Proof.
  intros Hlt.
  assert (Hx : ∀ d, (switch_width <= d <= cutoff)%R →
            (0 <= (d - switch_width) / (cutoff - switch_width) <= 1)%R).
  { intros d Hd. split.
    - apply Rmult_le_pos; [lra|]. left. apply Rinv_0_lt_compat. lra.
    - apply (Rmult_le_reg_r (cutoff - switch_width)); [lra|].
      unfold Rdiv. rewrite Rmult_assoc, Rinv_l by lra. lra. }
  assert (Hbounds : ∀ d, (0 <= switch_value switch_width cutoff d <= 1)%R).
  { intros d. unfold switch_value.
    rewrite float_0, float_1, float_6, float_10, float_15.
    destruct (Rgt_dec d cutoff); [lra|].
    destruct (Rlt_dec d switch_width); [lra|].
    apply quintic_range, Hx. lra. }
  split; [exact Hbounds|]. split; [|split].
  - intros d Hd. unfold switch_value.
    rewrite float_0, float_1, float_6, float_10, float_15.
    destruct (Rgt_dec d cutoff); [lra|].
    destruct (Rlt_dec d switch_width); [reflexivity|].
    replace d with switch_width by lra.
    replace ((switch_width - switch_width) / (cutoff - switch_width))%R
      with 0%R by (field; lra).
    ring.
  - intros d Hd. unfold switch_value.
    rewrite float_0, float_1, float_6, float_10, float_15.
    destruct (Rgt_dec d cutoff); [reflexivity|].
    destruct (Rlt_dec d switch_width); [lra|].
    replace d with cutoff by lra.
    replace ((cutoff - switch_width) / (cutoff - switch_width))%R
      with 1%R by (field; lra).
    ring.
  - intros d1 d2 Hd.
    pose proof (Hbounds d1) as H1. pose proof (Hbounds d2) as H2.
    revert H1 H2. unfold switch_value.
    rewrite float_0, float_1, float_6, float_10, float_15.
    destruct (Rgt_dec d2 cutoff); [lra|].
    destruct (Rgt_dec d1 cutoff); [lra|].
    destruct (Rlt_dec d1 switch_width); [lra|].
    destruct (Rlt_dec d2 switch_width); [lra|].
    intros _ _. apply quintic_decreasing.
    apply Rmult_le_compat_r; [|lra].
    left. apply Rinv_0_lt_compat. lra.
Qed.

Lemma switch_value_bounds_witness :
  (∀ distance, (0 <= switch_value 8 9 distance <= 1)%R)
  ∧ (∀ distance, (distance <= 8)%R → switch_value 8 9 distance = 1%R)
  ∧ (∀ distance, (9 <= distance)%R → switch_value 8 9 distance = 0%R)
  ∧ (∀ d1 d2, (d1 <= d2)%R →
       (switch_value 8 9 d2 <= switch_value 8 9 d1)%R).
Proof. apply (switch_value_bounds 8 9). lra. Defined.


(** ** The pair scales within a copy *)

Lemma fold_scale_app (E1 E2 : list (Z * Z)) (S1 S2 : list R) (i j : Z)
    (acc : R) :
  length E1 = length S1 →
  foldl (λ acc es, if decide (es.1 = (i, j) ∨ es.1 = (j, i)) then es.2 else acc)
        acc (zip (E1 ++ E2) (S1 ++ S2))
  = foldl (λ acc es, if decide (es.1 = (i, j) ∨ es.1 = (j, i)) then es.2 else acc)
      (foldl (λ acc es,
                if decide (es.1 = (i, j) ∨ es.1 = (j, i)) then es.2 else acc)
             acc (zip E1 S1))
      (zip E2 S2).
Proof.
  intros Hlen. rewrite zip_with_app by exact Hlen.
  now rewrite foldl_app.
Qed.

Lemma fold_scale_outside (E : list (Z * Z)) (S : list R) (i j lo hi : Z)
    (acc : R) :
  Forall (λ p, (lo ≤ p.1 < hi)%Z) E →
  ¬ (lo ≤ i < hi)%Z → ¬ (lo ≤ j < hi)%Z →
  foldl (λ acc es, if decide (es.1 = (i, j) ∨ es.1 = (j, i)) then es.2 else acc)
        acc (zip E S)
  = acc.
Proof.
  intros HE Hi Hj. apply stored_scale_fold_skip.
  eapply Forall_impl; [exact HE|].
  intros p Hp [->| ->]; cbn [fst] in Hp; lia.
Qed.

Lemma fold_scale_shift (E : list (Z * Z)) (S : list R) (a b s : Z) (acc : R) :
  foldl (λ acc es,
           if decide (es.1 = ((s + a)%Z, (s + b)%Z)
                      ∨ es.1 = ((s + b)%Z, (s + a)%Z))
           then es.2 else acc)
        acc (zip (map (λ p, ((s + p.1)%Z, (s + p.2)%Z)) E) S)
  = foldl (λ acc es, if decide (es.1 = (a, b) ∨ es.1 = (b, a)) then es.2 else acc)
      acc (zip E S).
Proof.
  revert S acc. induction E as [|[x y] E IH]; intros [|z S] acc;
    try reflexivity.
  cbn [map zip zip_with foldl fst snd].
  destruct (decide ((x, y) = (a, b) ∨ (x, y) = (b, a))) as [Hn|Hn].
  - rewrite decide_True; [apply IH|].
    destruct Hn as [[= -> ->]|[= -> ->]]; auto.
  - rewrite decide_False; [apply IH|].
    intros [[= H1 H2]|[= H1 H2]]; apply Hn; [left|right]; f_equal; lia.
Qed.

Lemma flat_map_copies_range (potential : Potential.t) (base : Z)
    (topology : Topology.t) (start n : nat) :
  wf_exclusions (Topology.n_particles topology)
    (exclusions_of potential topology) →
  Forall (λ p,
            (base + Z.of_nat start * Z.of_nat (Topology.n_particles topology)
             ≤ p.1
             < base + Z.of_nat (start + n)
                      * Z.of_nat (Topology.n_particles topology))%Z)
         (flat_map (copy_exclusions potential base topology) (seq start n)).
Proof.
  intros Hwf. apply Forall_forall. intros p Hp.
  apply elem_of_flat_map in Hp as (c & Hc & Hp). apply elem_of_seq in Hc.
  unfold copy_exclusions in Hp.
  apply list_elem_of_fmap in Hp as (q & -> & Hq).
  pose proof (proj1 (Forall_forall _ _) Hwf q Hq) as Hrange.
  cbv beta in Hrange. cbn [fst]. nia.
Qed.

Lemma length_flat_map_copies (potential : Potential.t) (base : Z)
    (topology : Topology.t) (start n : nat) :
  length (flat_map (copy_exclusions potential base topology) (seq start n))
  = n * length (exclusions_of potential topology).
Proof.
  rewrite (length_flat_map_const _ _ (length (exclusions_of potential topology))).
  - now rewrite length_seq.
  - intros c. unfold copy_exclusions. now rewrite length_map.
Qed.

Lemma fold_scale_block (potential : Potential.t) (base : Z)
    (topology : Topology.t) (n c : nat) (a b : Z) (acc : R) :
  let np := Z.of_nat (Topology.n_particles topology) in
  wf_exclusions (Topology.n_particles topology)
    (exclusions_of potential topology) →
  length (topology_scales potential topology)
  = length (exclusions_of potential topology) →
  c < n → (0 ≤ a < np)%Z → (0 ≤ b < np)%Z →
  foldl (λ acc es,
           if decide (es.1 = ((base + Z.of_nat c * np + a)%Z,
                              (base + Z.of_nat c * np + b)%Z)
                      ∨ es.1 = ((base + Z.of_nat c * np + b)%Z,
                                (base + Z.of_nat c * np + a)%Z))
           then es.2 else acc)
        acc
        (zip (flat_map (copy_exclusions potential base topology) (seq 0 n))
             (concat (replicate n (topology_scales potential topology))))
  = foldl (λ acc es, if decide (es.1 = (a, b) ∨ es.1 = (b, a)) then es.2 else acc)
      acc
      (zip (exclusions_of potential topology)
           (topology_scales potential topology)).
Proof.
  intros np Hwf Hlen Hc Ha Hb.
  assert (Hseq : seq 0 n = seq 0 c ++ c :: seq (S c) (n - S c)).
  { replace n with (c + S (n - S c)) at 1 by lia.
    rewrite seq_app. reflexivity. }
  assert (Hrep : replicate n (topology_scales potential topology)
                 = replicate c (topology_scales potential topology)
                   ++ topology_scales potential topology
                   :: replicate (n - S c) (topology_scales potential topology)).
  { replace n with (c + S (n - S c)) at 1 by lia.
    now rewrite replicate_add. }
  rewrite Hseq, Hrep, flat_map_app, concat_app. cbn [flat_map concat].
  rewrite fold_scale_app
    by (rewrite length_flat_map_copies, length_concat_replicate; lia).
  rewrite (fold_scale_outside
             (flat_map (copy_exclusions potential base topology) (seq 0 c))
             _ _ _ base (base + Z.of_nat c * np)%Z).
  2:{ pose proof (flat_map_copies_range potential base topology 0 c Hwf) as H.
      eapply Forall_impl; [exact H|]. intros p Hp. cbv beta in Hp.
      fold np in Hp. lia. }
  2,3: lia.
  rewrite fold_scale_app
    by (unfold copy_exclusions; rewrite length_map; lia).
  rewrite (fold_scale_outside
             (flat_map (copy_exclusions potential base topology)
                (seq (S c) (n - S c)))
             _ _ _ (base + Z.of_nat (S c) * np)%Z
             (base + Z.of_nat (S c + (n - S c)) * np)%Z).
  2:{ apply flat_map_copies_range. exact Hwf. }
  2,3: fold np; lia.
  unfold copy_exclusions. fold np. apply fold_scale_shift.
Qed.

Lemma particles_before_snoc (front : list (Topology.t * nat))
    (last : Topology.t * nat) (t : nat) :
  t ≤ length front →
  particles_before (front ++ [last]) t = particles_before front t.
Proof.
  intros Ht. unfold particles_before. now rewrite take_app_le.
Qed.

Lemma expected_exclusion_idxs_snoc (potential : Potential.t)
    (front : list (Topology.t * nat)) (last : Topology.t * nat) :
  expected_exclusion_idxs potential (front ++ [last])
  = expected_exclusion_idxs potential front
    ++ flat_map (copy_exclusions potential
                   (particles_before front (length front)) last.1)
                (seq 0 last.2).
Proof.
  unfold expected_exclusion_idxs. rewrite imap_app, concat_app.
  cbn [imap concat]. rewrite app_nil_r, Nat.add_0_r.
  rewrite particles_before_snoc by lia. f_equal. f_equal.
  apply imap_ext. intros t item Ht. cbn.
  rewrite particles_before_snoc; [reflexivity|].
  apply lookup_lt_Some in Ht. lia.
Qed.

Lemma expected_exclusion_scales_snoc (potential : Potential.t)
    (front : list (Topology.t * nat)) (last : Topology.t * nat) :
  expected_exclusion_scales potential (front ++ [last])
  = expected_exclusion_scales potential front
    ++ concat (replicate last.2 (topology_scales potential last.1)).
Proof.
  unfold expected_exclusion_scales. rewrite flat_map_app. cbn [flat_map].
  now rewrite app_nil_r.
Qed.

Lemma expected_exclusion_idxs_range (potential : Potential.t)
    (items : list (Topology.t * nat)) :
  Forall (λ item, local_exclusions_wf potential item.1) items →
  Forall (λ p, (0 ≤ p.1 < particles_before items (length items))%Z)
         (expected_exclusion_idxs potential items).
Proof.
  intros Hitems. apply Forall_forall. intros p Hp.
  apply elem_of_expected_exclusion_idxs in Hp
    as (t & item & c & q & Ht & Hc & Hq & ->).
  pose proof (proj1 (Forall_forall _ _) Hitems item
                (list_elem_of_lookup_2 _ _ _ Ht)) as (_ & Hlocal & _).
  pose proof (proj1 (Forall_forall _ _) Hlocal q Hq) as Hrange.
  cbv beta in Hrange.
  pose proof (copy_end_bound items t item c Ht Hc) as Hbound.
  cbn [fst]. lia.
Qed.

Lemma fold_scale_system (potential : Potential.t)
    (items : list (Topology.t * nat)) (t : nat) (item : Topology.t * nat)
    (c : nat) (a b : Z) (acc : R) :
  Forall (λ item, local_exclusions_wf potential item.1) items →
  items !! t = Some item → c < item.2 →
  (0 ≤ a < Z.of_nat (Topology.n_particles item.1))%Z →
  (0 ≤ b < Z.of_nat (Topology.n_particles item.1))%Z →
  foldl (λ acc es,
           if decide (es.1 = ((copy_start items t item.1 c + a)%Z,
                              (copy_start items t item.1 c + b)%Z)
                      ∨ es.1 = ((copy_start items t item.1 c + b)%Z,
                                (copy_start items t item.1 c + a)%Z))
           then es.2 else acc)
        acc
        (zip (expected_exclusion_idxs potential items)
             (expected_exclusion_scales potential items))
  = foldl (λ acc es, if decide (es.1 = (a, b) ∨ es.1 = (b, a)) then es.2 else acc)
      acc
      (zip (exclusions_of potential item.1)
           (topology_scales potential item.1)).
Proof.
  revert t item c acc.
  induction items as [|last front IH] using rev_ind;
    intros t item c acc Hitems Ht Hc Ha Hb; [discriminate|].
  apply Forall_app in Hitems as [Hfront Hlast].
  apply Forall_inv in Hlast. cbv beta in Hlast.
  rewrite expected_exclusion_idxs_snoc, expected_exclusion_scales_snoc.
  rewrite fold_scale_app
    by (symmetry; now apply expected_exclusions_length).
  destruct (decide (t < length front)) as [Hlt|Hge].
  - rewrite lookup_app_l in Ht by exact Hlt.
    assert (Hstart : copy_start (front ++ [last]) t item.1 c
                     = copy_start front t item.1 c)
      by (unfold copy_start; rewrite particles_before_snoc by lia;
          reflexivity).
    rewrite Hstart. rewrite (IH t item c acc Hfront Ht Hc Ha Hb).
    pose proof (copy_end_bound front t item c Ht Hc) as [H0 Hend].
    destruct Hlast as (_ & Hwf & _).
    apply (fold_scale_outside _ _ _ _
             (particles_before front (length front)
              + Z.of_nat 0 * Z.of_nat (Topology.n_particles last.1))%Z
             (particles_before front (length front)
              + Z.of_nat (0 + last.2)
                * Z.of_nat (Topology.n_particles last.1))%Z).
    + now apply flat_map_copies_range.
    + lia.
    + lia.
  - assert (t = length front) as ->.
    { apply lookup_lt_Some in Ht. rewrite length_app in Ht. cbn in Ht. lia. }
    rewrite list_lookup_middle in Ht by reflexivity. injection Ht as <-.
    assert (Hstart : copy_start (front ++ [last]) (length front) last.1 c
                     = (particles_before front (length front)
                        + Z.of_nat c * Z.of_nat (Topology.n_particles last.1))%Z)
      by (unfold copy_start; rewrite particles_before_snoc by lia;
          reflexivity).
    rewrite Hstart.
    rewrite (fold_scale_outside (expected_exclusion_idxs potential front)
               _ _ _ 0%Z (particles_before front (length front))).
    + destruct Hlast as (_ & Hwf & Hlen).
      apply fold_scale_block; try assumption.
      unfold topology_scales. now rewrite length_map.
    + now apply expected_exclusion_idxs_range.
    + lia.
    + lia.
Qed.

(** X8: the pair scales within a molecule. On a system whose topologies
    carry well formed local exclusions, the scale that
    [_compute_pair_scales] returns for two particles [a < b] of the same
    copy of a topology is the scale that the topology stores for the pair
    [{a, b}]: the attribute of the potential at the scale index of the last
    local exclusion that names the pair, or one when none does. It is the
    same in every copy, and it does not depend on the other topologies of
    the system. *)
Theorem compute_pair_scales_within_copy (system : System.t)
    (potential : Potential.t) :
  let items := zip (System.topologies system) (System.n_copies system) in
  let n := System.n_particles system in
  items ≠ [] →
  Forall (local_exclusions_wf potential) (System.topologies system) →
  ∃ pair_scales,
    _compute_pair_scales system potential = Ok pair_scales
    ∧ ∀ t item c (a b : nat),
        items !! t = Some item → c < item.2 →
        a < b < Topology.n_particles item.1 →
        pair_scales
          !! Z.to_nat (Utils.to_upper_tri_idx
                         (copy_start items t item.1 c + Z.of_nat a)
                         (copy_start items t item.1 c + Z.of_nat b)
                         (Z.of_nat n))
        = Some (local_scale potential item.1 (Z.of_nat a) (Z.of_nat b)).
Proof.
  intros items n Hne Htops.
  assert (Hitems : Forall (λ item, local_exclusions_wf potential item.1) items)
    by now apply Forall_zip_fst.
  eexists. split.
  - apply (compute_pair_scales_ok _ _
             (expected_exclusion_idxs potential items)
             (expected_exclusion_scales potential items)).
    + apply broadcast_exclusions_expected;
        [exact Hne|now apply local_exclusions_has].
    + now apply expected_exclusion_idxs_wf.
    + now apply expected_exclusions_length.
  - intros t item c a b Ht Hc Hab. fold n.
    pose proof (copy_end_bound items t item c Ht Hc) as [H0 Hend].
    pose proof (system_n_particles_before system) as Hn.
    fold items in Hn. fold n in Hn.
    set (s := copy_start items t item.1 c) in *.
    replace (s + Z.of_nat a)%Z with (Z.of_nat (Z.to_nat s + a)) by lia.
    replace (s + Z.of_nat b)%Z with (Z.of_nat (Z.to_nat s + b)) by lia.
    rewrite list_lookup_fmap, (triu_lookup n (Z.to_nat s + a) (Z.to_nat s + b))
      by lia.
    cbn [fmap option_fmap option_map fst snd]. f_equal.
    replace (Z.of_nat (Z.to_nat s + a)) with (s + Z.of_nat a)%Z by lia.
    replace (Z.of_nat (Z.to_nat s + b)) with (s + Z.of_nat b)%Z by lia.
    unfold local_scale, stored_scale, s.
    apply fold_scale_system; try assumption; lia.
Qed.

Lemma compute_pair_scales_within_copy_witness :
  ∃ pair_scales,
    _compute_pair_scales two_diatomics lj_scaled = Ok pair_scales
    ∧ ∀ t item c (a b : nat),
        zip (System.topologies two_diatomics) (System.n_copies two_diatomics)
          !! t = Some item →
        c < item.2 →
        a < b < Topology.n_particles item.1 →
        pair_scales
          !! Z.to_nat (Utils.to_upper_tri_idx
                         (copy_start
                            (zip (System.topologies two_diatomics)
                                 (System.n_copies two_diatomics)) t item.1 c
                          + Z.of_nat a)
                         (copy_start
                            (zip (System.topologies two_diatomics)
                                 (System.n_copies two_diatomics)) t item.1 c
                          + Z.of_nat b)
                         (Z.of_nat (System.n_particles two_diatomics)))
        = Some (local_scale lj_scaled item.1 (Z.of_nat a) (Z.of_nat b)).
Proof.
  apply (compute_pair_scales_within_copy two_diatomics lj_scaled).
  - discriminate.
  - repeat constructor; try (eexists; reflexivity); cbn; lia.
Defined.
